(** * The state machine of [src/util.js]

    A shallow embedding of the classes [StateMachine] and [State] and a
    verification of their transition protocol, their push/pop stack, the
    deferred callbacks of [nextStep] and the notification that
    [pushAndWait] waits for.

    The machine object is a record; every method is a function on it.
    [transition] is an [async] function: it runs up to its first [await],
    hands a suspended continuation to the microtask queue and returns.
    The continuation is a [Task] (a program point plus the captured
    parameters); [resume] runs it to its next [await].  Errors raised
    inside [transition] settle its promise and are never thrown at the
    caller, so they are collected in [rejections].

    User code (the overridable methods of a state, the lifecycle callbacks
    of a transition, the callbacks given to [nextStep]) is observed through
    the [log]: one event per invocation, with the arguments received.  The
    one way user code acts back on the machine synchronously in this model
    is [nextStep]; a piece of user code is described by the callbacks it
    queues when it runs.  Calls of the other methods are made from outside,
    between two stretches of a transition or between two steps.

    Each key of [possibleStates] holds a [State] instance of its own, and
    [execute] is a function of the arguments it is called with.  A hook may
    take any time to settle: a suspended transition stays in [jobs] until
    it is resumed.  [run_job] and [settle] resume in the order of the
    microtask queue, which is the order of resumption when every hook
    returns a plain value or a settled promise.

    The second part embeds the helpers of the same file that compute on
    integers, strings, lists and plain objects ([range], [reduceToObject],
    [padCenter], [randomChoices], the direction tables, the tile and
    property lookups), and the two states of the player's machine from
    [scenes/board.js], which are run on the machine of the first part. *)

From Equations Require Import Equations.
From stdpp Require Import gmap strings list sorting.
From Stdlib Require Import ZArith.

Local Open Scope string_scope.
Local Open Scope list_scope.

(** ** Values and user code *)

(** Context values and step arguments forwarded to user code: numbers (the
    [time] and [delta] of a frame), strings and opaque object handles (a
    scene, an entity). *)
Inductive Value :=
| VNum (n : Z)
| VStr (s : string)
| VRef (r : nat).

(** The residual keys of a transition's options object ([...enterArgs]). *)
Definition EnterArgs : Type := list (string * Value).

(** A user function handed to the machine: an identity and the callbacks it
    passes to [nextStep] when it is invoked. *)
#[local] Unset Elimination Schemes.
Inductive Callback :=
| Cb (id : nat) (queues : list Callback).
#[local] Set Elimination Schemes.

Definition cb_id (c : Callback) : nat := let 'Cb i _ := c in i.
Definition cb_queues (c : Callback) : list Callback := let 'Cb _ q := c in q.

Fixpoint cb_size (c : Callback) : nat :=
  match c with
  | Cb _ q => S (list_sum (map cb_size q))
  end.

Definition forest_size (q : list Callback) : nat := list_sum (map cb_size q).

(** The second parameter of [transition], destructured:
    [{ preExit = null, postExit = null, preEnter = null, postEnter = null,
       ...enterArgs } = {}]. *)
Record Options := {
  preExit : option Callback;
  postExit : option Callback;
  preEnter : option Callback;
  postEnter : option Callback;
  enterArgs : EnterArgs
}.

Definition default_options : Options :=
  {| preExit := None; postExit := None; preEnter := None; postEnter := None;
     enterArgs := [] |}.

(** [class State]: the [initialized] flag and the four overridable methods.
    Each method is given by the callbacks it queues; [execute] also returns
    [undefined] ([None]) or a string, and may look at its arguments. *)
Record State := {
  initialized : bool;
  init : list Callback;
  handleEntered : list Callback;
  handleExited : list Callback;
  execute : list Value -> list Callback * option string
}.

(** [new State()]: [initialized = false] and methods that do nothing. *)
Definition new_State : State :=
  {| initialized := false; init := []; handleEntered := [];
     handleExited := []; execute := fun _ => ([], None) |}.

Definition set_initialized (s : State) : State :=
  {| initialized := true; init := init s; handleEntered := handleEntered s;
     handleExited := handleExited s; execute := execute s |}.

(** ** Events, errors and suspended transitions *)

Inductive Event :=
| EvInit (key : string) (args : list Value)
| EvHandleEntered (key : string) (args : list Value) (extra : option EnterArgs)
| EvHandleExited (key : string) (args : list Value)
| EvExecute (key : string) (args : list Value)
| EvPreExit (f : nat) (args : list Value)
| EvPostExit (f : nat) (args : list Value)
| EvPreEnter (f : nat) (args : list Value)
| EvPostEnter (f : nat) (args : list Value)
| EvCallback (f : nat) (args : list Value)
| EvNextStep (f : nat)
| EvEmit (depth : nat)
| EvResolve (p : nat).

Inductive Error :=
| InvalidState (name : string)
| EmptyStack
| TypeError.

(** The [await] at which a call of [transition] is suspended. *)
Inductive Pc :=
| AfterPreExit
| AfterHandleExited
| AfterPostExit
| AfterPreEnter
| AfterHandleEntered
| AfterPostEnter.

Record Task := {
  pc : Pc;
  newState : option string;
  options : Options
}.

(** What a synchronous stretch of [transition] ends in. *)
Inductive Outcome :=
| Suspended (at_pc : Pc)
| Rejected (e : Error)
| Fulfilled.

(** The handler that [pushAndWait] subscribes: it closes over the stack
    length read before the push and over the [resolve] of its promise. *)
Record Handler := {
  h_promise : nat;
  h_depth : nat
}.

(** ** The machine *)

(** The fields of the [StateMachine] object, the listeners of its event
    emitter, and the run-time context of its asynchronous calls: suspended
    transitions in resumption order, rejected transitions, the promises of
    [pushAndWait] and the log of user code invoked. *)
Record Machine := {
  initialState : string;
  possibleStates : gmap string State;
  stateArgs : list Value;
  state : option string;
  nextStepCallbacks : list Callback;
  stateStack : list (option string);
  transitioning : bool;
  listeners : list Handler;
  jobs : list Task;
  rejections : list Error;
  resolved : list nat;
  promises : nat;
  log : list Event
}.

Definition set_possibleStates (v : gmap string State) (m : Machine) : Machine :=
  {| initialState := initialState m; possibleStates := v;
     stateArgs := stateArgs m; state := state m;
     nextStepCallbacks := nextStepCallbacks m; stateStack := stateStack m;
     transitioning := transitioning m; listeners := listeners m;
     jobs := jobs m; rejections := rejections m; resolved := resolved m;
     promises := promises m; log := log m |}.

Definition set_state (v : option string) (m : Machine) : Machine :=
  {| initialState := initialState m; possibleStates := possibleStates m;
     stateArgs := stateArgs m; state := v;
     nextStepCallbacks := nextStepCallbacks m; stateStack := stateStack m;
     transitioning := transitioning m; listeners := listeners m;
     jobs := jobs m; rejections := rejections m; resolved := resolved m;
     promises := promises m; log := log m |}.

Definition set_nextStepCallbacks (v : list Callback) (m : Machine) : Machine :=
  {| initialState := initialState m; possibleStates := possibleStates m;
     stateArgs := stateArgs m; state := state m;
     nextStepCallbacks := v; stateStack := stateStack m;
     transitioning := transitioning m; listeners := listeners m;
     jobs := jobs m; rejections := rejections m; resolved := resolved m;
     promises := promises m; log := log m |}.

Definition set_stateStack (v : list (option string)) (m : Machine) : Machine :=
  {| initialState := initialState m; possibleStates := possibleStates m;
     stateArgs := stateArgs m; state := state m;
     nextStepCallbacks := nextStepCallbacks m; stateStack := v;
     transitioning := transitioning m; listeners := listeners m;
     jobs := jobs m; rejections := rejections m; resolved := resolved m;
     promises := promises m; log := log m |}.

Definition set_transitioning (v : bool) (m : Machine) : Machine :=
  {| initialState := initialState m; possibleStates := possibleStates m;
     stateArgs := stateArgs m; state := state m;
     nextStepCallbacks := nextStepCallbacks m; stateStack := stateStack m;
     transitioning := v; listeners := listeners m;
     jobs := jobs m; rejections := rejections m; resolved := resolved m;
     promises := promises m; log := log m |}.

Definition set_listeners (v : list Handler) (m : Machine) : Machine :=
  {| initialState := initialState m; possibleStates := possibleStates m;
     stateArgs := stateArgs m; state := state m;
     nextStepCallbacks := nextStepCallbacks m; stateStack := stateStack m;
     transitioning := transitioning m; listeners := v;
     jobs := jobs m; rejections := rejections m; resolved := resolved m;
     promises := promises m; log := log m |}.

Definition set_jobs (v : list Task) (m : Machine) : Machine :=
  {| initialState := initialState m; possibleStates := possibleStates m;
     stateArgs := stateArgs m; state := state m;
     nextStepCallbacks := nextStepCallbacks m; stateStack := stateStack m;
     transitioning := transitioning m; listeners := listeners m;
     jobs := v; rejections := rejections m; resolved := resolved m;
     promises := promises m; log := log m |}.

Definition set_rejections (v : list Error) (m : Machine) : Machine :=
  {| initialState := initialState m; possibleStates := possibleStates m;
     stateArgs := stateArgs m; state := state m;
     nextStepCallbacks := nextStepCallbacks m; stateStack := stateStack m;
     transitioning := transitioning m; listeners := listeners m;
     jobs := jobs m; rejections := v; resolved := resolved m;
     promises := promises m; log := log m |}.

Definition set_resolved (v : list nat) (m : Machine) : Machine :=
  {| initialState := initialState m; possibleStates := possibleStates m;
     stateArgs := stateArgs m; state := state m;
     nextStepCallbacks := nextStepCallbacks m; stateStack := stateStack m;
     transitioning := transitioning m; listeners := listeners m;
     jobs := jobs m; rejections := rejections m; resolved := v;
     promises := promises m; log := log m |}.

Definition set_promises (v : nat) (m : Machine) : Machine :=
  {| initialState := initialState m; possibleStates := possibleStates m;
     stateArgs := stateArgs m; state := state m;
     nextStepCallbacks := nextStepCallbacks m; stateStack := stateStack m;
     transitioning := transitioning m; listeners := listeners m;
     jobs := jobs m; rejections := rejections m; resolved := resolved m;
     promises := v; log := log m |}.

Definition set_log (v : list Event) (m : Machine) : Machine :=
  {| initialState := initialState m; possibleStates := possibleStates m;
     stateArgs := stateArgs m; state := state m;
     nextStepCallbacks := nextStepCallbacks m; stateStack := stateStack m;
     transitioning := transitioning m; listeners := listeners m;
     jobs := jobs m; rejections := rejections m; resolved := resolved m;
     promises := promises m; log := v |}.

Definition record (e : Event) (m : Machine) : Machine :=
  set_log (log m ++ [e]) m.

(** What a synchronous method returns to its caller. *)
Inductive Result :=
| Returned (m : Machine)
| Thrown (e : Error) (m : Machine).

(** ** JavaScript's view of keys and conditions *)

(** The property key a state value is converted to where it indexes
    [possibleStates] or is tested with [in]: [null] becomes ["null"]. *)
Definition prop_key (v : option string) : string :=
  match v with
  | Some s => s
  | None => "null"
  end.

(** [if (v)] for a value that is [null]/[undefined] or a string: the empty
    string is falsy as well. *)
Definition truthy (v : option string) : bool :=
  match v with
  | Some s => negb (String.eqb s "")
  | None => false
  end.

(** [possibleStates] is created as the literal [{}], so it inherits the
    properties of [Object.prototype]; [in] sees them, and none of them is
    an object with state methods. *)
Definition object_prototype_keys : list string :=
  [ "constructor"; "__defineGetter__"; "__defineSetter__"; "hasOwnProperty";
    "__lookupGetter__"; "__lookupSetter__"; "isPrototypeOf";
    "propertyIsEnumerable"; "toString"; "valueOf"; "__proto__";
    "toLocaleString" ].

Definition registered (k : string) (m : Machine) : Prop :=
  is_Some (possibleStates m !! k).

(** [newState in this.possibleStates] *)
Definition in_possibleStates (v : option string) (m : Machine) : bool :=
  bool_decide (registered (prop_key v) m)
  || bool_decide (prop_key v ∈ object_prototype_keys).

(** ** Construction *)

(** [Object.assign(this.possibleStates, states)]: the new entries win.  The
    back-references written into each state are not modelled. *)
Definition addStates (states : gmap string State) (m : Machine) : Machine :=
  set_possibleStates (states ∪ possibleStates m) m.

Definition new_StateMachine (initial : string) (states : gmap string State)
    (args : list Value) : Machine :=
  addStates states
    {| initialState := initial; possibleStates := ∅; stateArgs := args;
       state := None; nextStepCallbacks := []; stateStack := [];
       transitioning := false; listeners := []; jobs := []; rejections := [];
       resolved := []; promises := 0; log := [] |}.

Definition currentState (m : Machine) : option State :=
  possibleStates m !! prop_key (state m).

(** ** User code calling back *)

(** [nextStep(callback)]: [this.nextStepCallbacks.push(callback)] *)
Definition nextStep (callback : Callback) (m : Machine) : Machine :=
  set_nextStepCallbacks (nextStepCallbacks m ++ [callback])
    (record (EvNextStep (cb_id callback)) m).

(** One invocation of user code: the event, then its calls of [nextStep]. *)
Definition call (e : Event) (queued : list Callback) (m : Machine) : Machine :=
  fold_left (fun m c => nextStep c m) queued (record e m).

(** ** transition *)

(** [stateObj.initialized = true] on the object stored under [k]. *)
Definition mark_initialized (k : string) (m : Machine) : Machine :=
  set_possibleStates (alter set_initialized k (possibleStates m)) m.

(** [stateObj.handleEntered(...this.stateArgs, enterArgs)] for the object
    stored under the key of [target]. *)
Definition call_handleEntered (target : option string) (opts : Options)
    (m : Machine) : Machine * Outcome :=
  match possibleStates m !! prop_key target with
  | None => (m, Rejected TypeError)
  | Some stateObj =>
      (call (EvHandleEntered (prop_key target) (stateArgs m)
               (Some (enterArgs opts)))
            (handleEntered stateObj) m,
       Suspended AfterHandleEntered)
  end.

(** From [this.state = newState] to the next [await]. *)
Definition enter (target : option string) (opts : Options) (m : Machine)
    : Machine * Outcome :=
  let m := set_state target m in
  match possibleStates m !! prop_key target with
  | None => (m, Rejected TypeError)
  | Some stateObj =>
      let m :=
        if initialized stateObj then m
        else mark_initialized (prop_key target)
               (call (EvInit (prop_key target) (stateArgs m)) (init stateObj) m) in
      match preEnter opts with
      | Some f =>
          (call (EvPreEnter (cb_id f) (stateArgs m)) (cb_queues f) m,
           Suspended AfterPreEnter)
      | None => call_handleEntered target opts m
      end
  end.

(** [await this.possibleStates[this.state].handleExited(...this.stateArgs)] *)
Definition call_handleExited (m : Machine) : Machine * Outcome :=
  match possibleStates m !! prop_key (state m) with
  | None => (m, Rejected TypeError)
  | Some cur =>
      (call (EvHandleExited (prop_key (state m)) (stateArgs m))
            (handleExited cur) m,
       Suspended AfterHandleExited)
  end.

(** The rest of the exit half after [handleExited] has settled. *)
Definition after_handleExited (target : option string) (opts : Options)
    (m : Machine) : Machine * Outcome :=
  match postExit opts with
  | Some f =>
      (call (EvPostExit (cb_id f) (stateArgs m)) (cb_queues f) m,
       Suspended AfterPostExit)
  | None => enter target opts m
  end.

(** The rest of the enter half after [handleEntered] has settled. *)
Definition after_handleEntered (opts : Options) (m : Machine)
    : Machine * Outcome :=
  match postEnter opts with
  | Some f =>
      (call (EvPostEnter (cb_id f) (stateArgs m)) (cb_queues f) m,
       Suspended AfterPostEnter)
  | None => (set_transitioning false m, Fulfilled)
  end.

(** The call of [transition] up to its first [await] or its [throw]. *)
Definition transition_begin (target : option string) (opts : Options)
    (m : Machine) : Machine * Outcome :=
  if negb (in_possibleStates target m) then
    (m, Rejected (InvalidState (prop_key target)))
  else
    let m := set_transitioning true m in
    if truthy (state m) then
      match preExit opts with
      | Some f =>
          (call (EvPreExit (cb_id f) (stateArgs m)) (cb_queues f) m,
           Suspended AfterPreExit)
      | None => call_handleExited m
      end
    else enter target opts m.

(** A suspended transition continues to its next [await] or to its end. *)
Definition resume (t : Task) (m : Machine) : Machine * Outcome :=
  match pc t with
  | AfterPreExit => call_handleExited m
  | AfterHandleExited => after_handleExited (newState t) (options t) m
  | AfterPostExit => enter (newState t) (options t) m
  | AfterPreEnter => call_handleEntered (newState t) (options t) m
  | AfterHandleEntered => after_handleEntered (options t) m
  | AfterPostEnter => (set_transitioning false m, Fulfilled)
  end.

(** The run time's part: a suspended transition joins the queue, a failed
    one leaves a rejected promise, a finished one leaves nothing. *)
Definition dispose (target : option string) (opts : Options)
    (r : Machine * Outcome) : Machine :=
  match r with
  | (m, Suspended p) =>
      set_jobs (jobs m ++ [{| pc := p; newState := target; options := opts |}]) m
  | (m, Rejected e) => set_rejections (rejections m ++ [e]) m
  | (m, Fulfilled) => m
  end.

(** [this.transition(newState, options)] as its caller sees it: the call
    returns a promise and never throws. *)
Definition transition (target : option string) (opts : Options) (m : Machine)
    : Machine :=
  dispose target opts (transition_begin target opts m).

(** One microtask: the oldest suspended transition continues.  This is the
    order in which they resume when every hook returns a plain value or a
    settled promise. *)
Definition run_job (m : Machine) : Machine :=
  match jobs m with
  | [] => m
  | t :: rest => dispose (newState t) (options t) (resume t (set_jobs rest m))
  end.

Fixpoint run_jobs (n : nat) (m : Machine) : Machine :=
  match n with
  | O => m
  | S n => run_jobs n (run_job m)
  end.

(** Every suspended transition runs to its end: each has at most six
    [await]s left. *)
Definition settle (m : Machine) : Machine := run_jobs (6 * length (jobs m)) m.

(** ** step *)

(** [(...this.stateArgs, ...stepArgs)]; the frame driver passes numbers. *)
Definition step_args (m : Machine) (stepArgs : list Z) : list Value :=
  stateArgs m ++ map VNum stepArgs.

(** [if (this.state === null)]: the first step enters the initial state.
    Indexing an unregistered name yields no state object and the method
    call throws. *)
Definition bootstrap (m : Machine) : Result :=
  match state m with
  | None =>
      let m := set_state (Some (initialState m)) m in
      match possibleStates m !! initialState m with
      | None => Thrown TypeError m
      | Some s =>
          let m := call (EvInit (initialState m) (stateArgs m)) (init s) m in
          Returned (call (EvHandleEntered (initialState m) (stateArgs m) None)
                         (handleEntered s) m)
      end
  | Some _ => Returned m
  end.

(** [for (const callback of this.nextStepCallbacks)]: the array iterator
    reads the live array, so a callback pushed while the loop runs is
    reached by the same loop. *)
Equations? drain_from (stepArgs : list Z) (i : nat) (m : Machine) : Machine
    by wf (forest_size (drop i (nextStepCallbacks m))) lt :=
  drain_from stepArgs i m with Equations.Prop.Logic.inspect (nextStepCallbacks m !! i) := {
    | exist _ (Some callback) Hget =>
        drain_from stepArgs (S i)
          (call (EvCallback (cb_id callback) (step_args m stepArgs))
                (cb_queues callback) m)
    | exist _ None _ => m }.
Proof.
  assert (Hq : forall q m0 e,
             nextStepCallbacks (call e q m0) = nextStepCallbacks m0 ++ q).
  { clear. unfold call. intros q m0 e.
    change (nextStepCallbacks m0) with (nextStepCallbacks (record e m0)).
    generalize (record e m0). induction q as [|c q IH]; intros m1; simpl.
    - now rewrite app_nil_r.
    - rewrite IH. simpl. now rewrite <- app_assoc. }
  rewrite Hq.
  pose proof (lookup_lt_Some _ _ _ Hget) as Hlt.
  rewrite drop_app_le; [|lia].
  rewrite (drop_S _ _ _ Hget).
  unfold forest_size. rewrite map_app, list_sum_app. simpl.
  destruct callback as [f q]. simpl. fold (forest_size q).
  unfold forest_size. lia.
Qed.

(** The callback queue at the start of a step. *)
Definition drain_callbacks (stepArgs : list Z) (m : Machine) : Machine :=
  if Nat.ltb 0 (length (nextStepCallbacks m)) then
    set_nextStepCallbacks [] (drain_from stepArgs 0 m)
  else m.

(** The options that [step] passes: [this.transition(newState, ...stepArgs)]
    destructures the first step argument, a number or [undefined], and
    every key takes its default. *)
Definition step_options (stepArgs : list Z) : Options := default_options.

(** [while (!this.transitioning) { ... }]: [fuel] bounds the number of
    times the condition is evaluated; [None] when it is used up. *)
Fixpoint execute_loop (fuel : nat) (stepArgs : list Z) (m : Machine)
    : option Result :=
  match fuel with
  | O => None
  | S fuel =>
      if transitioning m then Some (Returned m)
      else
        match possibleStates m !! prop_key (state m) with
        | None => Some (Thrown TypeError m)
        | Some cur =>
            let '(queued, next) := execute cur (step_args m stepArgs) in
            let m := call (EvExecute (prop_key (state m)) (step_args m stepArgs))
                          queued m in
            if truthy next then
              execute_loop fuel stepArgs
                (transition next (step_options stepArgs) m)
            else Some (Returned m)
        end
  end.

Definition step (fuel : nat) (stepArgs : list Z) (m : Machine) : option Result :=
  match bootstrap m with
  | Thrown e m => Some (Thrown e m)
  | Returned m => execute_loop fuel stepArgs (drain_callbacks stepArgs m)
  end.

(** ** The stack and its notification *)

(** [stateStack] is kept with its top first: [push] is a cons, [pop] takes
    the head. *)
Definition pushTransition (target : option string) (args : Options)
    (m : Machine) : Machine :=
  transition target args (set_stateStack (state m :: stateStack m) m).

(** Modelled from the spec: the publish/subscribe surface ([on], [off],
    [emit]) that the machine inherits from the engine's event emitter, for
    the one event ['popTransition'].  [off] removes the given handler, a
    handler being known by the promise it resolves; [emit] calls every
    handler subscribed when it starts. *)
Definition on (h : Handler) (m : Machine) : Machine :=
  set_listeners (listeners m ++ [h]) m.

Definition same_handler (h h' : Handler) : bool :=
  Nat.eqb (h_promise h) (h_promise h').

Definition off (h : Handler) (m : Machine) : Machine :=
  set_listeners (List.filter (fun h' => negb (same_handler h h')) (listeners m)) m.

(** [resolve()]: settles the promise the first time it is called. *)
Definition resolve (p : nat) (m : Machine) : Machine :=
  if existsb (Nat.eqb p) (resolved m) then m
  else set_resolved (p :: resolved m) (record (EvResolve p) m).

(** The handler of [pushAndWait]:
    [if (newStackLength === stackLength) { this.off(...); resolve(); }] *)
Definition handler (h : Handler) (newStackLength : nat) (m : Machine) : Machine :=
  if Nat.eqb newStackLength (h_depth h) then resolve (h_promise h) (off h m)
  else m.

Definition emit (depth : nat) (m : Machine) : Machine :=
  fold_left (fun m h => handler h depth m) (listeners m)
            (record (EvEmit depth) m).

Definition popTransition (m : Machine) : Result :=
  match stateStack m with
  | [] => Thrown EmptyStack m
  | top :: rest =>
      let m := transition top default_options (set_stateStack rest m) in
      Returned (emit (length (stateStack m)) m)
  end.

(** [pushAndWait] returns the promise; its identity is the count of
    promises created so far. *)
Definition pushAndWait (target : option string) (args : Options) (m : Machine)
    : Machine * nat :=
  let stackLength := length (stateStack m) in
  let p := promises m in
  let m := on {| h_promise := p; h_depth := stackLength |}
              (set_promises (S p) m) in
  (pushTransition target args m, p).

(** ** Reading the log *)

(** The invocations of user code, without the [nextStep] calls made by it. *)
Fixpoint calls (l : list Event) : list Event :=
  match l with
  | [] => []
  | EvNextStep _ :: l => calls l
  | e :: l => e :: calls l
  end.


Definition is_init_of (k : string) (e : Event) : bool :=
  match e with
  | EvInit k' _ => String.eqb k k'
  | _ => false
  end.

Definition is_handleEntered_of (k : string) (e : Event) : bool :=
  match e with
  | EvHandleEntered k' _ _ => String.eqb k k'
  | _ => false
  end.

Definition is_execute (e : Event) : bool :=
  match e with
  | EvExecute _ _ => true
  | _ => false
  end.

Definition is_exit_hook (e : Event) : bool :=
  match e with
  | EvPreExit _ _ | EvHandleExited _ _ | EvPostExit _ _ => true
  | _ => false
  end.

Definition count_events (p : Event -> bool) (l : list Event) : nat :=
  length (List.filter p l).

Definition machine_of (r : Result) : Machine :=
  match r with
  | Returned m => m
  | Thrown _ m => m
  end.

(** The greatest number of resumptions a suspended transition still needs. *)
Definition remaining (p : Pc) : nat :=
  match p with
  | AfterPreExit => 6
  | AfterHandleExited => 5
  | AfterPostExit => 4
  | AfterPreEnter => 3
  | AfterHandleEntered => 2
  | AfterPostEnter => 1
  end.

(** ** Relations between a machine and a later one *)

(** The fields left alone by a transition that goes through: all but the
    state, the flags, the queues, the log and the [initialized] flags
    inside [possibleStates]. *)
Definition same_frame (m m' : Machine) : Prop :=
  initialState m' = initialState m /\
  stateArgs m' = stateArgs m /\
  stateStack m' = stateStack m /\
  listeners m' = listeners m /\
  resolved m' = resolved m /\
  promises m' = promises m /\
  (forall k, registered k m' <-> registered k m).

(** ** The order in which a queue is drained *)

(** The callbacks invoked by one drain of the queue [q], in order: a
    callback queued by an invoked callback joins the end of the same
    queue. *)
Equations? drain_order (q : list Callback) : list Callback
    by wf (forest_size q) lt :=
  drain_order [] := [];
  drain_order (c :: rest) := c :: drain_order (rest ++ cb_queues c).
Proof.
  unfold forest_size. rewrite map_app, list_sum_app.
  destruct c as [f q]. simpl. lia.
Qed.


(** What user code cannot reach: everything but the log and the queue of
    deferred callbacks. *)
Definition user_frame (m m' : Machine) : Prop :=
  initialState m' = initialState m /\
  possibleStates m' = possibleStates m /\
  stateArgs m' = stateArgs m /\
  state m' = state m /\
  stateStack m' = stateStack m /\
  transitioning m' = transitioning m /\
  listeners m' = listeners m /\
  jobs m' = jobs m /\
  rejections m' = rejections m /\
  resolved m' = resolved m /\
  promises m' = promises m.


(** The invocation of a deferred callback in a step with arguments
    [stepArgs]. *)
Definition invocation (m : Machine) (stepArgs : list Z) (c : Callback) : Event :=
  EvCallback (cb_id c) (step_args m stepArgs).

(** Neither [init] nor [handleEntered] of the state registered as [k]. *)
Definition not_entering (k : string) (e : Event) : Prop :=
  is_init_of k e = false /\ is_handleEntered_of k e = false.

(** A suspended transition that is alone in the queue and can go on: its
    target is registered, the state it will exit (if it still has to) is
    registered, and past [this.state = newState] the state is the target. *)
Definition runnable (t : Task) (m : Machine) : Prop :=
  jobs m = [t] /\
  registered (prop_key (newState t)) m /\
  (pc t = AfterPreExit -> registered (prop_key (state m)) m) /\
  (remaining (pc t) <= 3 -> state m = newState t).

(** What one stretch of a transition leaves as it found it. *)
Definition stretch_frame (m m' : Machine) : Prop :=
  same_frame m m' /\ rejections m' = rejections m.

(** The fields that [emit], [on], [off] and [resolve] leave alone. *)
Definition emitter_frame (m m' : Machine) : Prop :=
  initialState m' = initialState m /\
  possibleStates m' = possibleStates m /\
  stateArgs m' = stateArgs m /\
  state m' = state m /\
  nextStepCallbacks m' = nextStepCallbacks m /\
  stateStack m' = stateStack m /\
  transitioning m' = transitioning m /\
  jobs m' = jobs m /\
  rejections m' = rejections m /\
  promises m' = promises m.

(** ** Promises of pushAndWait *)

(** Promise identities are handed out in order, so the ones in use are
    below the counter. *)
Definition emitter_wf (m : Machine) : Prop :=
  (forall h, In h (listeners m) -> h_promise h < promises m) /\
  (forall p, In p (resolved m) -> p < promises m).

(** The promise [p] of a [pushAndWait] made at depth [d] is pending: its
    handler is subscribed, it is the only handler for [p], and [p] is not
    settled. *)
Definition waiting (p d : nat) (m : Machine) : Prop :=
  In {| h_promise := p; h_depth := d |} (listeners m) /\
  (forall h, In h (listeners m) -> h_promise h = p -> h_depth h = d) /\
  ~ In p (resolved m).

Definition subscribed (p : nat) (m : Machine) : Prop :=
  exists h, In h (listeners m) /\ h_promise h = p.

(** What a transition never touches, whatever its outcome: the emitter,
    the promises, the stack and the construction-time fields. *)
Definition quiet (m m' : Machine) : Prop :=
  initialState m' = initialState m /\
  stateArgs m' = stateArgs m /\
  stateStack m' = stateStack m /\
  listeners m' = listeners m /\
  resolved m' = resolved m /\
  promises m' = promises m.

(** ** Machines used as concrete inputs *)

(** A state whose [execute] always returns [r]. *)
Definition always (r : option string) : State :=
  {| initialized := false; init := []; handleEntered := []; handleExited := [];
     execute := fun _ => ([], r) |}.

(** Every lifecycle callback supplied, none of them queueing anything. *)
Definition four_callbacks : Options :=
  {| preExit := Some (Cb 1 []); postExit := Some (Cb 2 []);
     preEnter := Some (Cb 3 []); postEnter := Some (Cb 4 []);
     enterArgs := [] |}.

(** [A.execute] returns ['B'], [B.execute] returns nothing. *)
Definition a_then_b : gmap string State :=
  {[ "A" := always (Some "B"); "B" := new_State ]}.

(** Two idle states. *)
Definition idle_ab : gmap string State :=
  {[ "A" := new_State; "B" := new_State ]}.

(** A machine whose initial state is registered under the empty string. *)
Definition empty_key_states : gmap string State :=
  {[ "" := new_State; "B" := new_State ]}.

(** A machine with a state registered under the name ["null"]. *)
Definition null_key_states : gmap string State :=
  {[ "null" := new_State; "B" := new_State ]}.

(** The machine after its first step, when that step returns. *)
Definition started (initial : string) (states : gmap string State) : Machine :=
  match step 2 [] (new_StateMachine initial states []) with
  | Some r => machine_of r
  | None => new_StateMachine initial states []
  end.

(** ** Sequences of calls *)

(** What the code around a machine does with it from outside, between two
    steps or between two stretches of a transition: it calls one of the
    public methods, or one suspended transition continues. *)
Inductive Call :=
| CallStep (stepArgs : list Z)
| CallNextStep (callback : Callback)
| CallTransition (newState : option string) (options : Options)
| CallPushTransition (newState : option string) (args : Options)
| CallPushAndWait (newState : option string) (args : Options)
| CallPopTransition
| Resume.

(** The machine after one call; an exception thrown by [step] or
    [popTransition] goes to the caller and the machine stays as the call
    left it.  [None] when the loop of [step] runs out of [fuel]. *)
Definition perform (fuel : nat) (c : Call) (m : Machine) : option Machine :=
  match c with
  | CallStep stepArgs => machine_of <$> step fuel stepArgs m
  | CallNextStep callback => Some (nextStep callback m)
  | CallTransition newState options => Some (transition newState options m)
  | CallPushTransition newState args => Some (pushTransition newState args m)
  | CallPushAndWait newState args => Some (fst (pushAndWait newState args m))
  | CallPopTransition => Some (machine_of (popTransition m))
  | Resume => Some (run_job m)
  end.

Fixpoint perform_all (fuel : nat) (cs : list Call) (m : Machine)
    : option Machine :=
  match cs with
  | [] => Some m
  | c :: cs =>
      match perform fuel c m with
      | Some m => perform_all fuel cs m
      | None => None
      end
  end.


(** The resumptions that the suspended transitions still need at most. *)
Definition pending (m : Machine) : nat :=
  list_sum (map (fun t => remaining (pc t)) (jobs m)).

(** The state registered as [k] has its [initialized] flag set. *)
Definition init_done (k : string) (m : Machine) : Prop :=
  exists s, possibleStates m !! k = Some s /\ initialized s = true.

(** The [initialized] flag of the state registered as [k] tells whether
    its [init] has been called. *)
Definition flag_records_init (k : string) (m : Machine) : Prop :=
  forall s, possibleStates m !! k = Some s ->
    (initialized s = true <-> 0 < count_events (is_init_of k) (log m)).

(** [m'] comes from [m] by code that leaves the registered states as they
    are but for [initialized] flags that it sets, that does not call the
    [init] of the state registered as [k] if its flag is set, and that
    sets the flag if it calls it. *)
Definition keeps_init (k : string) (m m' : Machine) : Prop :=
  initialState m' = initialState m /\
  set_initialized <$> possibleStates m' = set_initialized <$> possibleStates m /\
  (forall key, init_done key m -> init_done key m') /\
  (init_done k m ->
   exists delta, log m' = log m ++ delta /\
                 Forall (fun e => is_init_of k e = false) delta) /\
  (flag_records_init k m -> flag_records_init k m').


(** No state is registered as ["null"], and no suspended transition has
    [null] for its target. *)
Definition no_null_target (m : Machine) : Prop :=
  possibleStates m !! "null" = None /\
  Forall (fun t => newState t <> None) (jobs m).

(** The machine has left the [null] state for good. *)
Definition past_bootstrap (m : Machine) : Prop :=
  state m <> None /\ no_null_target m.

(** * The helpers of [src/util.js]

    Numbers are modelled where the code uses them as integers (counters,
    tile identifiers, lengths); the helpers that compute with fractions of
    a second, angles or [Math.random()] itself are left out. *)

(** What a helper that can throw returns. *)
Inductive Completion (A : Type) :=
| Normal (a : A)
| Abrupt (e : Error).
Arguments Normal {A} a.
Arguments Abrupt {A} e.

(** ** range *)

(** [k++] on a number that holds an integer.  Numbers are doubles: up to
    [2^53] in magnitude every integer is one and [k + 1] is exact; beyond,
    only multiples of the spacing are, and [k + 1] is rounded to the
    nearest of them, to the one with the even significand when it lies
    halfway.  From [2^53] on the counter can stay where it is. *)
Definition increment (k : Z) : Z :=
  if (- 2 ^ 53 <=? k)%Z && (k <? 2 ^ 53)%Z then (k + 1)%Z
  else if (- 2 ^ 54 <=? k)%Z && (k <? 2 ^ 54)%Z then
    if Z.even (k / 2) then k else (k + 2)%Z
  else k.

(** How a call of [range] ends: with the list, or with the [RangeError]
    of a [push] on an array that has the greatest length an array can
    have, [2^32 - 1]. *)
Inductive RangeResult :=
| RangeReturns (list_ : list Z)
| RangeThrows.

(** [for (let k = start; k < end; k++) list.push(k)]; [fuel] bounds the
    number of times the condition is evaluated, [None] when it is used
    up. *)
Fixpoint range_from (fuel : nat) (k end_ : Z) (list_ : list Z)
    : option RangeResult :=
  match fuel with
  | O => None
  | S fuel =>
      if decide (k < end_)%Z then
        if (Z.of_nat (length list_) <? 2 ^ 32 - 1)%Z then
          range_from fuel (increment k) end_ (list_ ++ [k])
        else Some RangeThrows
      else Some (RangeReturns list_)
  end.

(** [range(start, end)] for integer arguments; with [end] left out (or
    [undefined]) the one argument is the end and the start is 0. *)
Definition range (fuel : nat) (start : Z) (end_ : option Z)
    : option RangeResult :=
  match end_ with
  | None => range_from fuel 0 start []
  | Some e => range_from fuel start e []
  end.

(** ** reduceToObject *)

(** The accumulator: its own properties, and whether an assignment to
    ["__proto__"] still reaches the setter inherited from
    [Object.prototype], as it does on the object created as [{}]. *)
Record Accumulator (V : Type) := {
  own : gmap string V;
  setter_in_reach : bool
}.
Arguments own {V} a.
Arguments setter_in_reach {V} a.

(** [acc[key] = item].  Under ["__proto__"] the inherited setter makes an
    object or [null] the prototype of [acc] and ignores any other value,
    creating no property; [keeps_setter item] tells whether the setter is
    still in reach afterwards, which it is not when [item] is [null] or an
    object that does not inherit from [Object.prototype].  Once it is out
    of reach, ["__proto__"] is a key like any other.  Every other key
    creates or overwrites a property: the items installed as prototypes are
    taken to hold plain data, so that they intercept no assignment. *)
Definition assign_property {V : Type} (keeps_setter : V -> bool)
    (key : string) (item : V) (acc : Accumulator V) : Accumulator V :=
  if String.eqb key "__proto__" then
    if setter_in_reach acc then
      {| own := own acc; setter_in_reach := keeps_setter item |}
    else
      {| own := <["__proto__" := item]> (own acc); setter_in_reach := false |}
  else
    {| own := <[key := item]> (own acc); setter_in_reach := setter_in_reach acc |}.

(** [list.reduce((acc, item, index) => { acc[keyFunc(item, index)] = item;
    return acc; }, acc)], from the item at position [index] on. *)
Fixpoint reduce_from {V : Type} (keeps_setter : V -> bool)
    (keyFunc : V -> nat -> string) (index : nat)
    (list_ : list V) (acc : Accumulator V) : Accumulator V :=
  match list_ with
  | [] => acc
  | item :: rest =>
      reduce_from keeps_setter keyFunc (S index) rest
        (assign_property keeps_setter (keyFunc item index) item acc)
  end.

(** [reduceToObject(list, keyFunc)]: the own properties of the object
    returned. *)
Definition reduceToObject {V : Type} (keeps_setter : V -> bool)
    (list_ : list V) (keyFunc : V -> nat -> string) : gmap string V :=
  own (reduce_from keeps_setter keyFunc 0 list_
         {| own := ∅; setter_in_reach := true |}).

(** The keys computed for the items of a list, in order. *)
Definition keys_of {V : Type} (keyFunc : V -> nat -> string) (list_ : list V)
    : list string :=
  imap (fun index item => keyFunc item index) list_.

(** ** getTiledProperty *)

Record TiledProperty (V : Type) := {
  prop_name : string;
  prop_value : V
}.
Arguments prop_name {V} t.
Arguments prop_value {V} t.

(** [object.properties]: missing, an array, or a value without [find]. *)
Inductive TiledProperties (V : Type) :=
| NoProperties
| PropertyArray (l : list (TiledProperty V))
| NotAnArray.
Arguments NoProperties {V}.
Arguments PropertyArray {V} l.
Arguments NotAnArray {V}.

(** [object.properties?.find?.((property) => property.name === name)?.value] *)
Definition getTiledProperty {V : Type} (properties : TiledProperties V)
    (name : string) : option V :=
  match properties with
  | PropertyArray l =>
      prop_value <$> List.find (fun property => String.eqb (prop_name property) name) l
  | NoProperties | NotAnArray => None
  end.

(** ** Tiles of an object *)

Record Tileset := {
  ts_name : string;
  firstgid : Z
}.

(** [let tileset; for (const ts of tilesets) if (ts.firstgid <= gid)
    tileset = ts;] from a given value of [tileset] on. *)
Definition scan_tilesets (gid : Z) (tilesets : list Tileset)
    (tileset : option Tileset) : option Tileset :=
  fold_left (fun tileset ts => if (firstgid ts <=? gid)%Z then Some ts else tileset)
            tilesets tileset.

(** [getObjectTileIndex(object, tilemap)], given [object.gid] and
    [tilemap.tilesets]; reading [firstgid] of [undefined] throws. *)
Definition getObjectTileIndex (gid : Z) (tilesets : list Tileset) : Completion Z :=
  match scan_tilesets gid tilesets None with
  | Some tileset => Normal (gid - firstgid tileset)%Z
  | None => Abrupt TypeError
  end.

Definition getObjectTileFrame (gid : Z) (tilesets : list Tileset)
    : Completion (string * Z) :=
  match scan_tilesets gid tilesets None with
  | Some tileset => Normal (ts_name tileset, (gid - firstgid tileset)%Z)
  | None => Abrupt TypeError
  end.

(** ** Directions *)

Definition oppositeDir (direction : string) : option string :=
  if String.eqb direction "left" then Some "right"
  else if String.eqb direction "right" then Some "left"
  else if String.eqb direction "up" then Some "down"
  else if String.eqb direction "down" then Some "up"
  else None.

Definition towardsDir (speed : Z) (direction : string) : Z :=
  if String.eqb direction "left" || String.eqb direction "up" then (- speed)%Z
  else speed.

(** What [table[key]] yields for an object literal whose values are
    strings: the string stored, a member inherited from [Object.prototype],
    or [undefined]. *)
Inductive Member :=
| MemberString (s : string)
| MemberInherited
| MemberUndefined.

Fixpoint own_member (table : list (string * string)) (key : string)
    : option string :=
  match table with
  | [] => None
  | (k, v) :: rest => if String.eqb k key then Some v else own_member rest key
  end.

Definition member (table : list (string * string)) (key : string) : Member :=
  match own_member table key with
  | Some v => MemberString v
  | None =>
      if bool_decide (key ∈ object_prototype_keys) then MemberInherited
      else MemberUndefined
  end.

Definition CLOCKWISE : list (string * string) :=
  [("left", "up"); ("up", "right"); ("right", "down"); ("down", "left")].

Definition clockwiseDirection (direction : string) : Member :=
  member CLOCKWISE direction.

Definition COUNTER_CLOCKWISE : list (string * string) :=
  [("right", "up"); ("up", "left"); ("left", "down"); ("down", "right")].

Definition counterClockwiseDirection (direction : string) : Member :=
  member COUNTER_CLOCKWISE direction.

Definition directions : list string := ["left"; "right"; "up"; "down"].

(** ** padCenter *)




(** ** randomChoices *)

(** [listCopy.splice(index, 1)]: the elements removed and the list left. *)
Definition splice_one {A : Type} (index : nat) (l : list A) : list A * list A :=
  match l !! index with
  | Some x => ([x], delete index l)
  | None => ([], l)
  end.

(** The loop of [randomChoices(list, count)].  [random_index k n] stands
    for the value of [Math.floor(Math.random() * n)] in the iteration [k];
    [todo] is [count - k]. *)
Fixpoint randomChoices_from {A : Type} (random_index : nat -> nat -> nat)
    (k todo : nat) (listCopy choices : list A) : list A :=
  match todo with
  | O => choices
  | S todo =>
      if Nat.ltb 0 (length listCopy) then
        let index := random_index k (length listCopy) in
        let '(removed, listCopy) := splice_one index listCopy in
        randomChoices_from random_index (S k) todo listCopy (choices ++ removed)
      else choices
  end.

Definition randomChoices {A : Type} (random_index : nat -> nat -> nat)
    (list_ : list A) (count : nat) : list A :=
  randomChoices_from random_index 0 count list_ [].

(** * The player of [scenes/board.js]

    The two states of the player's machine.  What their [execute] returns
    depends on the cursor keys only, read from [scene.keys] as four
    [isDown] flags; the velocity that [WalkingState] sets on the body is
    part of its result. *)

Record Keys := {
  right_isDown : bool;
  left_isDown : bool;
  up_isDown : bool;
  down_isDown : bool
}.

Definition PLAYER_VELOCITY : Z := 80.

(** [v *= PLAYER_DIAGONAL_SLOWDOWN], the constant being [0.7]: for the
    velocities [80] and [-80] the product is [56] and [-56], in double
    arithmetic as well. *)
Definition slow_down (v : Z) : Z := (v * 7 / 10)%Z.

(** [IdleState.execute] *)
Definition IdleState_execute (keys : Keys) : option string :=
  if right_isDown keys || left_isDown keys || up_isDown keys || down_isDown keys
  then Some "walk" else None.

(** [WalkingState.execute]: the velocity passed to [setVelocity], if it is
    called, and the value returned. *)
Definition WalkingState_execute (keys : Keys) : option (Z * Z) * option string :=
  let dx :=
    if right_isDown keys && negb (left_isDown keys) then PLAYER_VELOCITY
    else if left_isDown keys && negb (right_isDown keys) then (- PLAYER_VELOCITY)%Z
    else 0%Z in
  let dy :=
    if down_isDown keys && negb (up_isDown keys) then PLAYER_VELOCITY
    else if up_isDown keys && negb (down_isDown keys) then (- PLAYER_VELOCITY)%Z
    else 0%Z in
  let '(dx, dy) :=
    if negb (dx =? 0)%Z && negb (dy =? 0)%Z then (slow_down dx, slow_down dy)
    else (dx, dy) in
  if (dx =? 0)%Z && (dy =? 0)%Z then (None, Some "idle")
  else (Some (dx, dy), None).

(** The two state objects while the keys are held as [keys]; neither
    method calls [nextStep]. *)
Definition IdleState (keys : Keys) : State :=
  {| initialized := false; init := []; handleEntered := []; handleExited := [];
     execute := fun _ => ([], IdleState_execute keys) |}.

Definition WalkingState (keys : Keys) : State :=
  {| initialized := false; init := []; handleEntered := []; handleExited := [];
     execute := fun _ => ([], snd (WalkingState_execute keys)) |}.

(** [new StateMachine('idle', { idle: ..., walk: ... }, [scene, this])] *)
Definition Player_stateMachine (keys : Keys) (scene player : nat) : Machine :=
  new_StateMachine "idle"
    {[ "idle" := IdleState keys; "walk" := WalkingState keys ]}
    [VRef scene; VRef player].

(** [Player.update(time, delta)] *)
Definition Player_update (fuel : nat) (time delta : Z) (m : Machine)
    : option Result :=
  step fuel [time; delta] m.

(** One frame of the game: the update, then the transitions it started
    run to their end before the next frame. *)
Definition frame (fuel : nat) (m : Machine) (t : Z * Z) : option Machine :=
  match Player_update fuel (fst t) (snd t) m with
  | Some r => Some (settle (machine_of r))
  | None => None
  end.

Fixpoint frames (fuel : nat) (ts : list (Z * Z)) (m : Machine) : option Machine :=
  match ts with
  | [] => Some m
  | t :: ts =>
      match frame fuel m t with
      | Some m => frames fuel ts m
      | None => None
      end
  end.

(** Keys that are down but cancel each other: on each axis both keys are
    down or both are up, and some key is down. *)
Definition keys_cancel (keys : Keys) : Prop :=
  right_isDown keys = left_isDown keys /\
  up_isDown keys = down_isDown keys /\
  (right_isDown keys = true \/ up_isDown keys = true).

(** The player's machine at rest in the state [cur]. *)
Definition at_rest (keys : Keys) (cur : string) (m : Machine) : Prop :=
  state m = Some cur /\ transitioning m = false /\ jobs m = [] /\
  (exists s, possibleStates m !! "idle" = Some s /\
             execute s = execute (IdleState keys)) /\
  (exists s, possibleStates m !! "walk" = Some s /\
             execute s = execute (WalkingState keys)).

Definition other_state (cur : string) : string :=
  if String.eqb cur "idle" then "walk" else "idle".

Definition any_key_down (keys : Keys) : bool :=
  right_isDown keys || left_isDown keys || up_isDown keys || down_isDown keys.

(** * Properties *)

(** ** User code and the log *)

Lemma fold_nextStep (q : list Callback) (m : Machine) :
  fold_left (fun m c => nextStep c m) q m =
  set_nextStepCallbacks (nextStepCallbacks m ++ q)
    (set_log (log m ++ map (fun c => EvNextStep (cb_id c)) q) m).
Proof.
  revert m. induction q as [|c q IH]; intros m; simpl.
  - rewrite !app_nil_r. now destruct m.
  - rewrite IH. destruct m. unfold nextStep, record, set_nextStepCallbacks, set_log.
    simpl. now rewrite <- !app_assoc.
Qed.

Lemma call_eq (e : Event) (q : list Callback) (m : Machine) :
  call e q m =
  set_nextStepCallbacks (nextStepCallbacks m ++ q)
    (set_log (log m ++ e :: map (fun c => EvNextStep (cb_id c)) q) m).
Proof.
  unfold call. rewrite fold_nextStep. destruct m.
  unfold record, set_nextStepCallbacks, set_log. simpl.
  now rewrite <- app_assoc.
Qed.

Lemma calls_app (l1 l2 : list Event) : calls (l1 ++ l2) = calls l1 ++ calls l2.
Proof.
  induction l1 as [|e l1 IH]; simpl; [reflexivity|].
  destruct e; simpl; now rewrite IH.
Qed.

Lemma calls_nextStep (q : list Callback) :
  calls (map (fun c => EvNextStep (cb_id c)) q) = [].
Proof. induction q as [|c q IH]; simpl; auto. Qed.

Lemma calls_call (e : Event) (q : list Callback) (m : Machine) :
  calls (log (call e q m)) = calls (log m) ++ calls [e].
Proof.
  rewrite call_eq. simpl. rewrite calls_app.
  change (e :: map (fun c => EvNextStep (cb_id c)) q)
    with ([e] ++ map (fun c => EvNextStep (cb_id c)) q).
  now rewrite calls_app, calls_nextStep, app_nil_r.
Qed.

(** ** Keys and conditions *)

Lemma truthy_nonempty (k : string) : k <> "" -> truthy (Some k) = true.
Proof.
  intros Hk. simpl. destruct (String.eqb_spec k ""); [contradiction|reflexivity].
Qed.

Lemma in_possibleStates_registered (v : option string) (m : Machine) :
  registered (prop_key v) m -> in_possibleStates v m = true.
Proof.
  intros H. unfold in_possibleStates. now rewrite (bool_decide_eq_true_2 _ H).
Qed.

Lemma in_possibleStates_unknown (v : option string) (m : Machine) :
  possibleStates m !! prop_key v = None ->
  prop_key v ∉ object_prototype_keys ->
  in_possibleStates v m = false.
Proof.
  intros Hnone Hproto. unfold in_possibleStates, registered.
  rewrite Hnone. rewrite bool_decide_eq_false_2 by (intros [? ?]; discriminate).
  now rewrite bool_decide_eq_false_2.
Qed.

(** ** Evaluating a machine one stretch at a time *)

Ltac machine_cbn_in H :=
  cbn [initialState possibleStates stateArgs state nextStepCallbacks stateStack
       transitioning listeners jobs rejections resolved promises log
       set_possibleStates set_state set_nextStepCallbacks set_stateStack
       set_transitioning set_listeners set_jobs set_rejections set_resolved
       set_promises set_log record
       pc newState options preExit postExit preEnter postEnter enterArgs
       prop_key negb app fst snd
       initialized init handleEntered handleExited execute set_initialized] in H.

Ltac open_transition_in H :=
  unfold run_job, transition, transition_begin, resume, enter,
    call_handleExited, call_handleEntered, after_handleExited,
    after_handleEntered, mark_initialized, dispose in H.

Ltac use_hyps_in E :=
  repeat match goal with
  | H : state _ = _ |- _ => progress rewrite H in E
  | H : possibleStates _ !! _ = _ |- _ => progress rewrite H in E
  | H : jobs _ = _ |- _ => progress rewrite H in E
  | H : truthy _ = _ |- _ => progress rewrite H in E
  | H : in_possibleStates _ _ = _ |- _ => progress rewrite H in E
  | H : transitioning _ = _ |- _ => progress rewrite H in E
  | H : initialized _ = _ |- _ => progress rewrite H in E
  end.

Lemma machine_eta (m : Machine) :
  m = {| initialState := initialState m; possibleStates := possibleStates m;
         stateArgs := stateArgs m; state := state m;
         nextStepCallbacks := nextStepCallbacks m; stateStack := stateStack m;
         transitioning := transitioning m; listeners := listeners m;
         jobs := jobs m; rejections := rejections m; resolved := resolved m;
         promises := promises m; log := log m |}.
Proof. now destruct m. Qed.

(** Rewrites [E : x = t] into [E : x = {| ... |}], each field reduced. *)
Ltac flatten_in E :=
  let E' := fresh in
  pose proof (eq_trans E (machine_eta _)) as E'; clear E; rename E' into E;
  machine_cbn_in E.

Ltac norm_in E :=
  repeat (progress (open_transition_in E;
                    rewrite ?call_eq, ?lookup_alter_eq in E;
                    machine_cbn_in E; cbn [fmap option_fmap option_map] in E;
                    use_hyps_in E));
  flatten_in E; use_hyps_in E; machine_cbn_in E.

(** [stage m' E] introduces [E : m' = ...] for a local definition [m']. *)
Ltac stage m' E :=
  assert (E : m' = m') by reflexivity; unfold m' at 2 in E.

Lemma calls_hook (l : list Event) (e : Event) (q : list Callback) :
  calls (l ++ e :: map (fun c => EvNextStep (cb_id c)) q) = calls l ++ calls [e].
Proof.
  rewrite calls_app.
  change (e :: map (fun c => EvNextStep (cb_id c)) q)
    with ([e] ++ map (fun c => EvNextStep (cb_id c)) q).
  now rewrite calls_app, calls_nextStep, app_nil_r.
Qed.

(** ** The order of the hooks of one transition *)

(** C1 (as amended): a transition requested while no other transition is
    suspended, from a current state [A] registered under a non-empty key
    to a registered state [B] whose [initialized] flag tells whether its
    [init] has run (as it does for every state but the one that the first
    step entered, see [flag_records_init_reachable]), with all four
    callbacks supplied, runs one hook per stretch, in the order preExit,
    [A.handleExited], postExit, then ([B.init] only if [B] was never
    initialised: no call of [B.init] is in the log) and preEnter,
    [B.handleEntered], postEnter.  After each hook the transition is
    suspended on that hook's result, so the next one starts only when it is
    resumed; [state] is [A] through the exit hooks and [B] from the stretch
    that runs init and preEnter on. *)
Theorem transition_hook_order (m : Machine) (A B : string) (sA sB : State)
    (opts : Options) (f1 f2 f3 f4 : Callback) :
  state m = Some A -> A <> "" ->
  possibleStates m !! A = Some sA ->
  possibleStates m !! B = Some sB ->
  flag_records_init B m ->
  jobs m = [] ->
  preExit opts = Some f1 -> postExit opts = Some f2 ->
  preEnter opts = Some f3 -> postEnter opts = Some f4 ->
  let a := stateArgs m in
  let m1 := transition (Some B) opts m in
  let m2 := run_job m1 in
  let m3 := run_job m2 in
  let m4 := run_job m3 in
  let m5 := run_job m4 in
  let m6 := run_job m5 in
  let m7 := run_job m6 in
  (calls (log m1) = calls (log m) ++ [EvPreExit (cb_id f1) a] /\
   map pc (jobs m1) = [AfterPreExit] /\ state m1 = Some A /\
   transitioning m1 = true) /\
  (calls (log m2) = calls (log m1) ++ [EvHandleExited A a] /\
   map pc (jobs m2) = [AfterHandleExited] /\ state m2 = Some A) /\
  (calls (log m3) = calls (log m2) ++ [EvPostExit (cb_id f2) a] /\
   map pc (jobs m3) = [AfterPostExit] /\ state m3 = Some A) /\
  (calls (log m4) =
     calls (log m3)
     ++ (if Nat.eqb (count_events (is_init_of B) (log m)) 0
         then [EvInit B a] else [])
     ++ [EvPreEnter (cb_id f3) a] /\
   map pc (jobs m4) = [AfterPreEnter] /\ state m4 = Some B) /\
  (calls (log m5) =
     calls (log m4) ++ [EvHandleEntered B a (Some (enterArgs opts))] /\
   map pc (jobs m5) = [AfterHandleEntered] /\ state m5 = Some B) /\
  (calls (log m6) = calls (log m5) ++ [EvPostEnter (cb_id f4) a] /\
   map pc (jobs m6) = [AfterPostEnter] /\ state m6 = Some B /\
   transitioning m6 = true) /\
  (log m7 = log m6 /\ jobs m7 = [] /\ state m7 = Some B /\
   transitioning m7 = false /\ rejections m7 = rejections m).
Proof.
  intros HA HAne HsA HsB Hrec Hjobs H1 H2 H3 H4.
  destruct opts as [pe px pn po ea]; simpl in H1, H2, H3, H4; subst.
  pose proof (truthy_nonempty _ HAne) as HtA.
  assert (HinB : in_possibleStates (Some B) m = true)
    by (apply in_possibleStates_registered; simpl; unfold registered;
        rewrite HsB; eauto).
  intros a m1 m2 m3 m4 m5 m6 m7.
  assert (Hnever : (if Nat.eqb (count_events (is_init_of B) (log m)) 0
                    then [EvInit B a] else [])
                   = (if initialized sB then [] else [EvInit B a])).
  { specialize (Hrec sB HsB). destruct (initialized sB).
    - destruct (proj1 Hrec eq_refl); reflexivity.
    - destruct (count_events (is_init_of B) (log m)); [reflexivity|].
      assert (false = true) by (apply Hrec; lia). discriminate. }
  rewrite Hnever. clear Hnever Hrec.
  stage m1 E1. stage m2 E2. stage m3 E3. stage m4 E4. stage m5 E5.
  stage m6 E6. stage m7 E7.
  destruct (initialized sB) eqn:Hi;
    norm_in E1; rewrite E1 in E2; norm_in E2; rewrite E2 in E3; norm_in E3;
    rewrite E3 in E4; norm_in E4; rewrite E4 in E5; norm_in E5;
    rewrite E5 in E6; norm_in E6; rewrite E6 in E7; norm_in E7;
    clearbody m1 m2 m3 m4 m5 m6 m7; subst; subst a;
    cbn [log jobs state transitioning rejections stateArgs map pc enterArgs];
    rewrite ?calls_hook, ?calls_app; cbn [calls app];
    rewrite <- ?app_assoc; cbn [app]; rewrite ?HA;
    repeat split; reflexivity.
Qed.

(** C1, where the claim fails: from a current state registered under the
    empty string the guard [if (this.state)] is false, and a transition
    with all four callbacks runs none of preExit, handleExited, postExit. *)
Lemma exit_hooks_skipped_for_empty_key :
  let m := started "" empty_key_states in
  state m = Some "" /\ registered "" m /\ registered "B" m /\ jobs m = [] /\
  calls (log (settle (transition (Some "B") four_callbacks m))) =
    calls (log m) ++
    [EvInit "B" []; EvPreEnter 3 []; EvHandleEntered "B" [] (Some []);
     EvPostEnter 4 []].
Proof.
  repeat split; try (vm_compute; eauto; fail).
Qed.

Lemma transition_hook_order_witness :
  let m := started "A" idle_ab in
  flag_records_init "B" m /\
  calls (log (run_job (run_job (run_job (transition (Some "B") four_callbacks m))))) =
  calls (log (run_job (run_job (transition (Some "B") four_callbacks m)))) ++
  (if Nat.eqb (count_events (is_init_of "B") (log m)) 0
   then [EvInit "B" (stateArgs m)] else []) ++
  [EvPreEnter 3 (stateArgs m)].
Proof.
  assert (Hrec : flag_records_init "B" (started "A" idle_ab)).
  { intros s Hs. vm_compute in Hs. injection Hs as <-. vm_compute.
    split; [discriminate|]. intros H. inversion H. }
  split; [exact Hrec|].
  refine (proj1 (proj1 (proj2 (proj2 (proj2
    (transition_hook_order (started "A" idle_ab) "A" "B" new_State new_State
       four_callbacks (Cb 1 []) (Cb 2 []) (Cb 3 []) (Cb 4 [])
       _ _ _ _ Hrec _ _ _ _ _)))))); try reflexivity.
  discriminate.
Defined.

(** ** A transition runs to its end *)

Lemma same_frame_refl (m : Machine) : same_frame m m.
Proof. unfold same_frame. tauto. Qed.

Lemma same_frame_trans (m1 m2 m3 : Machine) :
  same_frame m1 m2 -> same_frame m2 m3 -> same_frame m1 m3.
Proof.
  unfold same_frame.
  intros (a1 & b1 & c1 & d1 & e1 & f1 & g1) (a2 & b2 & c2 & d2 & e2 & f2 & g2).
  repeat split; try congruence; intros Hk.
  - apply g1, g2, Hk.
  - apply g2, g1, Hk.
Qed.

Ltac machine_cbn :=
  cbn [initialState possibleStates stateArgs state nextStepCallbacks stateStack
       transitioning listeners jobs rejections resolved promises log
       set_possibleStates set_state set_nextStepCallbacks set_stateStack
       set_transitioning set_listeners set_jobs set_rejections set_resolved
       set_promises set_log record
       pc newState options preExit postExit preEnter postEnter enterArgs
       prop_key negb app fst snd
       initialized init handleEntered handleExited execute set_initialized].

Ltac open_transition :=
  unfold run_job, transition, transition_begin, resume, enter,
    call_handleExited, call_handleEntered, after_handleExited,
    after_handleEntered, mark_initialized, dispose.

Ltac use_hyps :=
  repeat match goal with
  | H : state _ = _ |- _ => progress rewrite H
  | H : possibleStates _ !! _ = _ |- _ => progress rewrite H
  | H : jobs _ = _ |- _ => progress rewrite H
  | H : truthy _ = _ |- _ => progress rewrite H
  | H : in_possibleStates _ _ = _ |- _ => progress rewrite H
  | H : transitioning _ = _ |- _ => progress rewrite H
  | H : initialized _ = _ |- _ => progress rewrite H
  end.

Ltac norm :=
  repeat (progress (open_transition;
                    rewrite ?call_eq, ?lookup_alter_eq;
                    machine_cbn; cbn [fmap option_fmap option_map];
                    use_hyps)).

Lemma enter_runnable (target : option string) (opts : Options) (m : Machine) :
  registered (prop_key target) m ->
  let m' := dispose target opts (enter target opts (set_jobs [] m)) in
  stretch_frame m m' /\
  exists t, runnable t m' /\ newState t = target /\ options t = opts /\
            remaining (pc t) <= 3.
Proof.
  intros [s Hs] m'. subst m'. unfold enter.
  machine_cbn. rewrite Hs.
  assert (Hreg : forall k,
    is_Some (alter set_initialized (prop_key target) (possibleStates m) !! k)
    <-> is_Some (possibleStates m !! k)) by (intros; apply lookup_alter_is_Some).
  destruct (initialized s) eqn:Hi, (preEnter opts) as [f|] eqn:Hf;
    unfold call_handleEntered, mark_initialized, dispose; rewrite ?call_eq;
    machine_cbn; rewrite ?lookup_alter_eq, ?Hs;
    cbn [fmap option_fmap option_map]; rewrite ?call_eq; machine_cbn;
    (split; [unfold stretch_frame, same_frame, registered; machine_cbn;
             repeat split; auto; apply Hreg |]);
    eexists; (split; [unfold runnable, registered; machine_cbn;
                      repeat split; intros; try reflexivity; try discriminate;
                      rewrite ?lookup_alter_eq, ?Hs; eauto |]);
    machine_cbn; repeat split; cbn; lia.
Qed.

Lemma stretch_frame_refl (m : Machine) : stretch_frame m m.
Proof. split; [apply same_frame_refl | reflexivity]. Qed.

Lemma stretch_frame_trans (m1 m2 m3 : Machine) :
  stretch_frame m1 m2 -> stretch_frame m2 m3 -> stretch_frame m1 m3.
Proof.
  intros [F1 R1] [F2 R2]. split; [eapply same_frame_trans; eauto | congruence].
Qed.

Ltac frame_case :=
  unfold stretch_frame, same_frame, registered; machine_cbn; tauto.

Ltac suspended_case H :=
  eexists;
  split; [ unfold runnable, registered; machine_cbn;
           repeat split; eauto; intros; try discriminate; cbn in *;
           try (apply H); try lia
         | machine_cbn; repeat split; cbn; lia ].

Lemma run_job_runnable (t : Task) (m : Machine) :
  runnable t m ->
  let m' := run_job m in
  stretch_frame m m' /\
  ((jobs m' = [] /\ state m' = newState t /\ transitioning m' = false) \/
   exists t', runnable t' m' /\ newState t' = newState t /\
              options t' = options t /\ remaining (pc t') < remaining (pc t)).
Proof.
  intros (Hjobs & Htarget & Hcur & Hstate) m'. subst m'.
  unfold run_job. rewrite Hjobs.
  destruct t as [p target opts]. cbn [pc newState options] in *.
  destruct p; unfold resume; cbn [pc newState options remaining] in *.
  - (* the exit hook of the current state *)
    destruct (Hcur eq_refl) as [cur Hc].
    unfold call_handleExited. machine_cbn. rewrite Hc. unfold dispose.
    rewrite call_eq. machine_cbn.
    split; [frame_case|]. right. suspended_case Hstate.
  - unfold after_handleExited. destruct (postExit opts) as [f|] eqn:Hf.
    + unfold dispose. rewrite call_eq. machine_cbn.
      split; [frame_case|]. right. suspended_case Hstate.
    + destruct (enter_runnable target opts m Htarget) as (HF & t' & Hr & Hn & Ho & Hlt).
      split; [exact HF|]. right. exists t'. split; [exact Hr|]. split; [exact Hn|]. split; [exact Ho|]. lia.
  - destruct (enter_runnable target opts m Htarget) as (HF & t' & Hr & Hn & Ho & Hlt).
    split; [exact HF|]. right. exists t'. split; [exact Hr|]. split; [exact Hn|]. split; [exact Ho|]. lia.
  - destruct Htarget as [s Hs].
    unfold call_handleEntered. machine_cbn. rewrite Hs. unfold dispose.
    rewrite call_eq. machine_cbn.
    split; [frame_case|]. right. suspended_case Hstate.
  - unfold after_handleEntered. destruct (postEnter opts) as [f|] eqn:Hf.
    + unfold dispose. rewrite call_eq. machine_cbn.
      split; [frame_case|]. right. suspended_case Hstate.
    + unfold dispose. machine_cbn.
      split; [frame_case|]. left. repeat split. apply Hstate. lia.
  - unfold dispose. machine_cbn.
    split; [frame_case|]. left. repeat split. apply Hstate. lia.
Qed.

Lemma run_jobs_idle (n : nat) (m : Machine) : jobs m = [] -> run_jobs n m = m.
Proof.
  induction n as [|n IH]; intros Hj; cbn [run_jobs]; [reflexivity|].
  unfold run_job. rewrite Hj. now apply IH.
Qed.

Lemma run_jobs_runnable (n : nat) (t : Task) (m : Machine) :
  runnable t m -> remaining (pc t) <= n ->
  let m' := run_jobs n m in
  stretch_frame m m' /\ jobs m' = [] /\ state m' = newState t /\
  transitioning m' = false.
Proof.
  revert t m. induction n as [|n IH]; intros t m Hr Hn.
  - destruct (pc t); cbn in Hn; lia.
  - cbn [run_jobs].
    destruct (run_job_runnable t m Hr) as [HF [(Hj & Hs & Ht) | (t' & Hr' & Hn' & _ & Hlt)]].
    + rewrite run_jobs_idle by exact Hj. auto.
    + destruct (IH t' (run_job m) Hr' ltac:(lia)) as (HF' & Hj & Hs & Ht).
      split; [eapply stretch_frame_trans; eauto|].
      split; [exact Hj|]. split; [congruence | exact Ht].
Qed.

(** A call of [transition] with a registered target, made while no other
    transition is suspended, suspends; once its hooks have settled the
    machine is in the target state and no longer transitioning. *)
Lemma transition_runnable (target : option string) (opts : Options) (m : Machine) :
  jobs m = [] ->
  registered (prop_key target) m ->
  (truthy (state m) = true -> registered (prop_key (state m)) m) ->
  let m' := transition target opts m in
  stretch_frame m m' /\
  exists t, runnable t m' /\ newState t = target /\ options t = opts.
Proof.
  intros Hj Ht Hcur m'. subst m'.
  unfold transition, transition_begin.
  rewrite (in_possibleStates_registered _ _ Ht). cbn [negb]. machine_cbn.
  destruct (truthy (state m)) eqn:Htr.
  - destruct (Hcur eq_refl) as [cur Hc].
    destruct (preExit opts) as [f|] eqn:Hf.
    + unfold dispose. rewrite call_eq. machine_cbn. rewrite Hj.
      split; [frame_case|].
      eexists.
      split; [ unfold runnable, registered; machine_cbn;
               repeat split; eauto; intros; try discriminate; cbn in *; lia
             | machine_cbn; repeat split ].
    + unfold call_handleExited. machine_cbn. rewrite Hc. unfold dispose.
      rewrite call_eq. machine_cbn. rewrite Hj.
      split; [frame_case|].
      eexists.
      split; [ unfold runnable, registered; machine_cbn;
               repeat split; eauto; intros; try discriminate; cbn in *; lia
             | machine_cbn; repeat split ].
  - pose proof (enter_runnable target opts (set_transitioning true m)) as He.
    replace (set_jobs [] (set_transitioning true m))
      with (set_transitioning true m) in He
      by (unfold set_jobs, set_transitioning; machine_cbn; now rewrite Hj).
    destruct (He Ht) as (HF & t' & Hr & Hn & Ho & _).
    split; [|eauto].
    eapply stretch_frame_trans; [|exact HF]. frame_case.
Qed.

Lemma transition_settles (target : option string) (opts : Options) (m : Machine) :
  jobs m = [] ->
  registered (prop_key target) m ->
  (truthy (state m) = true -> registered (prop_key (state m)) m) ->
  let m' := settle (transition target opts m) in
  stretch_frame m m' /\ jobs m' = [] /\ state m' = target /\
  transitioning m' = false.
Proof.
  intros Hj Ht Hcur m'.
  destruct (transition_runnable target opts m Hj Ht Hcur) as (HF & t & Hr & Hn & Ho).
  assert (Hlen : jobs (transition target opts m) = [t]) by apply Hr.
  subst m'. unfold settle. rewrite Hlen. cbn [length Nat.mul Nat.add].
  destruct (run_jobs_runnable 6 t _ Hr) as (HF' & Hj' & Hs' & Ht').
  - destruct (pc t); cbn; lia.
  - split; [eapply stretch_frame_trans; eauto|].
    split; [exact Hj'|]. split; [congruence | exact Ht'].
Qed.

(** ** The notification touches the emitter only *)

Lemma emitter_frame_refl (m : Machine) : emitter_frame m m.
Proof. unfold emitter_frame. tauto. Qed.

Lemma emitter_frame_trans (m1 m2 m3 : Machine) :
  emitter_frame m1 m2 -> emitter_frame m2 m3 -> emitter_frame m1 m3.
Proof. unfold emitter_frame. intuition congruence. Qed.

Lemma handler_frame (h : Handler) (d : nat) (m : Machine) :
  emitter_frame m (handler h d m).
Proof.
  unfold handler, resolve, off.
  destruct (Nat.eqb d (h_depth h)); [|apply emitter_frame_refl].
  destruct (existsb _ _); unfold emitter_frame; machine_cbn; tauto.
Qed.

Lemma fold_handler_frame (hs : list Handler) (d : nat) (m : Machine) :
  emitter_frame m (fold_left (fun m h => handler h d m) hs m).
Proof.
  revert m. induction hs as [|h hs IH]; intros m; cbn [fold_left].
  - apply emitter_frame_refl.
  - eapply emitter_frame_trans; [apply handler_frame | apply IH].
Qed.

Lemma emit_frame (d : nat) (m : Machine) : emitter_frame m (emit d m).
Proof.
  unfold emit. eapply emitter_frame_trans; [|apply fold_handler_frame].
  unfold emitter_frame. machine_cbn. tauto.
Qed.

Lemma runnable_emitter_frame (t : Task) (m m' : Machine) :
  emitter_frame m m' -> runnable t m -> runnable t m'.
Proof.
  unfold emitter_frame, runnable, registered.
  intros (_ & Hp & _ & Hs & _ & _ & _ & Hj & _) (H1 & H2 & H3 & H4).
  rewrite Hp, Hs, Hj. auto.
Qed.

(** ** The stack round trip *)

(** C6: from a machine in a registered state [a] with no transition under
    way, [pushTransition('B')] for a registered [B] followed, once it has
    settled, by [popTransition()] ends in state [a] again with the stack as
    it was before the push, hence empty if the push was made on an empty
    stack; and [popTransition()] on an empty stack throws. *)
Theorem push_pop_round_trip (m m0 : Machine) (a B : string) (args : Options) :
  state m = Some a -> registered a m -> registered B m -> jobs m = [] ->
  stateStack m0 = [] ->
  let m1 := settle (pushTransition (Some B) args m) in
  (state m1 = Some B /\ stateStack m1 = Some a :: stateStack m /\
   exists m2, popTransition m1 = Returned m2 /\
              state (settle m2) = Some a /\
              stateStack (settle m2) = stateStack m /\
              (stateStack m = [] -> stateStack (settle m2) = []) /\
              jobs (settle m2) = [] /\ transitioning (settle m2) = false) /\
  popTransition m0 = Thrown EmptyStack m0.
Proof.
  intros Hs Ha HB Hj H0 m1. split; [|unfold popTransition; now rewrite H0].
  set (mp := set_stateStack (Some a :: stateStack m) m).
  assert (Hpush : pushTransition (Some B) args m = transition (Some B) args mp)
    by (unfold pushTransition; now rewrite Hs).
  destruct (transition_settles (Some B) args mp) as ([HF HR] & Hj1 & Hs1 & Ht1);
    [exact Hj | exact HB | intros _; subst mp; machine_cbn; rewrite Hs; exact Ha |].
  fold (pushTransition (Some B) args m) in HF, HR, Hj1, Hs1, Ht1.
  rewrite <- Hpush in *. fold m1 in HF, HR, Hj1, Hs1, Ht1.
  destruct HF as (_ & _ & Hstack1 & _ & _ & _ & Hreg1).
  subst mp. cbn [stateStack set_stateStack] in Hstack1.
  split; [exact Hs1|]. split; [exact Hstack1|].
  unfold popTransition. rewrite Hstack1.
  set (mq := set_stateStack (stateStack m) m1).
  destruct (transition_runnable (Some a) default_options mq)
    as ([HF2 HR2] & t & Hr & Hn & Ho).
  { exact Hj1. }
  { apply (Hreg1 a) in Ha. exact Ha. }
  { intros _. subst mq. machine_cbn. rewrite Hs1. apply Hreg1. exact HB. }
  set (mt := transition (Some a) default_options mq) in *.
  eexists. split; [reflexivity|].
  pose proof (emit_frame (length (stateStack mt)) mt) as HE.
  pose proof (runnable_emitter_frame t _ _ HE Hr) as Hr'.
  set (m2 := emit (length (stateStack mt)) mt) in *.
  assert (Hlen : jobs m2 = [t]) by apply Hr'.
  unfold settle. rewrite Hlen. cbn [length Nat.mul Nat.add].
  destruct (run_jobs_runnable 6 t m2 Hr') as ([HF3 HR3] & Hj3 & Hs3 & Ht3).
  { destruct (pc t); cbn; lia. }
  assert (Hstack3 : stateStack (run_jobs 6 m2) = stateStack m).
  { destruct HF3 as (_ & _ & Hst3 & _). rewrite Hst3.
    destruct HE as (_ & _ & _ & _ & _ & Hst2 & _). rewrite Hst2.
    destruct HF2 as (_ & _ & Hst1 & _). rewrite Hst1. reflexivity. }
  split; [congruence|]. split; [exact Hstack3|].
  split; [intros He; now rewrite Hstack3|]. split; assumption.
Qed.

(** The same pair of calls made back to back, the pop while the push is
    still suspended: with the default options both transitions resume in
    turn and the machine ends in the state it started from. *)
Example pop_right_after_push :
  let m := started "A" idle_ab in
  let m2 := machine_of (popTransition
                          (pushTransition (Some "B") default_options m)) in
  length (jobs m2) = 2 /\ state (settle m2) = Some "A" /\
  stateStack (settle m2) = [] /\ transitioning (settle m2) = false.
Proof. vm_compute. repeat split. Qed.

Lemma push_pop_round_trip_witness :
  let m := started "A" idle_ab in
  state (settle (machine_of (popTransition
           (settle (pushTransition (Some "B") default_options m))))) = Some "A".
Proof.
  destruct (push_pop_round_trip (started "A" idle_ab) (started "A" idle_ab)
              "A" "B" default_options eq_refl (ex_intro _ _ eq_refl)
              (ex_intro _ _ eq_refl) eq_refl eq_refl)
    as [(_ & _ & m2 & Hpop & Hstate & _) _].
  cbv zeta. rewrite Hpop. exact Hstate.
Defined.

(** ** Names that are not registered *)

(** A name that is neither registered nor inherited from [Object.prototype]
    is refused before anything is changed: the call leaves a promise
    rejected with "Invalid state" and the machine as it was. *)
Lemma transition_unknown_name (v : option string) (opts : Options) (m : Machine) :
  possibleStates m !! prop_key v = None ->
  prop_key v ∉ object_prototype_keys ->
  transition v opts m =
    set_rejections (rejections m ++ [InvalidState (prop_key v)]) m.
Proof.
  intros Hnone Hproto. unfold transition, transition_begin.
  now rewrite (in_possibleStates_unknown _ _ Hnone Hproto).
Qed.

Lemma transition_unknown_name_state (v : option string) (opts : Options)
    (m : Machine) :
  possibleStates m !! prop_key v = None ->
  prop_key v ∉ object_prototype_keys ->
  state (transition v opts m) = state m /\
  transitioning (transition v opts m) = transitioning m /\
  log (transition v opts m) = log m /\
  jobs (transition v opts m) = jobs m.
Proof.
  intros Hnone Hproto. rewrite (transition_unknown_name _ _ _ Hnone Hproto).
  machine_cbn. tauto.
Qed.

(** C2, where the code departs from the claim: ["constructor"] is not a key
    registered in [possibleStates], yet [in] finds it on the prototype.
    The call is not refused: it sets [transitioning], runs the exit hook of
    the current state and suspends; when it resumes it assigns
    [state = "constructor"] and fails with a [TypeError] on the missing
    [init], leaving [transitioning] set for good. *)
Theorem inherited_name_passes_the_check :
  let m := started "A" idle_ab in
  let m1 := transition (Some "constructor") default_options m in
  (possibleStates m !! "constructor" = None /\ state m = Some "A" /\
   transitioning m = false) /\
  (rejections m1 = [] /\ transitioning m1 = true /\
   calls (log m1) = calls (log m) ++ [EvHandleExited "A" []]) /\
  (state (settle m1) = Some "constructor" /\
   transitioning (settle m1) = true /\
   rejections (settle m1) = [TypeError] /\ jobs (settle m1) = []).
Proof. vm_compute. repeat split. Qed.

(** The same name returned by [execute]: the step starts the transition
    and returns, and the failure shows up when the transition resumes. *)
Lemma inherited_name_from_execute :
  let m := started "A" {[ "A" := always (Some "constructor") ]} in
  state m = Some "A" /\ transitioning m = true /\ rejections m = [] /\
  state (settle m) = Some "constructor" /\
  transitioning (settle m) = true /\ rejections (settle m) = [TypeError].
Proof. vm_compute. repeat split. Qed.

(** ** init and the bootstrap *)

(** C4, where the code departs from the claim: the bootstrap of [step]
    calls [init] on the initial state without setting [initialized], so the
    first transition back into that state calls [init] a second time. *)
Theorem bootstrap_then_transition_runs_init_twice :
  let m1 := started "A" idle_ab in
  let m2 := settle (transition (Some "B") default_options m1) in
  let m3 := settle (transition (Some "A") default_options m2) in
  (initialized <$> possibleStates m1 !! "A") = Some false /\
  count_events (is_init_of "A") (log m1) = 1 /\
  count_events (is_init_of "A") (log m3) = 2 /\
  calls (log m3) =
    [EvInit "A" []; EvHandleEntered "A" [] None; EvExecute "A" [];
     EvHandleExited "A" []; EvInit "B" []; EvHandleEntered "B" [] (Some []);
     EvHandleExited "B" []; EvInit "A" []; EvHandleEntered "A" [] (Some [])].
Proof. vm_compute. repeat split. Qed.

Lemma filter_nextStep (p : Event -> bool) (q : list Callback) :
  (forall f, p (EvNextStep f) = false) ->
  List.filter p (map (fun c => EvNextStep (cb_id c)) q) = [].
Proof.
  intros Hp. induction q as [|c q IH]; cbn; [reflexivity|]. now rewrite Hp.
Qed.

(** Once the flag is set, entering the state does not call [init]. *)
Lemma enter_initialized (target : option string) (opts : Options) (m : Machine)
    (s : State) :
  possibleStates m !! prop_key target = Some s -> initialized s = true ->
  count_events (is_init_of (prop_key target))
    (log (fst (enter target opts m))) =
  count_events (is_init_of (prop_key target)) (log m).
Proof.
  intros Hs Hi. unfold enter, call_handleEntered. machine_cbn. rewrite Hs, Hi.
  destruct (preEnter opts) as [f|]; machine_cbn; rewrite ?Hs; rewrite call_eq;
    machine_cbn; unfold count_events; rewrite List.filter_app, length_app;
    cbn [List.filter is_init_of]; rewrite filter_nextStep by reflexivity;
    cbn; lia.
Qed.

(** ** pushAndWait and the depth it waits for *)

Lemma off_listeners (h : Handler) (m : Machine) (h' : Handler) :
  In h' (listeners (off h m)) <->
  In h' (listeners m) /\ h_promise h' <> h_promise h.
Proof.
  unfold off. machine_cbn. rewrite List.filter_In. unfold same_handler.
  destruct (Nat.eqb_spec (h_promise h) (h_promise h')); cbn; split;
    intros [? ?]; split; auto; try discriminate; congruence.
Qed.

Lemma resolve_resolved (p : nat) (m : Machine) (q : nat) :
  In q (resolved (resolve p m)) <-> q = p \/ In q (resolved m).
Proof.
  unfold resolve. destruct (existsb (Nat.eqb p) (resolved m)) eqn:He.
  - apply List.existsb_exists in He as (x & Hx & Hpx).
    apply Nat.eqb_eq in Hpx. subst x. split; [auto|]. intros [->|H]; auto.
  - machine_cbn. cbn [In]. split; intros [H|H]; auto.
Qed.

Lemma resolve_listeners (p : nat) (m : Machine) :
  listeners (resolve p m) = listeners m.
Proof. unfold resolve. destruct (existsb _ _); reflexivity. Qed.

Lemma off_resolved (h : Handler) (m : Machine) : resolved (off h m) = resolved m.
Proof. reflexivity. Qed.

(** A handler called with another depth, or a handler of another promise,
    leaves a pending promise pending. *)
Lemma handler_keeps_waiting (h : Handler) (n p d : nat) (m : Machine) :
  (h_promise h = p -> h_depth h = d) -> n <> d ->
  waiting p d m -> waiting p d (handler h n m).
Proof.
  intros Hh Hn (Hin & Huniq & Hres). unfold handler.
  destruct (Nat.eqb_spec n (h_depth h)) as [Heq|]; [|repeat split; auto].
  assert (Hp : h_promise h <> p) by (intros Hp; apply Hn; rewrite Heq; auto).
  repeat split.
  - rewrite resolve_listeners. apply off_listeners. split; [exact Hin|].
    cbn. congruence.
  - intros h'. rewrite resolve_listeners. intros Hh' Hp'.
    apply off_listeners in Hh' as [Hh' _]. auto.
  - rewrite resolve_resolved, off_resolved. intros [Hq|Hq]; auto.
Qed.

Lemma fold_handler_keeps_waiting (hs : list Handler) (n p d : nat) (m : Machine) :
  (forall h, In h hs -> h_promise h = p -> h_depth h = d) -> n <> d ->
  waiting p d m ->
  waiting p d (fold_left (fun m h => handler h n m) hs m).
Proof.
  revert m. induction hs as [|h hs IH]; intros m Hhs Hn Hw; cbn [fold_left].
  - exact Hw.
  - apply IH; [intros h' Hh'; apply Hhs; now right | exact Hn |].
    apply handler_keeps_waiting; auto. apply Hhs. now left.
Qed.

(** Settled and unsubscribed is final under further handlers. *)
Lemma handler_keeps_settled (h : Handler) (n p : nat) (m : Machine) :
  In p (resolved m) /\ ~ subscribed p m ->
  In p (resolved (handler h n m)) /\ ~ subscribed p (handler h n m).
Proof.
  intros [Hres Hsub]. unfold handler.
  destruct (Nat.eqb n (h_depth h)); [|auto]. split.
  - apply resolve_resolved. now right.
  - intros (h' & Hh' & Hp). rewrite resolve_listeners in Hh'.
    apply off_listeners in Hh' as [Hh' _]. apply Hsub. now exists h'.
Qed.

Lemma fold_handler_keeps_settled (hs : list Handler) (n p : nat) (m : Machine) :
  In p (resolved m) /\ ~ subscribed p m ->
  let m' := fold_left (fun m h => handler h n m) hs m in
  In p (resolved m') /\ ~ subscribed p m'.
Proof.
  revert m. induction hs as [|h hs IH]; intros m H; cbn [fold_left]; [exact H|].
  apply IH, handler_keeps_settled, H.
Qed.

Lemma fold_handler_settles (hs : list Handler) (p d : nat) (m : Machine) :
  In {| h_promise := p; h_depth := d |} hs ->
  let m' := fold_left (fun m h => handler h d m) hs m in
  In p (resolved m') /\ ~ subscribed p m'.
Proof.
  revert m. induction hs as [|h hs IH]; intros m Hin; [destruct Hin|].
  cbn [fold_left]. destruct Hin as [->|Hin]; [|now apply IH].
  apply fold_handler_keeps_settled. unfold handler. cbn [h_depth h_promise].
  rewrite Nat.eqb_refl. split.
  - apply resolve_resolved. now left.
  - intros (h' & Hh' & Hp). rewrite resolve_listeners in Hh'.
    apply off_listeners in Hh' as [_ Hne]. cbn in Hne. contradiction.
Qed.

Lemma quiet_refl (m : Machine) : quiet m m.
Proof. unfold quiet. tauto. Qed.

Lemma quiet_trans (m1 m2 m3 : Machine) : quiet m1 m2 -> quiet m2 m3 -> quiet m1 m3.
Proof. unfold quiet. intuition congruence. Qed.

Lemma call_quiet (e : Event) (q : list Callback) (m : Machine) :
  quiet m (call e q m).
Proof. rewrite call_eq. unfold quiet. machine_cbn. tauto. Qed.

Ltac quiet_cases :=
  repeat match goal with
  | |- context [match ?x with _ => _ end] => destruct x eqn:?
  end;
  cbn [fst]; rewrite ?call_eq; unfold quiet; machine_cbn; tauto.

Lemma call_handleEntered_quiet (target : option string) (opts : Options)
    (m : Machine) : quiet m (fst (call_handleEntered target opts m)).
Proof. unfold call_handleEntered. quiet_cases. Qed.

Lemma call_handleExited_quiet (m : Machine) : quiet m (fst (call_handleExited m)).
Proof. unfold call_handleExited. quiet_cases. Qed.

Lemma enter_quiet (target : option string) (opts : Options) (m : Machine) :
  quiet m (fst (enter target opts m)).
Proof.
  unfold enter, call_handleEntered, mark_initialized. machine_cbn. quiet_cases.
Qed.

Lemma after_handleExited_quiet (target : option string) (opts : Options)
    (m : Machine) : quiet m (fst (after_handleExited target opts m)).
Proof.
  unfold after_handleExited. destruct (postExit opts); [|apply enter_quiet].
  quiet_cases.
Qed.

Lemma after_handleEntered_quiet (opts : Options) (m : Machine) :
  quiet m (fst (after_handleEntered opts m)).
Proof. unfold after_handleEntered. quiet_cases. Qed.

Lemma dispose_quiet (target : option string) (opts : Options)
    (r : Machine * Outcome) : quiet (fst r) (dispose target opts r).
Proof. destruct r as [m []]; unfold dispose, quiet; machine_cbn; tauto. Qed.

Lemma transition_begin_quiet (target : option string) (opts : Options)
    (m : Machine) : quiet m (fst (transition_begin target opts m)).
Proof.
  unfold transition_begin.
  destruct (negb _); [apply quiet_refl|].
  assert (Hq : quiet m (set_transitioning true m))
    by (unfold quiet; machine_cbn; tauto).
  eapply quiet_trans; [exact Hq|].
  destruct (truthy _); [|apply enter_quiet].
  destruct (preExit opts); [apply call_quiet | apply call_handleExited_quiet].
Qed.

Lemma transition_quiet (target : option string) (opts : Options) (m : Machine) :
  quiet m (transition target opts m).
Proof.
  unfold transition.
  eapply quiet_trans; [apply transition_begin_quiet | apply dispose_quiet].
Qed.

Lemma resume_quiet (t : Task) (m : Machine) : quiet m (fst (resume t m)).
Proof.
  unfold resume. destruct (pc t);
    auto using call_handleExited_quiet, after_handleExited_quiet, enter_quiet,
      call_handleEntered_quiet, after_handleEntered_quiet.
  unfold quiet. machine_cbn. tauto.
Qed.

Lemma run_job_quiet (m : Machine) : quiet m (run_job m).
Proof.
  unfold run_job. destruct (jobs m) as [|t rest]; [apply quiet_refl|].
  eapply quiet_trans; [|apply dispose_quiet].
  eapply quiet_trans; [|apply resume_quiet].
  unfold quiet. machine_cbn. tauto.
Qed.

Lemma run_jobs_quiet (n : nat) (m : Machine) : quiet m (run_jobs n m).
Proof.
  revert m. induction n as [|n IH]; intros m; cbn [run_jobs].
  - apply quiet_refl.
  - eapply quiet_trans; [apply run_job_quiet | apply IH].
Qed.

Lemma waiting_quiet (p d : nat) (m m' : Machine) :
  quiet m m' -> waiting p d m -> waiting p d m'.
Proof.
  intros (_ & _ & _ & Hl & Hr & _) H. unfold waiting. now rewrite Hl, Hr.
Qed.

Lemma emit_keeps_waiting (n p d : nat) (m : Machine) :
  n <> d -> waiting p d m -> waiting p d (emit n m).
Proof.
  intros Hn Hw. unfold emit.
  apply fold_handler_keeps_waiting; [apply Hw | exact Hn |].
  unfold waiting in *. machine_cbn. exact Hw.
Qed.

Lemma emit_settles (p d : nat) (m : Machine) :
  waiting p d m -> In p (resolved (emit d m)) /\ ~ subscribed p (emit d m).
Proof. intros (Hin & _). unfold emit. now apply fold_handler_settles. Qed.

(** C7: the promise returned by [pushAndWait] is pending after the call,
    with its handler subscribed for the stack length read before the push.
    A "stack popped" notification with another depth leaves it pending; one
    with that depth resolves it and removes the handler.  Nothing else
    settles it: transitions, resumptions and further pushes leave it as it
    is, and a [popTransition] decides by the depth it leaves behind. *)
Theorem pushAndWait_resolves_at_captured_depth (m : Machine)
    (target : option string) (args : Options) :
  emitter_wf m ->
  let d := length (stateStack m) in
  let m1 := fst (pushAndWait target args m) in
  let p := snd (pushAndWait target args m) in
  waiting p d m1 /\
  (forall m2 n, waiting p d m2 ->
     (n <> d -> waiting p d (emit n m2)) /\
     (n = d -> In p (resolved (emit n m2)) /\ ~ subscribed p (emit n m2))) /\
  (forall m2 t o, waiting p d m2 ->
     waiting p d (transition t o m2) /\ waiting p d (run_job m2) /\
     waiting p d (pushTransition t o m2)) /\
  (forall m2 top rest, waiting p d m2 -> stateStack m2 = top :: rest ->
     let m3 := machine_of (popTransition m2) in
     (length rest <> d -> waiting p d m3) /\
     (length rest = d -> In p (resolved m3) /\ ~ subscribed p m3)).
Proof.
  intros [Hl Hr] d m1 p. split; [|split; [|split]].
  - subst m1 p d. unfold pushAndWait. cbn [fst snd]. unfold pushTransition.
    eapply waiting_quiet; [apply transition_quiet|].
    unfold waiting, on. machine_cbn. repeat split.
    + apply in_or_app. right. now left.
    + intros h Hh Hp. apply in_app_or in Hh as [Hh|[<-|[]]]; [|reflexivity].
      specialize (Hl _ Hh). lia.
    + intros Hp. specialize (Hr _ Hp). lia.
  - intros m2 n Hw. split; [intros Hn; now apply emit_keeps_waiting|].
    intros ->. now apply emit_settles.
  - intros m2 t o Hw. split; [|split].
    + apply (waiting_quiet _ _ _ _ (transition_quiet t o m2) Hw).
    + apply (waiting_quiet _ _ _ _ (run_job_quiet m2) Hw).
    + unfold pushTransition.
      eapply waiting_quiet; [apply transition_quiet|].
      unfold waiting in *. machine_cbn. exact Hw.
  - intros m2 top rest Hw Hst m3. subst m3. unfold popTransition. rewrite Hst.
    cbn [machine_of].
    set (mt := transition top default_options (set_stateStack rest m2)).
    assert (Hq : quiet (set_stateStack rest m2) mt) by apply transition_quiet.
    assert (Hwt : waiting p d mt).
    { eapply waiting_quiet; [exact Hq|]. unfold waiting in *. machine_cbn. exact Hw. }
    assert (Hlen : stateStack mt = rest).
    { destruct Hq as (_ & _ & Hs & _). rewrite Hs. reflexivity. }
    rewrite Hlen. split; [intros Hn; now apply emit_keeps_waiting|].
    intros <-. now apply emit_settles.
Qed.

Lemma pushAndWait_resolves_at_captured_depth_witness :
  waiting 0 0 (fst (pushAndWait (Some "B") default_options (started "A" idle_ab))).
Proof.
  exact (proj1 (pushAndWait_resolves_at_captured_depth (started "A" idle_ab)
                  (Some "B") default_options
                  (conj (fun h (H : In h []) => match H with end)
                        (fun p (H : In p []) => match H with end)))).
Defined.

(** [emitter_wf] holds of a new machine and is kept by every method, so it
    holds whenever [pushAndWait] can be called. *)
Lemma emitter_wf_new (initial : string) (states : gmap string State)
    (args : list Value) : emitter_wf (new_StateMachine initial states args).
Proof. split; intros x []. Qed.

Lemma emitter_wf_quiet (m m' : Machine) :
  quiet m m' -> emitter_wf m -> emitter_wf m'.
Proof.
  intros (_ & _ & _ & Hl & Hr & Hp) H. unfold emitter_wf.
  now rewrite Hl, Hr, Hp.
Qed.

Lemma emitter_wf_pushAndWait (target : option string) (args : Options)
    (m : Machine) :
  emitter_wf m -> emitter_wf (fst (pushAndWait target args m)).
Proof.
  intros [Hl Hr]. unfold pushAndWait, pushTransition. cbn [fst].
  eapply emitter_wf_quiet; [apply transition_quiet|].
  unfold emitter_wf, on. machine_cbn. split.
  - intros h Hh. apply in_app_or in Hh as [Hh|[<-|[]]]; [|cbn; lia].
    specialize (Hl _ Hh). lia.
  - intros p Hp. specialize (Hr _ Hp). lia.
Qed.

Lemma fold_handler_wf (hs : list Handler) (n : nat) (m : Machine) :
  (forall h, In h hs -> h_promise h < promises m) ->
  emitter_wf m ->
  emitter_wf (fold_left (fun m h => handler h n m) hs m).
Proof.
  revert m. induction hs as [|h hs IH]; intros m Hhs Hwf; cbn [fold_left];
    [exact Hwf|].
  destruct (handler_frame h n m) as (_ & _ & _ & _ & _ & _ & _ & _ & _ & Hp).
  apply IH; [intros h' Hh'; rewrite Hp; apply Hhs; now right|].
  destruct Hwf as [Hl Hr]. unfold handler.
  destruct (Nat.eqb n (h_depth h)); [|now split].
  split.
  - intros h'. rewrite resolve_listeners. intros Hh'.
    apply off_listeners in Hh' as [Hh' _].
    replace (promises (resolve (h_promise h) (off h m))) with (promises m)
      by (unfold resolve; destruct (existsb _ _); reflexivity).
    now apply Hl.
  - intros p Hq. apply resolve_resolved in Hq.
    replace (promises (resolve (h_promise h) (off h m))) with (promises m)
      by (unfold resolve; destruct (existsb _ _); reflexivity).
    destruct Hq as [->|Hq]; [apply Hhs; now left | now apply Hr].
Qed.

Lemma emitter_wf_emit (n : nat) (m : Machine) :
  emitter_wf m -> emitter_wf (emit n m).
Proof.
  intros Hwf. unfold emit. apply fold_handler_wf; [apply Hwf|].
  destruct Hwf as [Hl Hr]. split; machine_cbn; assumption.
Qed.

Lemma emitter_wf_popTransition (m : Machine) :
  emitter_wf m -> emitter_wf (machine_of (popTransition m)).
Proof.
  intros Hwf. unfold popTransition.
  destruct (stateStack m) as [|top rest]; [exact Hwf|]. cbn [machine_of].
  apply emitter_wf_emit.
  eapply emitter_wf_quiet; [apply transition_quiet|].
  destruct Hwf as [Hl Hr]. split; machine_cbn; assumption.
Qed.

(** The nested case: [pushAndWait('B')] at depth 0, a further push to [A]
    and its pop back (which reports depth 1) leave the promise pending; the
    pop that empties the stack resolves it. *)
Example nested_pop_does_not_resolve :
  let m1 := settle (fst (pushAndWait (Some "B") default_options
                           (started "A" idle_ab))) in
  let m2 := settle (pushTransition (Some "A") default_options m1) in
  let m3 := settle (machine_of (popTransition m2)) in
  let m4 := settle (machine_of (popTransition m3)) in
  (length (stateStack m2) = 2 /\ resolved m3 = [] /\
   length (listeners m3) = 1 /\ state m3 = Some "B") /\
  (resolved m4 = [0] /\ listeners m4 = [] /\ state m4 = Some "A" /\
   stateStack m4 = []).
Proof. vm_compute. repeat split. Qed.

(** ** popTransition and its notification *)

Lemma handler_log (h : Handler) (n : nat) (m : Machine) :
  exists ps, log (handler h n m) = log m ++ map EvResolve ps.
Proof.
  unfold handler, resolve, off. destruct (Nat.eqb n (h_depth h)).
  - destruct (existsb _ _); machine_cbn.
    + exists []. now rewrite app_nil_r.
    + now exists [h_promise h].
  - exists []. now rewrite app_nil_r.
Qed.

Lemma fold_handler_log (hs : list Handler) (n : nat) (m : Machine) :
  exists ps,
    log (fold_left (fun m h => handler h n m) hs m) = log m ++ map EvResolve ps.
Proof.
  revert m. induction hs as [|h hs IH]; intros m; cbn [fold_left].
  - exists []. now rewrite app_nil_r.
  - destruct (IH (handler h n m)) as [ps Hps].
    destruct (handler_log h n m) as [ps0 Hps0].
    exists (ps0 ++ ps). now rewrite Hps, Hps0, map_app, app_assoc.
Qed.

(** A notification logs itself and then the promises it settles. *)
Lemma emit_log (d : nat) (m : Machine) :
  exists ps, log (emit d m) = log m ++ EvEmit d :: map EvResolve ps.
Proof.
  unfold emit. destruct (fold_handler_log (listeners m) d (record (EvEmit d) m))
    as [ps Hps].
  exists ps. rewrite Hps. machine_cbn. now rewrite <- app_assoc.
Qed.

(** An accepted call of [transition] has not finished when it returns:
    every path from the check to the end crosses an [await]. *)
Lemma transition_accepted_is_pending (target : option string) (opts : Options)
    (m : Machine) :
  in_possibleStates target m = true ->
  transitioning (transition target opts m) = true.
Proof.
  intros Hin. unfold transition, transition_begin. rewrite Hin. cbn [negb].
  unfold enter, call_handleExited, call_handleEntered, mark_initialized.
  machine_cbn.
  repeat match goal with
  | |- context [match ?x with _ => _ end] => destruct x eqn:?
  end; unfold dispose; rewrite ?call_eq; machine_cbn;
  repeat match goal with
  | |- context [match ?x with _ => _ end] => destruct x eqn:?
  end; rewrite ?call_eq; machine_cbn; try reflexivity; try discriminate.
Qed.

(** C8, where the claim fails: [popTransition] does not wait for the
    transition it starts.  The notification is logged right after the exit
    hook of the state being left; the state is not reassigned yet and the
    enter hook of the popped state runs afterwards. *)
Lemma popTransition_notifies_before_transition_completes :
  let m := settle (pushTransition (Some "B") default_options
                     (started "A" idle_ab)) in
  let m' := machine_of (popTransition m) in
  (state m = Some "B" /\ stateStack m = [Some "A"] /\ jobs m = []) /\
  (calls (log m') = calls (log m) ++ [EvHandleExited "B" []; EvEmit 0] /\
   state m' = Some "B" /\ transitioning m' = true /\
   map pc (jobs m') = [AfterHandleExited]) /\
  (calls (log (settle m')) =
     calls (log m') ++ [EvInit "A" []; EvHandleEntered "A" [] (Some [])] /\
   state (settle m') = Some "A" /\ transitioning (settle m') = false).
Proof. vm_compute. repeat split. Qed.

(** C8 (as amended): a [popTransition] on a non-empty stack returns
    normally, leaves the stack without its top and emits the notification
    with that new depth as the last thing it does, as soon as the call of
    [transition] has returned: after the first stretch of that call and
    nothing more of it.  When the popped name does not pass the check,
    nothing of a transition has run.  When it does, the transition is still
    under way at that point ([transitioning] is set); if moreover the
    current state is registered under a non-empty key, that first stretch
    is the call of its [handleExited] alone: [state] is still the state
    being left and the rest of the transition is suspended. *)
Theorem popTransition_notifies_on_return (m : Machine) (top : option string)
    (rest : list (option string)) :
  stateStack m = top :: rest ->
  let mt := transition top default_options (set_stateStack rest m) in
  exists m',
    popTransition m = Returned m' /\ stateStack m' = rest /\
    (exists ps, log m' = log mt ++ EvEmit (length rest) :: map EvResolve ps) /\
    (in_possibleStates top m = false ->
     log mt = log m /\ state m' = state m /\
     transitioning m' = transitioning m /\ jobs m' = jobs m) /\
    (in_possibleStates top m = true -> transitioning m' = true) /\
    (forall cur sc,
       state m = Some cur -> cur <> "" -> possibleStates m !! cur = Some sc ->
       in_possibleStates top m = true ->
       calls (log mt) = calls (log m) ++ [EvHandleExited cur (stateArgs m)] /\
       state m' = Some cur /\
       jobs m' = jobs m ++ [{| pc := AfterHandleExited; newState := top;
                               options := default_options |}]).
Proof.
  intros Hst mt. unfold popTransition. rewrite Hst. fold mt.
  assert (Hq : quiet (set_stateStack rest m) mt) by apply transition_quiet.
  assert (Hlen : stateStack mt = rest).
  { destruct Hq as (_ & _ & Hs & _). now rewrite Hs. }
  rewrite Hlen.
  pose proof (emit_frame (length rest) mt)
    as (_ & _ & _ & Hes & _ & Hest & Het & Hej & _).
  eexists. split; [reflexivity|]. split; [now rewrite Hest|].
  split; [apply emit_log|]. split; [|split].
  - intros Hin. rewrite Hes, Het, Hej. subst mt.
    unfold transition, transition_begin.
    replace (in_possibleStates top (set_stateStack rest m))
      with (in_possibleStates top m) by reflexivity.
    rewrite Hin. cbn [negb]. unfold dispose. machine_cbn. auto.
  - intros Hin. rewrite Het. now apply transition_accepted_is_pending.
  - intros cur sc Hcur Hne Hsc Hin.
    pose proof (truthy_nonempty _ Hne) as Htr.
    rewrite Hes, Hej. subst mt.
    unfold transition, transition_begin.
    replace (in_possibleStates top (set_stateStack rest m))
      with (in_possibleStates top m) by reflexivity.
    rewrite Hin. cbn [negb]. machine_cbn. rewrite Hcur, Htr.
    cbn [preExit default_options]. unfold call_handleExited. machine_cbn.
    rewrite Hcur. machine_cbn. rewrite Hsc. unfold dispose. rewrite call_eq.
    machine_cbn. rewrite calls_hook. cbn [calls]. auto.
Qed.

Lemma popTransition_notifies_on_return_witness :
  exists m',
    popTransition (settle (pushTransition (Some "B") default_options
                             (started "A" idle_ab))) = Returned m' /\
    stateStack m' = [].
Proof.
  destruct (popTransition_notifies_on_return
              (settle (pushTransition (Some "B") default_options
                         (started "A" idle_ab)))
              (Some "A") [] eq_refl) as (m' & Hpop & Hst & _).
  exists m'. split; [exact Hpop | exact Hst].
Defined.

(** ** Pushing before the first step *)

Lemma null_not_inherited : "null" ∉ object_prototype_keys.
Proof.
  unfold object_prototype_keys. intros H.
  repeat (apply elem_of_cons in H as [H|H]; [discriminate|]).
  inversion H.
Qed.

(** C10, where the claim fails: [null] indexes [possibleStates] as the key
    ["null"].  With a state registered under that name the pop's
    [transition(null)] passes the check, no error is signalled and the
    machine ends with [state] back at [null]. *)
Lemma pop_of_null_accepted_when_null_key_registered :
  let m := new_StateMachine "B" null_key_states [] in
  let m1 := settle (pushTransition (Some "B") default_options m) in
  let m2 := settle (machine_of (popTransition m1)) in
  (state m = None /\ registered "B" m) /\
  (stateStack m1 = [None] /\ state m1 = Some "B") /\
  (rejections m2 = [] /\ state m2 = None /\ stateStack m2 = [] /\
   calls (log m2) =
     [EvInit "B" []; EvHandleEntered "B" [] (Some []); EvHandleExited "B" [];
      EvEmit 0; EvInit "null" []; EvHandleEntered "null" [] (Some [])]).
Proof.
  repeat split; try (vm_compute; eauto; fail).
Qed.

(** C10 (as amended): on a machine that has not stepped yet ([state] is
    [null]) and has no state registered under the name ["null"],
    [pushTransition] to a registered state pushes [null]; the matching
    [popTransition] returns normally, but the [transition(null)] it makes
    is rejected with "Invalid state null" and the machine stays in the
    pushed state, with the stack entry consumed. *)
Theorem pop_after_push_before_first_step (m : Machine) (B : string)
    (args : Options) :
  state m = None -> registered B m -> possibleStates m !! "null" = None ->
  jobs m = [] ->
  let m1 := pushTransition (Some B) args m in
  let m2 := settle m1 in
  stateStack m1 = None :: stateStack m /\
  (state m2 = Some B /\ stateStack m2 = None :: stateStack m /\
   rejections m2 = rejections m) /\
  exists m3,
    popTransition m2 = Returned m3 /\
    rejections m3 = rejections m ++ [InvalidState "null"] /\
    state m3 = Some B /\ stateStack m3 = stateStack m /\
    jobs m3 = [] /\ transitioning m3 = false.
Proof.
  intros Hs HB Hnull Hj m1 m2.
  set (mp := set_stateStack (None :: stateStack m) m).
  assert (Hpush : m1 = transition (Some B) args mp)
    by (subst m1 mp; unfold pushTransition; now rewrite Hs).
  assert (Hst1 : stateStack m1 = None :: stateStack m).
  { rewrite Hpush. destruct (transition_quiet (Some B) args mp) as (_ & _ & H & _).
    rewrite H. reflexivity. }
  split; [exact Hst1|].
  destruct (transition_settles (Some B) args mp) as ([HF HR] & Hj2 & Hs2 & Ht2);
    [exact Hj | exact HB | subst mp; machine_cbn; rewrite Hs; discriminate |].
  rewrite <- Hpush in HF, HR, Hj2, Hs2, Ht2. fold m2 in HF, HR, Hj2, Hs2, Ht2.
  destruct HF as (_ & _ & Hst2 & _ & _ & _ & Hreg2).
  subst mp. cbn [stateStack set_stateStack rejections set_rejections] in Hst2, HR.
  split; [repeat split; assumption|].
  assert (Hnull2 : possibleStates m2 !! "null" = None).
  { destruct (possibleStates m2 !! "null") eqn:Hl; [|reflexivity].
    assert (Hr : registered "null" m2) by (unfold registered; rewrite Hl; eauto).
    apply Hreg2 in Hr. destruct Hr as [s0 Hr].
    cbn [possibleStates set_stateStack] in Hr. congruence. }
  unfold popTransition. rewrite Hst2.
  rewrite (transition_unknown_name None default_options
             (set_stateStack (stateStack m) m2) Hnull2 null_not_inherited).
  eexists. split; [reflexivity|].
  match goal with |- context [emit ?d ?x] =>
    pose proof (emit_frame d x) as (_ & _ & _ & Hes & _ & Hest & Het & Hej & Her & _)
  end.
  rewrite Her, Hes, Hest, Hej, Het. machine_cbn.
  repeat split; try assumption. now rewrite HR.
Qed.

Lemma pop_after_push_before_first_step_witness :
  stateStack (pushTransition (Some "B") default_options
                (new_StateMachine "A" idle_ab [])) = [None].
Proof.
  exact (proj1 (pop_after_push_before_first_step
                  (new_StateMachine "A" idle_ab []) "B" default_options
                  eq_refl (ex_intro _ _ eq_refl) eq_refl eq_refl)).
Defined.

(** ** Draining the deferred callbacks *)

Lemma user_frame_refl (m : Machine) : user_frame m m.
Proof. unfold user_frame. tauto. Qed.

Lemma user_frame_trans (m1 m2 m3 : Machine) :
  user_frame m1 m2 -> user_frame m2 m3 -> user_frame m1 m3.
Proof. unfold user_frame. intuition congruence. Qed.

Lemma call_user_frame (e : Event) (q : list Callback) (m : Machine) :
  user_frame m (call e q m).
Proof. rewrite call_eq. unfold user_frame. machine_cbn. tauto. Qed.

Lemma drain_from_frame (stepArgs : list Z) (i : nat) (m : Machine) :
  user_frame m (drain_from stepArgs i m).
Proof.
  funelim (drain_from stepArgs i m).
  - eapply user_frame_trans; [|eassumption]. apply call_user_frame.
  - apply user_frame_refl.
Qed.

Lemma call_queue (e : Event) (q : list Callback) (m : Machine) :
  nextStepCallbacks (call e q m) = nextStepCallbacks m ++ q.
Proof. now rewrite call_eq. Qed.

(** The log of a drain: the invocations in [drain_order], each with the
    context arguments followed by the step arguments. *)
Lemma drain_from_log (stepArgs : list Z) (i : nat) (m : Machine) :
  calls (log (drain_from stepArgs i m)) =
  calls (log m) ++
  map (invocation m stepArgs) (drain_order (drop i (nextStepCallbacks m))).
Proof.
  funelim (drain_from stepArgs i m).
  - match goal with IH : calls _ = _ |- _ => rewrite IH end.
    rewrite calls_call, call_queue. cbn [calls].
    pose proof (lookup_lt_Some _ _ _ Hget) as Hlt.
    rewrite drop_app_le; [|lia].
    rewrite (drop_S _ _ _ Hget). simp drain_order. cbn [map].
    rewrite <- app_assoc. cbn [app]. unfold invocation, step_args.
    destruct (call_user_frame (EvCallback (cb_id callback)
                (stateArgs m ++ map VNum stepArgs)) (cb_queues callback) m)
      as (_ & _ & Ha & _).
    now rewrite Ha.
  - match goal with E : _ !! _ = None |- _ =>
      pose proof (proj1 (lookup_ge_None _ _) E) as Hge end.
    rewrite drop_ge; [|exact Hge].
    simp drain_order. cbn. now rewrite app_nil_r.
Qed.

(** The drain visits the queue level by level: first the callbacks queued
    when it starts, in the order they were queued, then the ones those
    queued, and so on. *)
Lemma drain_order_app (q x : list Callback) :
  drain_order (q ++ x) = q ++ drain_order (x ++ flat_map cb_queues q).
Proof.
  revert x. induction q as [|c q IH]; intros x; cbn [app flat_map].
  - now rewrite app_nil_r.
  - simp drain_order. rewrite <- app_assoc, IH. now rewrite <- app_assoc.
Qed.

Lemma drain_order_levels (q : list Callback) :
  drain_order q = q ++ drain_order (flat_map cb_queues q).
Proof.
  rewrite <- (app_nil_r q) at 1. rewrite drain_order_app. reflexivity.
Qed.

Lemma drain_callbacks_frame (stepArgs : list Z) (m : Machine) :
  user_frame m (drain_callbacks stepArgs m).
Proof.
  unfold drain_callbacks. destruct (Nat.ltb _ _); [|apply user_frame_refl].
  eapply user_frame_trans; [apply drain_from_frame|].
  unfold user_frame. machine_cbn. tauto.
Qed.


Lemma drain_callbacks_log (stepArgs : list Z) (m : Machine) :
  calls (log (drain_callbacks stepArgs m)) =
  calls (log m) ++
  map (invocation m stepArgs) (nextStepCallbacks m) ++
  map (invocation m stepArgs)
      (drain_order (flat_map cb_queues (nextStepCallbacks m))).
Proof.
  unfold drain_callbacks.
  destruct (nextStepCallbacks m) as [|c q] eqn:Hq.
  - cbn. simp drain_order. cbn. now rewrite app_nil_r.
  - cbn [length Nat.ltb Nat.leb]. machine_cbn.
    rewrite drain_from_log, drop_0, Hq.
    now rewrite (drain_order_levels (c :: q)), map_app.
Qed.

(** ** Code that invokes no deferred callback *)












(** ** The execute loop *)

Lemma in_possibleStates_user_frame (v : option string) (m m' : Machine) :
  possibleStates m' = possibleStates m ->
  in_possibleStates v m' = in_possibleStates v m.
Proof. intros H. unfold in_possibleStates, registered. now rewrite H. Qed.

Lemma execute_loop_transitioning (fuel : nat) (stepArgs : list Z) (m : Machine) :
  transitioning m = true ->
  execute_loop (S fuel) stepArgs m = Some (Returned m).
Proof. intros H. cbn [execute_loop]. now rewrite H. Qed.


(** [execute] returns nothing (or another falsy value): the loop stops. *)
Lemma execute_loop_stays (fuel : nat) (stepArgs : list Z) (m : Machine)
    (cur : State) (queued : list Callback) (next : option string) :
  transitioning m = false ->
  possibleStates m !! prop_key (state m) = Some cur ->
  execute cur (step_args m stepArgs) = (queued, next) ->
  truthy next = false ->
  execute_loop (S fuel) stepArgs m =
    Some (Returned (call (EvExecute (prop_key (state m)) (step_args m stepArgs))
                         queued m)).
Proof.
  intros Ht Hs He Hn. cbn [execute_loop]. now rewrite Ht, Hs, He, Hn.
Qed.

(** [execute] returns a name that passes the check: the transition starts,
    [transitioning] is set, and the next test of the loop condition ends
    the loop. *)
Lemma execute_loop_starts_transition (fuel : nat) (stepArgs : list Z)
    (m : Machine) (cur : State) (queued : list Callback) (next : option string) :
  transitioning m = false ->
  possibleStates m !! prop_key (state m) = Some cur ->
  execute cur (step_args m stepArgs) = (queued, next) ->
  truthy next = true ->
  in_possibleStates next m = true ->
  execute_loop (S (S fuel)) stepArgs m =
    Some (Returned
            (transition next (step_options stepArgs)
               (call (EvExecute (prop_key (state m)) (step_args m stepArgs))
                     queued m))).
Proof.
  intros Ht Hs He Hn Hin.
  change (execute_loop (S (S fuel)) stepArgs m) with
    (if transitioning m then Some (Returned m)
     else match possibleStates m !! prop_key (state m) with
          | None => Some (Thrown TypeError m)
          | Some cur =>
              let '(queued, next) := execute cur (step_args m stepArgs) in
              let m := call (EvExecute (prop_key (state m)) (step_args m stepArgs))
                            queued m in
              if truthy next then
                execute_loop (S fuel) stepArgs
                  (transition next (step_options stepArgs) m)
              else Some (Returned m)
          end).
  rewrite Ht, Hs, He, Hn. apply execute_loop_transitioning.
  apply transition_accepted_is_pending.
  rewrite <- Hin. apply in_possibleStates_user_frame.
  now rewrite call_eq.
Qed.

(** [execute] returns a name that fails the check: the rejected promise is
    dropped, nothing has changed that [execute] looks at, and the loop
    calls [execute] again; it has no last iteration. *)
Lemma execute_loop_rejected (fuel : nat) (stepArgs : list Z) (m : Machine)
    (cur : State) (queued : list Callback) (next : option string) :
  transitioning m = false ->
  possibleStates m !! prop_key (state m) = Some cur ->
  execute cur (step_args m stepArgs) = (queued, next) ->
  truthy next = true ->
  in_possibleStates next m = false ->
  execute_loop fuel stepArgs m = None.
Proof.
  revert m. induction fuel as [|fuel IH]; intros m Ht Hs He Hn Hin;
    [reflexivity|].
  cbn [execute_loop]. rewrite Ht, Hs, He, Hn.
  set (m1 := call _ queued m).
  assert (Hf : user_frame m m1) by apply call_user_frame.
  destruct Hf as (_ & Hp & Ha & Hst & _ & Htr & _).
  assert (Hin1 : in_possibleStates next m1 = false)
    by (rewrite <- Hin; now apply in_possibleStates_user_frame).
  unfold transition, transition_begin. rewrite Hin1. cbn [negb dispose].
  apply IH; machine_cbn.
  - congruence.
  - now rewrite Hp, Hst.
  - unfold step_args in *. machine_cbn. now rewrite Ha.
  - exact Hn.
  - rewrite <- Hin. now apply in_possibleStates_user_frame.
Qed.


(** A step leaves the emitter, the promises and the stack alone. *)
Lemma user_frame_quiet (m m' : Machine) : user_frame m m' -> quiet m m'.
Proof. unfold user_frame, quiet. tauto. Qed.

Lemma execute_loop_quiet (fuel : nat) (stepArgs : list Z) (m : Machine)
    (r : Result) :
  execute_loop fuel stepArgs m = Some r -> quiet m (machine_of r).
Proof.
  revert m. induction fuel as [|fuel IH]; intros m; [discriminate|].
  cbn [execute_loop]. destruct (transitioning m).
  { intros [= <-]. apply quiet_refl. }
  destruct (possibleStates m !! prop_key (state m)) as [cur|].
  2: { intros [= <-]. apply quiet_refl. }
  destruct (execute cur (step_args m stepArgs)) as [queued next].
  destruct (truthy next).
  - intros Hr. apply IH in Hr.
    eapply quiet_trans; [|exact Hr].
    eapply quiet_trans; [apply call_quiet | apply transition_quiet].
  - intros [= <-]. apply call_quiet.
Qed.

Lemma step_quiet (fuel : nat) (stepArgs : list Z) (m : Machine) (r : Result) :
  step fuel stepArgs m = Some r -> quiet m (machine_of r).
Proof.
  unfold step, bootstrap. destruct (state m).
  - intros Hr. apply execute_loop_quiet in Hr.
    eapply quiet_trans; [|exact Hr].
    apply user_frame_quiet, drain_callbacks_frame.
  - machine_cbn. destruct (possibleStates m !! initialState m) as [s|].
    + intros Hr. apply execute_loop_quiet in Hr.
      eapply quiet_trans; [|exact Hr].
      eapply quiet_trans; [|apply user_frame_quiet, drain_callbacks_frame].
      eapply quiet_trans; [|apply call_quiet].
      eapply quiet_trans; [|apply call_quiet].
      unfold quiet. machine_cbn. tauto.
    + intros [= <-]. unfold quiet. machine_cbn. tauto.
Qed.

Lemma emitter_wf_step (fuel : nat) (stepArgs : list Z) (m : Machine)
    (r : Result) :
  step fuel stepArgs m = Some r -> emitter_wf m -> emitter_wf (machine_of r).
Proof. intros Hr. apply emitter_wf_quiet. now apply step_quiet in Hr. Qed.




(** ** Deferred callbacks *)

Lemma step_after_bootstrap (fuel : nat) (stepArgs : list Z) (m : Machine) :
  state m <> None ->
  step fuel stepArgs m = execute_loop fuel stepArgs (drain_callbacks stepArgs m).
Proof.
  intros Hs. unfold step, bootstrap. destruct (state m); [reflexivity|].
  contradiction.
Qed.


(** The same for a callback queued by the initial state's [init] during
    the first step: the drain follows the bootstrap. *)
Lemma callback_queued_by_bootstrap_runs_in_first_step :
  let s := {| initialized := false; init := [Cb 1 []]; handleEntered := [];
              handleExited := []; execute := fun _ => ([], None) |} in
  let m := new_StateMachine "A" {[ "A" := s ]} [] in
  exists m',
    step 1 [7%Z] m = Some (Returned m') /\
    log m' = [EvInit "A" []; EvNextStep 1; EvHandleEntered "A" [] None;
              EvCallback 1 [VNum 7]; EvExecute "A" [VNum 7]].
Proof. cbv zeta. eexists. split; vm_compute; reflexivity. Qed.



(** A callback queued by [execute] is invoked by the next step and not by
    the one that queued it. *)
Example callback_queued_by_execute :
  let s := {| initialized := false; init := []; handleEntered := [];
              handleExited := []; execute := fun _ => ([Cb 9 []], None) |} in
  let m1 := started "A" {[ "A" := s ]} in
  exists m2,
    step 1 [5%Z] m1 = Some (Returned m2) /\
    log m1 = [EvInit "A" []; EvHandleEntered "A" [] None; EvExecute "A" [];
              EvNextStep 9] /\
    log m2 = log m1 ++ [EvCallback 9 [VNum 5]; EvExecute "A" [VNum 5];
                        EvNextStep 9].
Proof.
  cbv zeta. eexists. split; [vm_compute; reflexivity|].
  split; vm_compute; reflexivity.
Qed.

(** ** A state name returned by execute *)

(** A transition with the default options out of a state with a non-empty
    key: the call runs the exit hook and suspends; the first resumption
    reassigns [state] and runs [init] (flag permitting) and the enter hook;
    the second clears [transitioning]. *)
Lemma default_transition_stretches (x : Machine) (A B : string) (sA sB : State) :
  state x = Some A -> A <> "" ->
  possibleStates x !! A = Some sA -> possibleStates x !! B = Some sB ->
  jobs x = [] ->
  let x1 := transition (Some B) default_options x in
  let x2 := settle x1 in
  (calls (log x1) = calls (log x) ++ [EvHandleExited A (stateArgs x)] /\
   state x1 = Some A /\ transitioning x1 = true /\
   jobs x1 = [{| pc := AfterHandleExited; newState := Some B;
                 options := default_options |}]) /\
  (calls (log x2) =
     calls (log x1) ++ (if initialized sB then [] else [EvInit B (stateArgs x)])
                    ++ [EvHandleEntered B (stateArgs x) (Some [])] /\
   state x2 = Some B /\ transitioning x2 = false /\ jobs x2 = [] /\
   stateArgs x2 = stateArgs x /\
   exists sB', possibleStates x2 !! B = Some sB' /\ execute sB' = execute sB).
Proof.
  intros HA HAne HsA HsB Hjobs.
  pose proof (truthy_nonempty _ HAne) as HtA.
  assert (HinB : in_possibleStates (Some B) x = true)
    by (apply in_possibleStates_registered; simpl; unfold registered;
        rewrite HsB; eauto).
  intros x1 x2.
  set (y2 := run_job x1). set (y3 := run_job y2).
  stage x1 E1. stage y2 F2. stage y3 F3.
  destruct (initialized sB) eqn:Hi;
    norm_in E1; rewrite E1 in F2; norm_in F2; rewrite F2 in F3; norm_in F3;
    (assert (Hj1 : length (jobs x1) = 1) by (rewrite E1; reflexivity));
    (assert (E2 : x2 = y3)
       by (unfold x2, settle; rewrite Hj1;
           change (run_jobs (6 * 1) x1) with (run_jobs 4 y3);
           apply run_jobs_idle; rewrite F3; reflexivity));
    rewrite E2; clearbody x1 y2 y3; clear E2 Hj1; subst;
    cbn [log jobs state transitioning stateArgs possibleStates];
    rewrite ?calls_hook, ?calls_app; cbn [calls app];
    rewrite <- ?app_assoc; cbn [app]; rewrite ?HA;
    (split; [repeat split; reflexivity|]);
    (split; [reflexivity|]); (split; [reflexivity|]);
    (split; [reflexivity|]); (split; [reflexivity|]);
    (split; [reflexivity|]).
  - exists sB. split; [exact HsB | reflexivity].
  - exists (set_initialized sB). rewrite lookup_alter_eq, HsB. split; reflexivity.
Qed.

(** C3, where the code departs from the claim: [A.execute] returns ['B']
    and [B.execute] returns nothing, yet when the first [step()] returns
    the state is still [A] and [execute] has been called once, on [A].
    The loop of [step] is written to go on to the new state ("transitions
    happen instantly ... loop through until we don't transition"), but
    [transition] is suspended at its first [await] with [transitioning]
    set, which ends the loop.  The transition completes after the step,
    and [B.execute] is first called by the next one. *)
Theorem step_returns_before_transition_completes :
  let m := new_StateMachine "A" a_then_b [] in
  exists m1 m3,
    step 2 [] m = Some (Returned m1) /\
    (state m1 = Some "A" /\ transitioning m1 = true /\
     count_events is_execute (log m1) = 1 /\
     calls (log m1) =
       [EvInit "A" []; EvHandleEntered "A" [] None; EvExecute "A" [];
        EvHandleExited "A" []]) /\
    (state (settle m1) = Some "B" /\
     calls (log (settle m1)) =
       calls (log m1) ++ [EvInit "B" []; EvHandleEntered "B" [] (Some [])]) /\
    step 2 [] (settle m1) = Some (Returned m3) /\
    calls (log m3) = calls (log (settle m1)) ++ [EvExecute "B" []].
Proof.
  cbv zeta. eexists. eexists. split; [vm_compute; reflexivity|].
  split; [repeat split; vm_compute; reflexivity|].
  split; [split; vm_compute; reflexivity|].
  split; vm_compute; reflexivity.
Qed.

(** What a step does in general when [execute] of the current state [A]
    returns the name of a registered state [B]: it starts the transition
    and returns, having called [A.execute] and [A.handleExited], set
    [transitioning] and left one transition suspended, with [state] still
    [A].  When the suspended transition has run to its end the state is
    [B]; a step made after that calls [B.execute], and if that returns
    nothing the machine stays in [B]. *)
Lemma step_starts_transition_and_returns (m : Machine) (A B : string)
    (sA sB : State) (stepArgs : list Z) (queued : list Callback) :
  state m = Some A -> A <> "" -> B <> "" ->
  transitioning m = false -> jobs m = [] ->
  possibleStates m !! A = Some sA -> possibleStates m !! B = Some sB ->
  execute sA (step_args m stepArgs) = (queued, Some B) ->
  let md := drain_callbacks stepArgs m in
  let a := stateArgs m in
  exists m1,
    (forall fuel, step (S (S fuel)) stepArgs m = Some (Returned m1)) /\
    (calls (log m1) =
       calls (log md) ++ [EvExecute A (step_args m stepArgs); EvHandleExited A a] /\
     state m1 = Some A /\ transitioning m1 = true /\
     jobs m1 = [{| pc := AfterHandleExited; newState := Some B;
                   options := default_options |}]) /\
    let m2 := settle m1 in
    (calls (log m2) =
       calls (log m1) ++ (if initialized sB then [] else [EvInit B a])
                      ++ [EvHandleEntered B a (Some [])] /\
     state m2 = Some B /\ transitioning m2 = false /\ jobs m2 = []) /\
    (forall stepArgs' queued',
       execute sB (step_args m stepArgs') = (queued', None) ->
       exists m3,
         (forall fuel, step (S fuel) stepArgs' m2 = Some (Returned m3)) /\
         calls (log m3) =
           calls (log (drain_callbacks stepArgs' m2))
           ++ [EvExecute B (step_args m stepArgs')] /\
         state m3 = Some B /\ transitioning m3 = false).
Proof.
  intros HA HAne HBne Ht Hj HsA HsB He md a.
  destruct (drain_callbacks_frame stepArgs m)
    as (_ & Hdp & Hda & Hds & _ & Hdt & _ & Hdj & _).
  fold md in Hdp, Hda, Hds, Hdt, Hdj.
  assert (Hargs : step_args md stepArgs = step_args m stepArgs)
    by (unfold step_args; now rewrite Hda).
  set (mc := call (EvExecute A (step_args m stepArgs)) queued md).
  destruct (call_user_frame (EvExecute A (step_args m stepArgs)) queued md)
    as (_ & Hcp & Hca & Hcs & _ & Hct & _ & Hcj & _).
  fold mc in Hcp, Hca, Hcs, Hct, Hcj.
  exists (transition (Some B) default_options mc). split.
  { intros fuel. rewrite step_after_bootstrap by (rewrite HA; discriminate).
    fold md.
    assert (H1 : transitioning md = false) by congruence.
    assert (H2 : possibleStates md !! prop_key (state md) = Some sA)
      by (rewrite Hdp, Hds, HA; exact HsA).
    assert (H3 : execute sA (step_args md stepArgs) = (queued, Some B))
      by (rewrite Hargs; exact He).
    assert (H4 : truthy (Some B) = true) by now apply truthy_nonempty.
    assert (H5 : in_possibleStates (Some B) md = true).
    { apply in_possibleStates_registered. unfold registered. cbn [prop_key].
      rewrite Hdp, HsB. eauto. }
    rewrite (execute_loop_starts_transition fuel stepArgs md sA queued (Some B)
               H1 H2 H3 H4 H5).
    rewrite Hds, HA, Hargs. reflexivity. }
  destruct (default_transition_stretches mc A B sA sB)
    as ((Hl1 & Hs1 & Ht1 & Hj1) & (Hl2 & Hs2 & Ht2 & Hj2 & Ha2 & sB' & HsB' & HeB'));
    try (rewrite ?Hcp, ?Hdp, ?Hcs, ?Hds, ?Hcj, ?Hdj; assumption).
  rewrite Hca, Hda in Hl1, Hl2, Ha2.
  split.
  { repeat split; try assumption. rewrite Hl1. subst mc.
    rewrite calls_call. cbn [calls]. now rewrite <- app_assoc. }
  cbv zeta. split; [repeat split; assumption|].
  intros stepArgs' queued' He'.
  set (m2 := settle (transition (Some B) default_options mc)) in *.
  destruct (drain_callbacks_frame stepArgs' m2)
    as (_ & Hep & Hea & Hes & _ & Het & _).
  set (me := drain_callbacks stepArgs' m2) in *.
  assert (Hargs' : step_args me stepArgs' = step_args m stepArgs')
    by (unfold step_args; now rewrite Hea, Ha2).
  eexists. split; [|split; [|split]].
  - intros fuel. rewrite step_after_bootstrap by (rewrite Hs2; discriminate).
    fold me.
    apply (execute_loop_stays fuel stepArgs' me sB' queued' None).
    + now rewrite Het.
    + now rewrite Hep, Hes, Hs2.
    + now rewrite HeB', Hargs'.
    + reflexivity.
  - rewrite calls_call, Hes, Hs2, Hargs'. reflexivity.
  - rewrite call_eq. machine_cbn. now rewrite Hes.
  - rewrite call_eq. machine_cbn. now rewrite Het.
Qed.

Example step_starts_transition_and_returns_example :
  let m := settle (transition (Some "A") default_options
                     (started "B" a_then_b)) in
  exists m1,
    step 2 [] m = Some (Returned m1) /\
    state m1 = Some "A" /\ state (settle m1) = Some "B".
Proof.
  intros m.
  pose proof (step_starts_transition_and_returns m "A" "B"
                (set_initialized (always (Some "B"))) new_State [] []
                eq_refl) as H.
  cbv zeta in H.
  destruct H as (m1 & Hstep & (_ & Hs1 & _) & (_ & Hs2 & _) & _);
    try reflexivity; try discriminate.
  exists m1. split; [apply (Hstep 0)|]. split; assumption.
Qed.

(** ** The first step *)

Lemma count_events_app (p : Event -> bool) (l1 l2 : list Event) :
  count_events p (l1 ++ l2) = count_events p l1 + count_events p l2.
Proof. unfold count_events. now rewrite List.filter_app, length_app. Qed.

Lemma count_events_calls (p : Event -> bool) (l : list Event) :
  (forall f, p (EvNextStep f) = false) ->
  count_events p (calls l) = count_events p l.
Proof.
  intros Hp. unfold count_events. induction l as [|e l IH]; [reflexivity|].
  destruct e; cbn [calls List.filter]; rewrite ?Hp;
    try (destruct (p _); cbn [length]; now rewrite IH).
  exact IH.
Qed.

Lemma count_events_none (p : Event -> bool) (l : list Event) :
  Forall (fun e => p e = false) l -> count_events p l = 0.
Proof.
  unfold count_events. induction 1 as [|e l He _ IH]; [reflexivity|].
  cbn [List.filter]. now rewrite He.
Qed.

Lemma not_entering_other (k k' : string) (args : list Value)
    (extra : option EnterArgs) :
  k <> k' ->
  not_entering k (EvInit k' args) /\ not_entering k (EvHandleEntered k' args extra).
Proof.
  intros Hk. unfold not_entering. cbn.
  destruct (String.eqb_spec k k'); [contradiction|]. auto.
Qed.

(** The first stretch of a transition does not enter the state registered
    as [k] if it has a state to exit first, or if its target is another. *)
Lemma transition_not_entering (k : string) (target : option string)
    (opts : Options) (m : Machine) :
  truthy (state m) = true \/ k <> prop_key target ->
  exists delta, log (transition target opts m) = log m ++ delta /\
                Forall (not_entering k) delta.
Proof.
  intros Hk. unfold transition, transition_begin.
  destruct (negb _); [exists []; cbn [dispose]; machine_cbn;
                      now rewrite app_nil_r|].
  machine_cbn. destruct (truthy (state m)) eqn:Htr.
  - destruct (preExit opts) as [f|].
    + unfold dispose. rewrite call_eq. machine_cbn. eexists.
      split; [reflexivity|]. constructor; [split; reflexivity|].
      apply Forall_forall. intros x Hx.
      apply list_elem_of_In, in_map_iff in Hx as (c & <- & _). split; reflexivity.
    + unfold call_handleExited. machine_cbn.
      destruct (possibleStates m !! prop_key (state m)); unfold dispose.
      * rewrite call_eq. machine_cbn. eexists.
        split; [reflexivity|]. constructor; [split; reflexivity|].
        apply Forall_forall. intros x Hx.
        apply list_elem_of_In, in_map_iff in Hx as (c & <- & _). split; reflexivity.
      * machine_cbn. exists []. now rewrite app_nil_r.
  - destruct Hk as [Hk|Hk]; [discriminate|].
    pose proof (fun a x => proj1 (not_entering_other k (prop_key target) a x Hk))
      as Hinit.
    pose proof (fun a x => proj2 (not_entering_other k (prop_key target) a x Hk))
      as Hent.
    assert (Hns : forall q : list Callback,
      Forall (not_entering k) (map (fun c => EvNextStep (cb_id c)) q)).
    { intros q. apply Forall_forall. intros x Hx.
      apply list_elem_of_In, in_map_iff in Hx as (c & <- & _). split; reflexivity. }
    unfold enter, call_handleEntered, mark_initialized. machine_cbn.
    destruct (possibleStates m !! prop_key target) as [s|] eqn:Hs;
      [|unfold dispose; machine_cbn; exists []; now rewrite app_nil_r].
    destruct (initialized s), (preEnter opts) as [f|];
      repeat (progress (rewrite ?call_eq, ?lookup_alter_eq, ?Hs; machine_cbn;
                        cbn [fmap option_fmap option_map]));
      unfold dispose; machine_cbn; rewrite <- ?app_assoc; eexists;
      (split; [reflexivity|]);
      repeat first [ apply Forall_app; split
                   | apply Forall_cons; split
                   | apply Hns | apply (Hinit _ None) | apply Hent
                   | split; reflexivity ].
Qed.

Lemma truthy_key (next : option string) :
  truthy next = true -> prop_key next <> "".
Proof.
  destruct next as [n|]; [|discriminate]. cbn.
  destruct (String.eqb_spec n ""); [discriminate|auto].
Qed.

Lemma count_events_invocations (p : Event -> bool) (a : list Value)
    (q : list Callback) :
  (forall f x, p (EvCallback f x) = false) ->
  count_events p (map (fun c => EvCallback (cb_id c) a) q) = 0.
Proof.
  intros Hp. apply count_events_none, Forall_forall. intros x Hx.
  apply list_elem_of_In, in_map_iff in Hx as (c & <- & _). apply Hp.
Qed.

(** C5: constructing a machine calls no state method.  The first step of a
    machine whose initial state [A] is registered sets [state] to [A] and
    calls [A.init], then [A.handleEntered]; these are the first two calls
    of user code, the callbacks they queued follow, and then comes the
    first call of [execute].  No exit hook runs before that call, and
    whatever the execute loop goes on to do, the step calls [init] and
    [handleEntered] of [A] exactly once each.  The step returns as soon as
    [execute] returns nothing or a name that passes the check. *)
Theorem first_step_bootstraps (A : string) (states : gmap string State)
    (sargs : list Value) (sA : State) (stepArgs : list Z) :
  states !! A = Some sA ->
  let m0 := new_StateMachine A states sargs in
  let a := sargs ++ map VNum stepArgs in
  (log m0 = [] /\ state m0 = None /\ jobs m0 = [] /\ nextStepCallbacks m0 = []) /\
  (exists mb, bootstrap m0 = Returned mb /\ state mb = Some A /\
              calls (log mb) = [EvInit A sargs; EvHandleEntered A sargs None]) /\
  (forall fuel r, step fuel stepArgs m0 = Some r ->
     let before :=
       [EvInit A sargs; EvHandleEntered A sargs None] ++
       map (fun c => EvCallback (cb_id c) a)
           (drain_order (init sA ++ handleEntered sA)) in
     exists tail,
       calls (log (machine_of r)) = before ++ EvExecute A a :: tail /\
       count_events is_exit_hook before = 0 /\
       count_events is_execute before = 0 /\
       count_events (is_init_of A) (log (machine_of r)) = 1 /\
       count_events (is_handleEntered_of A) (log (machine_of r)) = 1) /\
  (forall queued next, execute sA a = (queued, next) ->
     truthy next = false \/ in_possibleStates next m0 = true ->
     exists r, forall fuel, step (S (S fuel)) stepArgs m0 = Some r).
Proof.
  intros HA m0 a.
  assert (Hl0 : possibleStates m0 !! A = Some sA).
  { subst m0. unfold new_StateMachine, addStates. machine_cbn.
    now apply lookup_union_Some_l. }
  assert (H0 : log m0 = [] /\ state m0 = None /\ jobs m0 = [] /\
               nextStepCallbacks m0 = []) by (repeat split).
  assert (H0i : initialState m0 = A) by reflexivity.
  assert (H0a : stateArgs m0 = sargs) by reflexivity.
  assert (H0t : transitioning m0 = false) by reflexivity.
  destruct H0 as (H0l & H0s & H0j & H0q).
  clearbody m0.
  set (mb := call (EvHandleEntered A sargs None) (handleEntered sA)
               (call (EvInit A sargs) (init sA) (set_state (Some A) m0))).
  assert (Hboot : bootstrap m0 = Returned mb).
  { unfold bootstrap. rewrite H0s. machine_cbn. rewrite H0i, Hl0, H0a.
    destruct (call_user_frame (EvInit A sargs) (init sA) (set_state (Some A) m0))
      as (Hi & _ & Ha & _).
    rewrite Hi, Ha. machine_cbn. now rewrite H0i, H0a. }
  assert (Hmb : state mb = Some A /\ possibleStates mb = possibleStates m0 /\
                stateArgs mb = sargs /\ transitioning mb = false /\
                nextStepCallbacks mb = init sA ++ handleEntered sA /\
                calls (log mb) = [EvInit A sargs; EvHandleEntered A sargs None]).
  { subst mb. rewrite !call_eq. machine_cbn. rewrite H0l, H0q.
    repeat split; try assumption.
    rewrite !calls_hook. reflexivity. }
  destruct Hmb as (Hbs & Hbp & Hba & Hbt & Hbq & Hbl).
  set (md := drain_callbacks stepArgs mb).
  destruct (drain_callbacks_frame stepArgs mb)
    as (_ & Hdp & Hda & Hds & _ & Hdt & _).
  fold md in Hdp, Hda, Hds, Hdt.
  assert (Hargs : step_args md stepArgs = a)
    by (unfold step_args; now rewrite Hda, Hba).
  assert (Hdl : calls (log md) =
                [EvInit A sargs; EvHandleEntered A sargs None] ++
                map (fun c => EvCallback (cb_id c) a)
                    (drain_order (init sA ++ handleEntered sA))).
  { subst md. rewrite drain_callbacks_log, Hbl, <- map_app,
      <- drain_order_levels, Hbq.
    unfold invocation, step_args. now rewrite Hba. }
  assert (Hstep : forall fuel,
             step fuel stepArgs m0 = execute_loop fuel stepArgs md)
    by (intros fuel; unfold step; now rewrite Hboot).
  assert (Ht : transitioning md = false) by congruence.
  assert (Hs : possibleStates md !! prop_key (state md) = Some sA)
    by (rewrite Hdp, Hds, Hbs, Hbp; exact Hl0).
  assert (Hcount : forall p delta,
    (forall f, p (EvNextStep f) = false) ->
    (forall f x, p (EvCallback f x) = false) ->
    p (EvExecute A a) = false ->
    count_events p [EvInit A sargs; EvHandleEntered A sargs None] = 1 ->
    count_events p delta = 0 ->
    forall l, calls l = calls (log md) ++ [EvExecute A a] ++ calls delta ->
    count_events p l = 1).
  { intros p delta Hp1 Hp2 Hp3 Hp4 Hp5 l Hl.
    rewrite <- (count_events_calls p l Hp1), Hl, Hdl, !count_events_app.
    rewrite Hp4, count_events_invocations by exact Hp2.
    rewrite (count_events_calls p delta Hp1), Hp5.
    unfold count_events. cbn [List.filter]. rewrite Hp3. reflexivity. }
  split; [repeat split; assumption|].
  split; [exists mb; repeat split; assumption|].
  split.
  - intros fuel r Hr before.
    assert (Hbefore : count_events is_exit_hook before = 0 /\
                      count_events is_execute before = 0).
    { subst before. rewrite !count_events_app.
      rewrite !count_events_invocations by reflexivity. split; reflexivity. }
    destruct Hbefore as [Hb1 Hb2].
    revert Hr. rewrite Hstep. subst before.
    destruct fuel as [|fuel]; [discriminate|].
    destruct (execute sA a) as [queued next] eqn:He.
    rewrite <- Hargs in He.
    destruct (truthy next) eqn:Hn.
    2: { rewrite (execute_loop_stays _ _ _ _ _ _ Ht Hs He Hn).
         intros [= <-]. cbn [machine_of]. rewrite Hds, Hbs, Hargs. cbn [prop_key].
         assert (Hl : calls (log (call (EvExecute A a) queued md)) =
                      calls (log md) ++ [EvExecute A a] ++ calls [])
           by (rewrite calls_call; reflexivity).
         exists []. split; [rewrite Hl, Hdl, <- app_assoc; reflexivity|].
         split; [exact Hb1|]. split; [exact Hb2|].
         split; eapply (Hcount _ []); try reflexivity; try exact Hl;
           cbn; now rewrite String.eqb_refl. }
    destruct (in_possibleStates next md) eqn:Hin.
    2: { now rewrite (execute_loop_rejected _ _ _ _ _ _ Ht Hs He Hn Hin). }
    destruct fuel as [|fuel].
    { cbn [execute_loop]. now rewrite Ht, Hs, He, Hn. }
    rewrite (execute_loop_starts_transition _ _ _ _ _ _ Ht Hs He Hn Hin).
    intros [= <-]. cbn [machine_of]. rewrite Hds, Hbs, Hargs. cbn [prop_key].
    set (mc := call (EvExecute A a) queued md).
    destruct (call_user_frame (EvExecute A a) queued md)
      as (_ & _ & _ & Hcs & _).
    fold mc in Hcs.
    destruct (transition_not_entering A next (step_options stepArgs) mc)
      as (delta & Hdelta & Hne).
    { rewrite Hcs, Hds, Hbs. cbn [truthy].
      destruct (String.eqb_spec A "") as [->|]; [|now left].
      right. intros Hk. symmetry in Hk. now apply truthy_key in Hk. }
    assert (Hl : calls (log (transition next (step_options stepArgs) mc)) =
                 calls (log md) ++ [EvExecute A a] ++ calls delta).
    { rewrite Hdelta, calls_app. subst mc. rewrite calls_call.
      now rewrite <- app_assoc. }
    exists (calls delta). split; [rewrite Hl, Hdl, <- app_assoc; reflexivity|].
    split; [exact Hb1|]. split; [exact Hb2|].
    split; eapply (Hcount _ delta); try reflexivity; try exact Hl;
      try (cbn; now rewrite String.eqb_refl);
      apply count_events_none; eapply Forall_impl; try exact Hne;
      intros e [H1 H2]; assumption.
  - intros queued next He Hcase.
    rewrite <- Hargs in He.
    destruct (truthy next) eqn:Hn.
    + destruct Hcase as [?|Hin]; [discriminate|].
      assert (Hin' : in_possibleStates next md = true).
      { rewrite <- Hin. apply in_possibleStates_user_frame. congruence. }
      eexists. intros fuel. rewrite Hstep.
      apply (execute_loop_starts_transition _ _ _ _ _ _ Ht Hs He Hn Hin').
    + eexists. intros fuel. rewrite Hstep.
      apply (execute_loop_stays _ _ _ _ _ _ Ht Hs He Hn).
Qed.

Lemma first_step_bootstraps_witness :
  exists mb,
    bootstrap (new_StateMachine "A" idle_ab []) = Returned mb /\
    state mb = Some "A" /\
    calls (log mb) = [EvInit "A" []; EvHandleEntered "A" [] None].
Proof.
  exact (proj1 (proj2 (first_step_bootstraps "A" idle_ab [] new_State []
                         eq_refl))).
Defined.

(** * Properties of the rest of the machine *)

(** ** Suspended transitions come to an end *)

Lemma resume_remaining (t : Task) (m : Machine) (p : Pc) (m' : Machine) :
  resume t m = (m', Suspended p) -> remaining p < remaining (pc t).
Proof.
  unfold resume, call_handleExited, after_handleExited, enter,
    call_handleEntered, after_handleEntered.
  destruct (pc t); cbn [remaining];
    repeat match goal with
           | |- context [match ?x with _ => _ end] => destruct x eqn:?
           end;
    intros [= <- <-] || intros [=]; cbn [remaining]; lia.
Qed.

Lemma run_job_pending (m : Machine) :
  jobs m <> [] -> pending (run_job m) < pending m.
Proof.
  unfold run_job, pending. destruct (jobs m) as [|t rest] eqn: Hj; [easy|].
  intros _. destruct (resume t (set_jobs rest m)) as [m' o] eqn: E.
  assert (Hjobs : jobs m' = rest).
  { revert E. unfold resume, call_handleExited, after_handleExited, enter,
      call_handleEntered, after_handleEntered, mark_initialized.
    repeat match goal with
           | |- context [match ?x with _ => _ end] => destruct x eqn:?
           end;
      rewrite ?call_eq; intros [= <- <-]; reflexivity. }
  destruct o as [p|e|]; unfold dispose; cbn [jobs set_jobs set_rejections];
    rewrite Hjobs; cbn [map list_sum].
  - apply resume_remaining in E. rewrite map_app, list_sum_app. simpl. lia.
  - destruct (pc t); simpl; lia.
  - destruct (pc t); simpl; lia.
Qed.

Lemma run_jobs_pending (n : nat) (m : Machine) :
  pending m <= n -> jobs (run_jobs n m) = [].
Proof.
  revert m. induction n as [|n IH]; intros m Hn.
  - simpl. unfold pending in Hn. destruct (jobs m) as [|t rest]; [reflexivity|].
    simpl in Hn. destruct (pc t); simpl in Hn; lia.
  - simpl. destruct (jobs m) as [|t rest] eqn: Hj.
    + unfold run_job. rewrite Hj. rewrite run_jobs_idle; assumption.
    + apply IH. pose proof (run_job_pending m) as H. rewrite Hj in H.
      specialize (H ltac:(discriminate)). lia.
Qed.

Lemma pending_bound (m : Machine) : pending m <= 6 * length (jobs m).
Proof.
  unfold pending. induction (jobs m) as [|t rest IH]; simpl; [lia|].
  destruct (pc t); simpl; lia.
Qed.

Lemma resume_rejections (t : Task) (m : Machine) :
  rejections (fst (resume t m)) = rejections m /\
  jobs (fst (resume t m)) = jobs m /\
  (snd (resume t m) = Fulfilled -> transitioning (fst (resume t m)) = false).
Proof.
  unfold resume, call_handleExited, after_handleExited, enter,
    call_handleEntered, after_handleEntered, mark_initialized.
  repeat match goal with
         | |- context [match ?x with _ => _ end] => destruct x eqn:?
         end;
    rewrite ?call_eq; cbn [fst snd]; machine_cbn;
    (split; [reflexivity|split; [reflexivity|]]); intros [=]; reflexivity.
Qed.

Lemma run_job_rejections (m : Machine) :
  exists d, rejections (run_job m) = rejections m ++ d.
Proof.
  unfold run_job. destruct (jobs m) as [|t rest]; [exists []; now rewrite app_nil_r|].
  pose proof (resume_rejections t (set_jobs rest m)) as (Hr & _ & _).
  destruct (resume t (set_jobs rest m)) as [m' [p|e|]]; cbn [fst] in Hr;
    unfold dispose; machine_cbn; rewrite Hr; machine_cbn.
  - exists []. now rewrite app_nil_r.
  - now exists [e].
  - exists []. now rewrite app_nil_r.
Qed.

Lemma run_jobs_rejections (n : nat) (m : Machine) :
  exists d, rejections (run_jobs n m) = rejections m ++ d.
Proof.
  revert m. induction n as [|n IH]; intros m; simpl.
  - exists []. now rewrite app_nil_r.
  - destruct (IH (run_job m)) as [d2 H2]. destruct (run_job_rejections m) as [d1 H1].
    exists (d1 ++ d2). now rewrite H2, H1, app_assoc.
Qed.

Lemma run_job_last (m : Machine) :
  jobs m <> [] -> jobs (run_job m) = [] ->
  rejections (run_job m) = rejections m ->
  transitioning (run_job m) = false.
Proof.
  unfold run_job. destruct (jobs m) as [|t rest]; [easy|]. intros _.
  pose proof (resume_rejections t (set_jobs rest m)) as (Hr & Hj & Hf).
  destruct (resume t (set_jobs rest m)) as [m' [p|e|]];
    cbn [fst snd] in Hr, Hj, Hf; unfold dispose; machine_cbn.
  - intros H. now apply app_eq_nil in H as [_ H].
  - intros _ H. rewrite Hr in H. machine_cbn_in H.
    apply (f_equal length) in H. rewrite length_app in H. simpl in H. lia.
  - intros _ _. now apply Hf.
Qed.

Lemma run_jobs_last (n : nat) (m : Machine) :
  jobs m <> [] -> jobs (run_jobs n m) = [] ->
  rejections (run_jobs n m) = rejections m ->
  transitioning (run_jobs n m) = false.
Proof.
  revert m. induction n as [|n IH]; intros m Hne Hend Hrej; [easy|].
  simpl in *. destruct (run_job_rejections m) as [d1 H1].
  destruct (run_jobs_rejections n (run_job m)) as [d2 H2].
  assert (Hd : d1 = [] /\ d2 = []).
  { rewrite H2, H1, <- app_assoc in Hrej.
    rewrite <- (app_nil_r (rejections m)) in Hrej at 2.
    apply app_inv_head in Hrej. now apply app_eq_nil in Hrej. }
  destruct Hd as [-> ->]. rewrite app_nil_r in H1, H2.
  destruct (jobs (run_job m)) as [|t rest] eqn: Hj.
  - rewrite run_jobs_idle; [|exact Hj]. now apply run_job_last.
  - apply IH; [rewrite Hj; discriminate|exact Hend|exact H2].
Qed.

(** X1. Suspended transitions always come to an end: whatever is in the
    queue, each transition is past its last [await] or rejected after at
    most six resumptions, so none is left suspended; and when there was one
    and none was rejected on the way, the [transitioning] flag is cleared. *)
Theorem settle_ends_every_transition (m : Machine) :
  jobs (settle m) = [] /\
  (jobs m <> [] -> rejections (settle m) = rejections m ->
   transitioning (settle m) = false).
Proof.
  unfold settle. split.
  - apply run_jobs_pending, pending_bound.
  - intros Hne Hrej. apply run_jobs_last; [exact Hne| |exact Hrej].
    apply run_jobs_pending, pending_bound.
Qed.

(** ** Steps during a transition *)




(** ** An initial state that is not registered *)





(** ** A push that is rejected *)



(** ** init runs once *)



Lemma keeps_init_refl (k : string) (m : Machine) : keeps_init k m m.
Proof.
  split; [reflexivity|]. split; [reflexivity|]. split; [tauto|].
  split; [|tauto]. intros _. exists []. now rewrite app_nil_r.
Qed.

Lemma keeps_init_trans (k : string) (m1 m2 m3 : Machine) :
  keeps_init k m1 m2 -> keeps_init k m2 m3 -> keeps_init k m1 m3.
Proof.
  intros (Hi1 & Hp1 & Hd1 & H1 & Hf1) (Hi2 & Hp2 & Hd2 & H2 & Hf2).
  split; [congruence|]. split; [congruence|]. split; [auto|].
  split; [|auto].
  intros Hd. destruct (H1 Hd) as (d1 & E1 & F1).
  destruct (H2 (Hd1 _ Hd)) as (d2 & E2 & F2).
  exists (d1 ++ d2). rewrite E2, E1, app_assoc.
  split; [reflexivity|]. now apply Forall_app.
Qed.

Lemma keeps_init_same_states (k : string) (m m' : Machine) (delta : list Event) :
  initialState m' = initialState m ->
  possibleStates m' = possibleStates m ->
  log m' = log m ++ delta ->
  Forall (fun e => is_init_of k e = false) delta ->
  keeps_init k m m'.
Proof.
  intros Hi Hp Hl Hf. split; [exact Hi|]. split; [now rewrite Hp|].
  split; [|split].
  - intros key. unfold init_done. now rewrite Hp.
  - intros _. now exists delta.
  - unfold flag_records_init. rewrite Hp, Hl, count_events_app.
    now rewrite (count_events_none _ delta Hf), Nat.add_0_r.
Qed.

Lemma Forall_nextStep_not_init (k : string) (q : list Callback) :
  Forall (fun e => is_init_of k e = false)
         (map (fun c => EvNextStep (cb_id c)) q).
Proof. induction q as [|c q IH]; simpl; constructor; [reflexivity|exact IH]. Qed.

Lemma call_keeps_init (k : string) (e : Event) (q : list Callback) (m : Machine) :
  is_init_of k e = false -> keeps_init k m (call e q m).
Proof.
  intros He. rewrite call_eq.
  eapply keeps_init_same_states; machine_cbn; try reflexivity.
  constructor; [exact He|apply Forall_nextStep_not_init].
Qed.

Ltac same_states :=
  eapply (keeps_init_same_states _ _ _ []); machine_cbn;
  rewrite ?app_nil_r; first [reflexivity | constructor].

Lemma call_handleEntered_keeps_init (k : string) (target : option string)
    (opts : Options) (m : Machine) :
  keeps_init k m (fst (call_handleEntered target opts m)).
Proof.
  unfold call_handleEntered.
  destruct (possibleStates m !! prop_key target); cbn [fst];
    [now apply call_keeps_init|apply keeps_init_refl].
Qed.

Lemma call_handleExited_keeps_init (k : string) (m : Machine) :
  keeps_init k m (fst (call_handleExited m)).
Proof.
  unfold call_handleExited.
  destruct (possibleStates m !! prop_key (state m)); cbn [fst];
    [now apply call_keeps_init|apply keeps_init_refl].
Qed.

Lemma mark_initialized_init_done (k key : string) (m : Machine) :
  init_done k m -> init_done k (mark_initialized key m).
Proof.
  intros (s & Hs & Hi). unfold init_done, mark_initialized. machine_cbn.
  destruct (decide (key = k)) as [->|Hne].
  - exists (set_initialized s). now rewrite lookup_alter_eq, Hs.
  - exists s. rewrite lookup_alter_ne; [|exact Hne]. easy.
Qed.

Lemma init_keeps_init (k : string) (target : option string) (m : Machine)
    (stateObj : State) :
  possibleStates m !! prop_key target = Some stateObj ->
  keeps_init k m
    (if initialized stateObj then m
     else mark_initialized (prop_key target)
            (call (EvInit (prop_key target) (stateArgs m)) (init stateObj) m)).
Proof.
  intros Hobj. destruct (initialized stateObj) eqn: Hflag; [apply keeps_init_refl|].
  split; [rewrite call_eq; reflexivity|]. split; [|split].
  - unfold mark_initialized. rewrite call_eq. machine_cbn.
    apply map_eq. intros i. rewrite !lookup_fmap.
    destruct (decide (prop_key target = i)) as [<-|Hne].
    + rewrite lookup_alter_eq. now destruct (possibleStates m !! prop_key target).
    + now rewrite lookup_alter_ne.
  - intros key Hd. apply mark_initialized_init_done. rewrite call_eq.
    unfold init_done in *. machine_cbn. exact Hd.
  - split.
    + intros Hd. unfold mark_initialized. rewrite call_eq. machine_cbn.
      eexists. split; [reflexivity|].
      constructor; [|apply Forall_nextStep_not_init].
      cbn [is_init_of].
      destruct (String.eqb_spec k (prop_key target)) as [E|]; [|reflexivity].
      destruct Hd as (s & Hs & Hi). rewrite <- E in Hobj. congruence.
    + unfold flag_records_init, mark_initialized. rewrite call_eq. machine_cbn.
      intros Hrec s. rewrite count_events_app. cbn [count_events List.filter].
      change (EvInit (prop_key target) (stateArgs m)
              :: map (fun c => EvNextStep (cb_id c)) (init stateObj))
        with ([EvInit (prop_key target) (stateArgs m)]
              ++ map (fun c => EvNextStep (cb_id c)) (init stateObj)).
      rewrite count_events_app,
        (count_events_none _ _ (Forall_nextStep_not_init k (init stateObj))).
      unfold count_events at 2. cbn [List.filter is_init_of].
      destruct (String.eqb_spec k (prop_key target)) as [E|E].
      * rewrite <- E, lookup_alter_eq. cbn [length].
        destruct (possibleStates m !! k); [|discriminate].
        intros [= <-]. cbn [initialized set_initialized]. split; [lia|reflexivity].
      * rewrite lookup_alter_ne; [|congruence]. cbn [length].
        rewrite !Nat.add_0_r. apply Hrec.
Qed.

Lemma enter_keeps_init (k : string) (target : option string) (opts : Options)
    (m : Machine) : keeps_init k m (fst (enter target opts m)).
Proof.
  unfold enter.
  assert (H0 : keeps_init k m (set_state target m)) by same_states.
  eapply keeps_init_trans; [exact H0|].
  generalize (set_state target m). clear m H0. intros m.
  destruct (possibleStates m !! prop_key target) as [stateObj|] eqn: Hobj;
    [|apply keeps_init_refl].
  pose proof (init_keeps_init k target m stateObj Hobj) as H1.
  eapply keeps_init_trans; [exact H1|].
  match goal with |- context [call_handleEntered _ _ ?x] => generalize x end.
  clear. intros m.
  destruct (preEnter opts); cbn [fst];
    [now apply call_keeps_init|apply call_handleEntered_keeps_init].
Qed.

Lemma after_handleExited_keeps_init (k : string) (target : option string)
    (opts : Options) (m : Machine) :
  keeps_init k m (fst (after_handleExited target opts m)).
Proof.
  unfold after_handleExited.
  destruct (postExit opts); cbn [fst];
    [now apply call_keeps_init|apply enter_keeps_init].
Qed.

Lemma after_handleEntered_keeps_init (k : string) (opts : Options) (m : Machine) :
  keeps_init k m (fst (after_handleEntered opts m)).
Proof.
  unfold after_handleEntered.
  destruct (postEnter opts); cbn [fst]; [now apply call_keeps_init|same_states].
Qed.

Lemma dispose_keeps_init (k : string) (target : option string) (opts : Options)
    (r : Machine * Outcome) : keeps_init k (fst r) (dispose target opts r).
Proof. destruct r as [m []]; unfold dispose; cbn [fst]; same_states. Qed.

Lemma transition_keeps_init (k : string) (target : option string)
    (opts : Options) (m : Machine) : keeps_init k m (transition target opts m).
Proof.
  unfold transition. eapply keeps_init_trans; [|apply dispose_keeps_init].
  unfold transition_begin.
  destruct (negb _); cbn [fst]; [apply keeps_init_refl|].
  assert (H0 : keeps_init k m (set_transitioning true m)) by same_states.
  eapply keeps_init_trans; [exact H0|].
  generalize (set_transitioning true m). clear. intros m.
  destruct (truthy (state m)); [|apply enter_keeps_init].
  destruct (preExit opts); cbn [fst];
    [now apply call_keeps_init|apply call_handleExited_keeps_init].
Qed.

Lemma run_job_keeps_init (k : string) (m : Machine) : keeps_init k m (run_job m).
Proof.
  unfold run_job. destruct (jobs m) as [|t rest]; [apply keeps_init_refl|].
  assert (H0 : keeps_init k m (set_jobs rest m)) by same_states.
  eapply keeps_init_trans; [exact H0|].
  eapply keeps_init_trans; [|apply dispose_keeps_init].
  generalize (set_jobs rest m). clear. intros m.
  unfold resume. destruct (pc t).
  - apply call_handleExited_keeps_init.
  - apply after_handleExited_keeps_init.
  - apply enter_keeps_init.
  - apply call_handleEntered_keeps_init.
  - apply after_handleEntered_keeps_init.
  - cbn [fst]. same_states.
Qed.

Lemma drain_from_keeps_init (k : string) (stepArgs : list Z) (i : nat)
    (m : Machine) : keeps_init k m (drain_from stepArgs i m).
Proof.
  funelim (drain_from stepArgs i m).
  - eapply keeps_init_trans;
      [|match goal with IH : context [keeps_init] |- _ => apply IH end].
    now apply call_keeps_init.
  - apply keeps_init_refl.
Qed.

Lemma drain_callbacks_keeps_init (k : string) (stepArgs : list Z) (m : Machine) :
  keeps_init k m (drain_callbacks stepArgs m).
Proof.
  unfold drain_callbacks. destruct (Nat.ltb _ _); [|apply keeps_init_refl].
  eapply keeps_init_trans; [apply drain_from_keeps_init|]. same_states.
Qed.

Lemma execute_loop_keeps_init (k : string) (fuel : nat) (stepArgs : list Z)
    (m : Machine) (r : Result) :
  execute_loop fuel stepArgs m = Some r -> keeps_init k m (machine_of r).
Proof.
  revert m. induction fuel as [|fuel IH]; intros m; [discriminate|].
  cbn [execute_loop]. destruct (transitioning m).
  { intros [= <-]. apply keeps_init_refl. }
  destruct (possibleStates m !! prop_key (state m)) as [cur|].
  2: { intros [= <-]. apply keeps_init_refl. }
  destruct (execute cur (step_args m stepArgs)) as [queued next].
  assert (H0 : keeps_init k m
                 (call (EvExecute (prop_key (state m)) (step_args m stepArgs))
                       queued m)) by now apply call_keeps_init.
  destruct (truthy next).
  - intros Hr. apply IH in Hr.
    eapply keeps_init_trans; [exact H0|].
    eapply keeps_init_trans; [apply transition_keeps_init|exact Hr].
  - intros [= <-]. exact H0.
Qed.

Lemma bootstrap_keeps_init (k : string) (m : Machine) :
  k <> initialState m \/ state m <> None ->
  keeps_init k m (machine_of (bootstrap m)).
Proof.
  intros Hk. unfold bootstrap. destruct (state m); [apply keeps_init_refl|].
  destruct Hk as [Hk|Hk]; [|contradiction].
  assert (H0 : keeps_init k m (set_state (Some (initialState m)) m)) by same_states.
  machine_cbn.
  destruct (possibleStates m !! initialState m) as [s|]; cbn [machine_of];
    [|exact H0].
  eapply keeps_init_trans; [exact H0|].
  eapply keeps_init_trans; apply call_keeps_init; [|reflexivity].
  cbn [is_init_of]. machine_cbn.
  destruct (String.eqb_spec k (initialState m)); [contradiction|reflexivity].
Qed.

Lemma step_keeps_init (k : string) (fuel : nat) (stepArgs : list Z) (m : Machine)
    (r : Result) :
  k <> initialState m \/ state m <> None ->
  step fuel stepArgs m = Some r -> keeps_init k m (machine_of r).
Proof.
  intros Hk. unfold step. pose proof (bootstrap_keeps_init k m Hk) as Hb.
  destruct (bootstrap m) as [m1|e m1]; cbn [machine_of] in Hb.
  - intros Hr. apply (execute_loop_keeps_init k) in Hr.
    eapply keeps_init_trans; [exact Hb|].
    eapply keeps_init_trans; [apply drain_callbacks_keeps_init|exact Hr].
  - intros [= <-]. exact Hb.
Qed.

Lemma emit_keeps_init (k : string) (d : nat) (m : Machine) :
  keeps_init k m (emit d m).
Proof.
  destruct (emit_frame d m) as (Hi & Hp & _).
  destruct (emit_log d m) as [ps Hl].
  eapply keeps_init_same_states; [exact Hi|exact Hp|exact Hl|].
  constructor; [reflexivity|]. clear.
  induction ps as [|p ps IH]; simpl; constructor; [reflexivity|exact IH].
Qed.

Lemma perform_keeps_init (k : string) (fuel : nat) (c : Call) (m m' : Machine) :
  k <> initialState m \/ state m <> None ->
  perform fuel c m = Some m' -> keeps_init k m m'.
Proof.
  intros Hk. destruct c; cbn [perform].
  - destruct (step fuel stepArgs m) as [r|] eqn: E; [|discriminate].
    intros [= <-]. now apply (step_keeps_init k fuel stepArgs).
  - intros [= <-]. unfold nextStep.
    eapply keeps_init_same_states; machine_cbn; try reflexivity.
    now repeat constructor.
  - intros [= <-]. apply transition_keeps_init.
  - intros [= <-]. unfold pushTransition.
    eapply keeps_init_trans; [|apply transition_keeps_init]. same_states.
  - intros [= <-]. unfold pushAndWait, pushTransition, on. cbn [fst].
    eapply keeps_init_trans; [|apply transition_keeps_init]. same_states.
  - intros [= <-]. unfold popTransition.
    destruct (stateStack m) as [|top rest]; cbn [machine_of];
      [apply keeps_init_refl|].
    eapply keeps_init_trans; [|apply emit_keeps_init].
    eapply keeps_init_trans; [|apply transition_keeps_init]. same_states.
  - intros [= <-]. apply run_job_keeps_init.
Qed.

Lemma run_jobs_keeps_init (k : string) (n : nat) (m : Machine) :
  keeps_init k m (run_jobs n m).
Proof.
  revert m. induction n as [|n IH]; intros m; [apply keeps_init_refl|].
  cbn [run_jobs]. eapply keeps_init_trans; [apply run_job_keeps_init|apply IH].
Qed.

Lemma perform_all_keeps_init (k : string) (fuel : nat) (cs : list Call)
    (m m' : Machine) :
  k <> initialState m ->
  perform_all fuel cs m = Some m' -> keeps_init k m m'.
Proof.
  revert m. induction cs as [|c cs IH]; intros m Hk.
  - intros [= <-]. apply keeps_init_refl.
  - cbn [perform_all]. destruct (perform fuel c m) as [m1|] eqn: E; [|discriminate].
    intros Hrest. apply (perform_keeps_init k) in E; [|now left].
    eapply keeps_init_trans; [exact E|]. apply IH; [|exact Hrest].
    destruct E as [-> _]. exact Hk.
Qed.

(** In a machine built from fresh states, whatever is called afterwards,
    the flag of every state but the initial one tells whether its [init]
    has been called. *)
Lemma flag_records_init_reachable (initial : string) (states : gmap string State)
    (args : list Value) (k : string) (cs : list Call) (fuel : nat) (m : Machine) :
  k <> initial ->
  (forall s, states !! k = Some s -> initialized s = false) ->
  perform_all fuel cs (new_StateMachine initial states args) = Some m ->
  flag_records_init k m.
Proof.
  intros Hk Hfresh Hrun.
  apply (perform_all_keeps_init k) in Hrun as (_ & _ & _ & _ & Hrec); [|exact Hk].
  apply Hrec. intros s Hs.
  unfold new_StateMachine, addStates in Hs. machine_cbn_in Hs.
  rewrite (right_id _ _) in Hs. rewrite (Hfresh s Hs).
  change (log (new_StateMachine initial states args)) with (@nil Event).
  cbn. split; [discriminate|lia].
Qed.

Lemma keeps_init_count (k : string) (m m' : Machine) :
  keeps_init k m m' -> init_done k m ->
  init_done k m' /\
  count_events (is_init_of k) (log m') = count_events (is_init_of k) (log m).
Proof.
  intros (_ & _ & Hd & Hl & _) H. split; [now apply Hd|].
  destruct (Hl H) as (delta & -> & Hf).
  rewrite count_events_app, (count_events_none _ delta Hf). lia.
Qed.

(** X5. Once the [initialized] flag of a state other than the initial one
    is set, its [init] is never called again: whatever sequence of steps,
    transitions, pushes, pops, [nextStep] calls and resumptions follows,
    the number of [init] calls on it in the log stays the same and the flag
    stays set. *)
Theorem init_runs_once (k : string) (cs : list Call) (fuel : nat)
    (m m' : Machine) :
  init_done k m ->
  k <> initialState m ->
  perform_all fuel cs m = Some m' ->
  init_done k m' /\
  count_events (is_init_of k) (log m') = count_events (is_init_of k) (log m).
Proof.
  intros Hd Hk Hrun. apply keeps_init_count; [|exact Hd].
  now apply (perform_all_keeps_init k fuel cs).
Qed.

Lemma init_runs_once_witness :
  let m := settle (transition (Some "B") default_options (started "A" idle_ab)) in
  let cs := [CallTransition (Some "A") default_options; Resume; Resume;
             CallTransition (Some "B") default_options; Resume; Resume;
             CallStep [1%Z]] in
  let m' := default m (perform_all 2 cs m) in
  init_done "B" m' /\
  count_events (is_init_of "B") (log m') = count_events (is_init_of "B") (log m).
Proof.
  apply (init_runs_once "B"
           [CallTransition (Some "A") default_options; Resume; Resume;
            CallTransition (Some "B") default_options; Resume; Resume;
            CallStep [1%Z]] 2
           (settle (transition (Some "B") default_options (started "A" idle_ab)))).
  - exists (set_initialized new_State). split; vm_compute; reflexivity.
  - discriminate.
  - vm_compute. reflexivity.
Defined.

Lemma keeps_init_methods (k : string) (m m' : Machine) (key : string) (s : State) :
  keeps_init k m m' -> possibleStates m !! key = Some s ->
  exists s', possibleStates m' !! key = Some s' /\
    init s' = init s /\ handleEntered s' = handleEntered s /\
    handleExited s' = handleExited s /\ execute s' = execute s /\
    (initialized s = true -> initialized s' = true).
Proof.
  intros (_ & Hp & Hd & _) Hs.
  apply (f_equal (fun ps => ps !! key)) in Hp.
  rewrite !lookup_fmap, Hs in Hp.
  destruct (possibleStates m' !! key) as [s'|] eqn: Hs'; [|discriminate].
  exists s'. split; [reflexivity|]. cbn in Hp. injection Hp as Hi He Hx Hex.
  do 4 (split; [assumption|]).
  intros Hflag. destruct (Hd key) as (s2 & Hs2 & Hi2); [now exists s|]. congruence.
Qed.

(** X6. No call replaces, adds or removes a registered state: after any
    sequence of steps, transitions, pushes, pops, [nextStep] calls and
    resumptions, every name is registered or not as before, each state has
    the methods it had, and the only change is that [initialized] flags
    have been set; a flag that is set stays set. *)
Theorem registered_states_are_kept (cs : list Call) (fuel : nat) (m m' : Machine) :
  perform_all fuel cs m = Some m' ->
  (forall key, possibleStates m !! key = None ->
               possibleStates m' !! key = None) /\
  (forall key s, possibleStates m !! key = Some s ->
     exists s', possibleStates m' !! key = Some s' /\
       init s' = init s /\ handleEntered s' = handleEntered s /\
       handleExited s' = handleExited s /\ execute s' = execute s /\
       (initialized s = true -> initialized s' = true)).
Proof.
  intros Hrun.
  assert (Hk : exists k, k <> initialState m).
  { destruct (decide (initialState m = "a")) as [->|Hne];
      [now exists "b"|exists "a"; congruence]. }
  destruct Hk as [k Hk].
  apply (perform_all_keeps_init k) in Hrun; [|exact Hk].
  split.
  - destruct Hrun as (_ & Hp & _). intros key Hnone.
    apply (f_equal (fun ps => ps !! key)) in Hp.
    rewrite !lookup_fmap, Hnone in Hp.
    now destruct (possibleStates m' !! key).
  - intros key s. now apply (keeps_init_methods k).
Qed.

Lemma registered_states_are_kept_witness :
  let m := started "A" idle_ab in
  let cs := [CallTransition (Some "B") default_options; Resume; Resume;
             CallStep [1%Z]] in
  let m' := default m (perform_all 2 cs m) in
  (forall key, possibleStates m !! key = None ->
               possibleStates m' !! key = None) /\
  (forall key s, possibleStates m !! key = Some s ->
     exists s', possibleStates m' !! key = Some s' /\
       init s' = init s /\ handleEntered s' = handleEntered s /\
       handleExited s' = handleExited s /\ execute s' = execute s /\
       (initialized s = true -> initialized s' = true)).
Proof.
  apply (registered_states_are_kept
           [CallTransition (Some "B") default_options; Resume; Resume;
            CallStep [1%Z]] 2 (started "A" idle_ab)).
  vm_compute. reflexivity.
Defined.

(** ** The bootstrap runs once *)

Lemma past_bootstrap_same (m m' : Machine) :
  state m' = state m -> possibleStates m' = possibleStates m ->
  jobs m' = jobs m ->
  past_bootstrap m -> past_bootstrap m'.
Proof. unfold past_bootstrap, no_null_target. intros -> -> ->. tauto. Qed.

Lemma call_past_bootstrap (e : Event) (q : list Callback) (m : Machine) :
  past_bootstrap m -> past_bootstrap (call e q m).
Proof. apply past_bootstrap_same; rewrite call_eq; reflexivity. Qed.

Lemma call_handleEntered_past_bootstrap (target : option string) (opts : Options)
    (m : Machine) :
  past_bootstrap m -> past_bootstrap (fst (call_handleEntered target opts m)).
Proof.
  unfold call_handleEntered. destruct (possibleStates m !! prop_key target);
    cbn [fst]; [apply call_past_bootstrap|tauto].
Qed.

Lemma call_handleExited_past_bootstrap (m : Machine) :
  past_bootstrap m -> past_bootstrap (fst (call_handleExited m)).
Proof.
  unfold call_handleExited. destruct (possibleStates m !! prop_key (state m));
    cbn [fst]; [apply call_past_bootstrap|tauto].
Qed.

Lemma enter_past_bootstrap (target : option string) (opts : Options)
    (m : Machine) :
  target <> None -> no_null_target m ->
  past_bootstrap (fst (enter target opts m)).
Proof.
  intros Ht Hn. unfold enter.
  assert (H0 : past_bootstrap (set_state target m)) by (split; [exact Ht|exact Hn]).
  revert H0. generalize (set_state target m). clear m Hn. intros m H0.
  destruct (possibleStates m !! prop_key target) as [stateObj|]; [|exact H0].
  assert (H1 : past_bootstrap
                 (if initialized stateObj then m
                  else mark_initialized (prop_key target)
                         (call (EvInit (prop_key target) (stateArgs m))
                               (init stateObj) m))).
  { destruct (initialized stateObj); [exact H0|].
    apply (call_past_bootstrap (EvInit (prop_key target) (stateArgs m))
             (init stateObj)) in H0.
    revert H0. generalize (call (EvInit (prop_key target) (stateArgs m))
                                (init stateObj) m).
    intros m1 (Hs & Hnull & Hj). unfold mark_initialized.
    split; [exact Hs|]. split; [|exact Hj]. machine_cbn.
    now apply lookup_alter_None. }
  revert H1.
  match goal with |- past_bootstrap ?x -> _ => generalize x end.
  clear. intros m H.
  destruct (preEnter opts); cbn [fst];
    [now apply call_past_bootstrap|now apply call_handleEntered_past_bootstrap].
Qed.

Lemma dispose_past_bootstrap (target : option string) (opts : Options)
    (r : Machine * Outcome) :
  target <> None -> past_bootstrap (fst r) ->
  past_bootstrap (dispose target opts r).
Proof.
  intros Ht. destruct r as [m [p|e|]]; cbn [fst]; unfold dispose;
    intros (Hs & Hn & Hj); (split; [exact Hs|split; [exact Hn|]]); machine_cbn;
    try exact Hj.
  apply Forall_app. split; [exact Hj|]. now repeat constructor.
Qed.

Lemma accepted_target (target : option string) (m : Machine) :
  possibleStates m !! "null" = None ->
  in_possibleStates target m = true -> target <> None.
Proof.
  intros Hn Hin ->. unfold in_possibleStates, registered in Hin. simpl in Hin.
  rewrite Hn in Hin. rewrite bool_decide_eq_false_2 in Hin.
  - vm_compute in Hin. discriminate.
  - intros [? ?]. discriminate.
Qed.

Lemma transition_past_bootstrap (target : option string) (opts : Options)
    (m : Machine) :
  past_bootstrap m -> past_bootstrap (transition target opts m).
Proof.
  intros H. unfold transition, transition_begin.
  destruct (in_possibleStates target m) eqn: Hin; cbn [negb].
  2: { unfold dispose. revert H. apply past_bootstrap_same; reflexivity. }
  assert (Ht : target <> None) by (eapply accepted_target; [apply H|exact Hin]).
  apply dispose_past_bootstrap; [exact Ht|].
  assert (H0 : past_bootstrap (set_transitioning true m))
    by (revert H; apply past_bootstrap_same; reflexivity).
  revert H0. generalize (set_transitioning true m). clear m H Hin. intros m H.
  destruct (truthy (state m)); [|apply enter_past_bootstrap; [exact Ht|apply H]].
  destruct (preExit opts); cbn [fst];
    [now apply call_past_bootstrap|now apply call_handleExited_past_bootstrap].
Qed.

Lemma run_job_past_bootstrap (m : Machine) :
  past_bootstrap m -> past_bootstrap (run_job m).
Proof.
  intros H. unfold run_job. destruct (jobs m) as [|t rest] eqn: Hj; [exact H|].
  destruct H as (Hs & Hn & Hall). rewrite Hj in Hall.
  apply Forall_cons in Hall as [Ht Hall].
  apply dispose_past_bootstrap; [exact Ht|].
  assert (H0 : past_bootstrap (set_jobs rest m)).
  { split; [exact Hs|]. split; [exact Hn|exact Hall]. }
  revert H0. generalize (set_jobs rest m). clear m Hj Hs Hn Hall. intros m H.
  unfold resume. destruct (pc t).
  - now apply call_handleExited_past_bootstrap.
  - unfold after_handleExited. destruct (postExit (options t)); cbn [fst];
      [now apply call_past_bootstrap|apply enter_past_bootstrap; [exact Ht|apply H]].
  - apply enter_past_bootstrap; [exact Ht|apply H].
  - now apply call_handleEntered_past_bootstrap.
  - unfold after_handleEntered. destruct (postEnter (options t)); cbn [fst];
      [now apply call_past_bootstrap|].
    revert H. apply past_bootstrap_same; reflexivity.
  - cbn [fst]. revert H. apply past_bootstrap_same; reflexivity.
Qed.

Lemma execute_loop_past_bootstrap (fuel : nat) (stepArgs : list Z)
    (m : Machine) (r : Result) :
  execute_loop fuel stepArgs m = Some r ->
  past_bootstrap m -> past_bootstrap (machine_of r).
Proof.
  revert m. induction fuel as [|fuel IH]; intros m; [discriminate|].
  cbn [execute_loop]. destruct (transitioning m).
  { intros [= <-]. tauto. }
  destruct (possibleStates m !! prop_key (state m)) as [cur|].
  2: { intros [= <-]. tauto. }
  destruct (execute cur (step_args m stepArgs)) as [queued next].
  destruct (truthy next).
  - intros Hr H. apply IH in Hr; [exact Hr|].
    now apply transition_past_bootstrap, call_past_bootstrap.
  - intros [= <-] H. now apply call_past_bootstrap.
Qed.

Lemma step_past_bootstrap (fuel : nat) (stepArgs : list Z) (m : Machine)
    (r : Result) :
  step fuel stepArgs m = Some r ->
  past_bootstrap m -> past_bootstrap (machine_of r).
Proof.
  intros Hr H. rewrite step_after_bootstrap in Hr; [|apply H].
  apply execute_loop_past_bootstrap in Hr; [exact Hr|].
  destruct (drain_callbacks_frame stepArgs m)
    as (_ & Hp & _ & Hs & _ & _ & _ & Hj & _).
  revert H. now apply past_bootstrap_same.
Qed.

Lemma perform_past_bootstrap (fuel : nat) (c : Call) (m m' : Machine) :
  perform fuel c m = Some m' -> past_bootstrap m -> past_bootstrap m'.
Proof.
  destruct c; cbn [perform].
  - destruct (step fuel stepArgs m) as [r|] eqn: E; [|discriminate].
    intros [= <-]. now apply (step_past_bootstrap fuel stepArgs).
  - intros [= <-]. apply past_bootstrap_same; reflexivity.
  - intros [= <-]. apply transition_past_bootstrap.
  - intros [= <-] H. unfold pushTransition. apply transition_past_bootstrap.
    revert H. apply past_bootstrap_same; reflexivity.
  - intros [= <-] H. unfold pushAndWait, pushTransition, on. cbn [fst].
    apply transition_past_bootstrap.
    revert H. apply past_bootstrap_same; reflexivity.
  - intros [= <-] H. unfold popTransition.
    destruct (stateStack m) as [|top rest]; cbn [machine_of]; [exact H|].
    match goal with |- context [emit ?d ?x] =>
      destruct (emit_frame d x) as (_ & Hp & _ & Hs & _ & _ & _ & Hj & _);
      apply (past_bootstrap_same x); [exact Hs|exact Hp|exact Hj|]
    end.
    apply transition_past_bootstrap.
    revert H. apply past_bootstrap_same; reflexivity.
  - intros [= <-]. apply run_job_past_bootstrap.
Qed.

(** X7. The bootstrap runs once.  In a machine that has been stepped (its
    state is not [null]) and that has no state named ["null"] and no
    suspended transition to [null], no sequence of steps, transitions,
    pushes, pops, [nextStep] calls and resumptions makes the state [null]
    again; so no later step enters the initial state anew, and the [init]
    of every state whose flag is set, the initial one included, is not
    called again. *)
Theorem bootstrap_runs_once (cs : list Call) (fuel : nat) (m m' : Machine) :
  past_bootstrap m ->
  perform_all fuel cs m = Some m' ->
  past_bootstrap m' /\
  forall k, init_done k m ->
    init_done k m' /\
    count_events (is_init_of k) (log m') = count_events (is_init_of k) (log m).
Proof.
  revert m. induction cs as [|c cs IH]; intros m Hb.
  - intros [= <-]. easy.
  - cbn [perform_all]. destruct (perform fuel c m) as [m1|] eqn: E; [|discriminate].
    intros Hrest.
    pose proof (perform_past_bootstrap fuel c m m1 E Hb) as Hb1.
    destruct (IH m1 Hb1 Hrest) as [Hb' Hinit].
    split; [exact Hb'|]. intros k Hd.
    assert (Hk : keeps_init k m m1)
      by (apply (perform_keeps_init k fuel c); [right; apply Hb|exact E]).
    destruct (keeps_init_count k m m1 Hk Hd) as [Hd1 Hc1].
    destruct (Hinit k Hd1) as [Hd' Hc].
    split; [exact Hd'|]. now rewrite Hc.
Qed.

Lemma bootstrap_runs_once_witness :
  let m := settle (transition (Some "A") default_options
                     (settle (transition (Some "B") default_options
                                (started "A" idle_ab)))) in
  let cs := [CallStep [1%Z]; CallPushTransition (Some "B") default_options;
             Resume; Resume; CallPopTransition; Resume; Resume;
             CallStep [2%Z]] in
  let m' := default m (perform_all 2 cs m) in
  past_bootstrap m' /\
  forall k, init_done k m ->
    init_done k m' /\
    count_events (is_init_of k) (log m') = count_events (is_init_of k) (log m).
Proof.
  apply (bootstrap_runs_once
           [CallStep [1%Z]; CallPushTransition (Some "B") default_options;
            Resume; Resume; CallPopTransition; Resume; Resume;
            CallStep [2%Z]] 2
           (settle (transition (Some "A") default_options
                      (settle (transition (Some "B") default_options
                                 (started "A" idle_ab)))))).
  - split; [vm_compute; discriminate|].
    split; [vm_compute; reflexivity|vm_compute; constructor].
  - vm_compute. reflexivity.
Defined.

(** ** A transition requested while another is under way *)




(** ** States added after construction *)

(** X9. [addStates] on a live machine registers the new states (none of
    them under the name ["__proto__"]) without touching anything else, and
    an object given under a name replaces the one registered before, its
    [initialized] flag included: the next transition into that name runs
    [init] of the new object, even if the state of that name had been
    initialised before. *)
Theorem addStates_replaces_state (states : gmap string State) (m : Machine)
    (A B : string) (sA sB : State) :
  state m = Some A -> A <> "" -> jobs m = [] ->
  possibleStates m !! A = Some sA -> states !! A = None ->
  states !! "__proto__" = None ->
  states !! B = Some sB -> initialized sB = false ->
  let m1 := addStates states m in
  let m2 := settle (transition (Some B) default_options m1) in
  (forall k, states !! k = None -> possibleStates m1 !! k = possibleStates m !! k) /\
  state m1 = state m /\ log m1 = log m /\ stateStack m1 = stateStack m /\
  state m2 = Some B /\ transitioning m2 = false /\
  calls (log m2) =
    calls (log m) ++ [EvHandleExited A (stateArgs m); EvInit B (stateArgs m);
                      EvHandleEntered B (stateArgs m) (Some [])].
Proof.
  intros HA HAne Hj HsA HnA _ HsB Hflag m1 m2.
  assert (H1A : possibleStates m1 !! A = Some sA).
  { unfold m1, addStates. machine_cbn. rewrite lookup_union_r; assumption. }
  assert (H1B : possibleStates m1 !! B = Some sB).
  { unfold m1, addStates. machine_cbn. now apply lookup_union_Some_l. }
  destruct (default_transition_stretches m1 A B sA sB) as [(Hl1 & _) (Hl2 & Hs2 & Ht2 & _)];
    [exact HA|exact HAne|exact H1A|exact H1B|exact Hj|].
  fold m2 in Hl2, Hs2, Ht2.
  split; [|do 3 (split; [reflexivity|])].
  { intros k Hk. unfold m1, addStates. machine_cbn. now rewrite lookup_union_r. }
  split; [exact Hs2|]. split; [exact Ht2|].
  rewrite Hl2, Hl1, Hflag. unfold m1, addStates. machine_cbn.
  rewrite <- app_assoc. reflexivity.
Qed.

Lemma addStates_replaces_state_witness :
  let m := settle (transition (Some "A") default_options
                     (settle (transition (Some "B") default_options
                                (started "A" idle_ab)))) in
  let m1 := addStates {[ "B" := new_State ]} m in
  let m2 := settle (transition (Some "B") default_options m1) in
  (forall k, ({[ "B" := new_State ]} : gmap string State) !! k = None ->
             possibleStates m1 !! k = possibleStates m !! k) /\
  state m1 = state m /\ log m1 = log m /\ stateStack m1 = stateStack m /\
  state m2 = Some "B" /\ transitioning m2 = false /\
  calls (log m2) =
    calls (log m) ++ [EvHandleExited "A" (stateArgs m); EvInit "B" (stateArgs m);
                      EvHandleEntered "B" (stateArgs m) (Some [])].
Proof.
  apply (addStates_replaces_state {[ "B" := new_State ]}
           (settle (transition (Some "A") default_options
                      (settle (transition (Some "B") default_options
                                 (started "A" idle_ab)))))
           "A" "B" (set_initialized new_State) new_State).
  - vm_compute. reflexivity.
  - discriminate.
  - vm_compute. reflexivity.
  - vm_compute. reflexivity.
  - vm_compute. reflexivity.
  - vm_compute. reflexivity.
  - vm_compute. reflexivity.
  - reflexivity.
Defined.

(** * Properties of the helpers *)

(** ** range *)

Lemma increment_safe (k : Z) :
  (- 2 ^ 53 <= k < 2 ^ 53)%Z -> increment k = (k + 1)%Z.
Proof.
  intros H. unfold increment.
  destruct (Z.leb_spec (- 2 ^ 53) k); [|lia].
  destruct (Z.ltb_spec k (2 ^ 53)); [reflexivity|lia].
Qed.

Lemma range_from_spec (fuel : nat) (k e : Z) (acc : list Z) :
  (- 2 ^ 53 <= k)%Z -> (e <= 2 ^ 53)%Z ->
  (Z.of_nat (length acc) + (e - k) < 2 ^ 32)%Z ->
  Z.to_nat (e - k) < fuel ->
  range_from fuel k e acc = Some (RangeReturns (acc ++ seqZ k (e - k))).
Proof.
  revert k acc. induction fuel as [|fuel IH]; intros k acc Hk He Hlen Hf; [lia|].
  cbn [range_from]. destruct (decide (k < e)%Z) as [Hlt|Hge].
  - destruct (Z.ltb_spec (Z.of_nat (length acc)) (2 ^ 32 - 1)); [|lia].
    rewrite increment_safe; [|lia]. rewrite IH; [|lia|lia| |lia].
    + rewrite <- app_assoc. do 3 f_equal. cbn [app].
      rewrite (seqZ_cons k (e - k)); [|lia]. do 2 f_equal; lia.
    + rewrite length_app. cbn [length]. lia.
  - rewrite seqZ_nil; [|lia]. now rewrite app_nil_r.
Qed.

(** X10. For integers between [-2^53] and [2^53], where counting is exact,
    and fewer than [2^32] of them, [range(start, end)] returns the list of
    the integers from [start] up to but not including [end], in increasing
    order (empty when [end <= start]); [range(n)] is [range(0, n)]. *)
Theorem range_enumerates (fuel : nat) (start end_ : Z) :
  (- 2 ^ 53 <= start)%Z -> (end_ <= 2 ^ 53)%Z ->
  (end_ - start < 2 ^ 32)%Z ->
  Z.to_nat (end_ - start) < fuel ->
  exists l,
    range fuel start (Some end_) = Some (RangeReturns l) /\
    l = seqZ start (end_ - start) /\
    (forall k, k ∈ l <-> (start <= k < end_)%Z) /\
    length l = Z.to_nat (end_ - start) /\
    range fuel start None = range fuel 0 (Some start).
Proof.
  intros Hs He Hn Hf. exists (seqZ start (end_ - start)). unfold range.
  rewrite range_from_spec; [|exact Hs|exact He|cbn [length]; lia|exact Hf].
  split; [reflexivity|]. split; [reflexivity|]. split; [|split].
  - intros k. rewrite elem_of_seqZ. lia.
  - apply length_seqZ.
  - reflexivity.
Qed.

Lemma range_enumerates_witness :
  exists l,
    range 4 2 (Some 5%Z) = Some (RangeReturns l) /\
    l = seqZ 2 (5 - 2) /\
    (forall k, k ∈ l <-> (2 <= k < 5)%Z) /\
    length l = Z.to_nat (5 - 2) /\
    range 4 2 None = range 4 0 (Some 2%Z).
Proof. apply (range_enumerates 4 2 5); lia. Defined.

(** X11. Two ranges that meet join into one: for integers
    [-2^53 <= a <= b <= c <= 2^53] with [c - a < 2^32], [range(a, b)]
    followed by [range(b, c)] is [range(a, c)]. *)
Theorem range_app (fuel : nat) (a b c : Z) :
  (- 2 ^ 53 <= a)%Z -> (a <= b)%Z -> (b <= c)%Z -> (c <= 2 ^ 53)%Z ->
  (c - a < 2 ^ 32)%Z ->
  Z.to_nat (c - a) < fuel ->
  exists l1 l2,
    range fuel a (Some b) = Some (RangeReturns l1) /\
    range fuel b (Some c) = Some (RangeReturns l2) /\
    range fuel a (Some c) = Some (RangeReturns (l1 ++ l2)).
Proof.
  intros Ha Hab Hbc Hc Hn Hf. unfold range.
  exists (seqZ a (b - a)), (seqZ b (c - b)).
  rewrite !range_from_spec; cbn [length]; try lia. cbn [app].
  split; [reflexivity|]. split; [reflexivity|]. do 2 f_equal.
  replace (c - a)%Z with ((b - a) + (c - b))%Z by lia.
  rewrite seqZ_app; [|lia|lia]. do 2 f_equal. lia.
Qed.

Lemma range_app_witness :
  exists l1 l2,
    range 6 2 (Some 5%Z) = Some (RangeReturns l1) /\
    range 6 5 (Some 7%Z) = Some (RangeReturns l2) /\
    range 6 2 (Some 7%Z) = Some (RangeReturns (l1 ++ l2)).
Proof. apply (range_app 6 2 5 7); lia. Defined.

Lemma increment_stalls (k : Z) :
  (2 ^ 53 <= k)%Z ->
  increment k = k \/ (increment k = (k + 2)%Z /\ increment (k + 2) = (k + 2)%Z).
Proof.
  intros Hk. unfold increment.
  destruct (Z.leb_spec (- 2 ^ 53) k); [|lia].
  destruct (Z.ltb_spec k (2 ^ 53)); [lia|]. cbn [andb].
  destruct (Z.leb_spec (- 2 ^ 54) k); [|lia].
  destruct (Z.ltb_spec k (2 ^ 54)); cbn [andb]; [|now left].
  destruct (Z.even (k / 2)) eqn: Hev; [now left|]. right. split; [reflexivity|].
  destruct (Z.leb_spec (- 2 ^ 53) (k + 2)); [|lia].
  destruct (Z.ltb_spec (k + 2) (2 ^ 53)); [lia|]. cbn [andb].
  destruct (Z.leb_spec (- 2 ^ 54) (k + 2)); [|lia].
  destruct (Z.ltb_spec (k + 2) (2 ^ 54)); cbn [andb]; [|reflexivity].
  replace ((k + 2) / 2)%Z with (k / 2 + 1)%Z.
  - rewrite Z.even_add, Hev. reflexivity.
  - replace (k + 2)%Z with (k + 1 * 2)%Z by lia. rewrite Z.div_add; lia.
Qed.

(** With the counter stalled below [end], the loop goes on until the array
    is full. *)
Lemma range_from_stalled (fuel : nat) (k e : Z) (acc : list Z) :
  increment k = k -> (k < e)%Z ->
  (forall l, range_from fuel k e acc <> Some (RangeReturns l)) /\
  (Z.to_nat (2 ^ 32 - 1 - Z.of_nat (length acc)) < fuel ->
   range_from fuel k e acc = Some RangeThrows).
Proof.
  intros Hs Hlt. revert acc. induction fuel as [|fuel IH]; intros acc.
  - split; [discriminate|lia].
  - cbn [range_from]. destruct (decide (k < e)%Z); [|lia]. rewrite Hs.
    destruct (Z.ltb_spec (Z.of_nat (length acc)) (2 ^ 32 - 1)) as [Hroom|Hfull].
    + destruct (IH (acc ++ [k])) as [H1 H2]. split; [exact H1|].
      intros Hf. apply H2. rewrite length_app. cbn [length]. lia.
    + split; [discriminate|reflexivity].
Qed.

(** X30. From [2^53] on the counter no longer advances by one: for
    [start >= 2^53] and [end > start + 2] it comes to a halt below [end],
    so the call never returns a list, whatever the number of iterations
    allowed; the loop pushes the same number until the array is full and
    [push] throws. *)
Theorem range_never_returns (start end_ : Z) :
  (2 ^ 53 <= start)%Z -> (start + 2 < end_)%Z ->
  (forall fuel l, range fuel start (Some end_) <> Some (RangeReturns l)) /\
  (forall fuel, Z.to_nat (2 ^ 32) < fuel ->
                range fuel start (Some end_) = Some RangeThrows).
Proof.
  intros Hs He. unfold range.
  destruct (increment_stalls start Hs) as [Hst|[Hmove Hst]].
  - split.
    + intros fuel. apply range_from_stalled; [exact Hst|lia].
    + intros fuel Hf. apply range_from_stalled; [exact Hst|lia|].
      cbn [length]. lia.
  - split.
    + intros [|fuel] l; [discriminate|]. cbn [range_from].
      destruct (decide (start < end_)%Z); [|lia]. cbn [length]. rewrite Hmove.
      destruct (Z.ltb_spec (Z.of_nat 0) (2 ^ 32 - 1)); [|lia].
      apply range_from_stalled; [exact Hst|lia].
    + intros [|fuel] Hf; [lia|]. cbn [range_from].
      destruct (decide (start < end_)%Z); [|lia]. cbn [length]. rewrite Hmove.
      destruct (Z.ltb_spec (Z.of_nat 0) (2 ^ 32 - 1)); [|lia].
      apply range_from_stalled; [exact Hst|lia|].
      cbn [app length]. lia.
Qed.

Lemma range_never_returns_witness :
  (forall fuel l,
     range fuel (2 ^ 53) (Some (2 ^ 53 + 3)%Z) <> Some (RangeReturns l)) /\
  (forall fuel, Z.to_nat (2 ^ 32) < fuel ->
                range fuel (2 ^ 53) (Some (2 ^ 53 + 3)%Z) = Some RangeThrows).
Proof. apply (range_never_returns (2 ^ 53) (2 ^ 53 + 3)); lia. Defined.

(** ** reduceToObject *)

Lemma assign_property_lookup {V : Type} (keeps_setter : V -> bool)
    (key k : string) (item : V) (acc : Accumulator V) :
  k <> "__proto__" ->
  own (assign_property keeps_setter key item acc) !! k =
  if bool_decide (key = k) then Some item else own acc !! k.
Proof.
  intros Hk. unfold assign_property.
  destruct (String.eqb_spec key "__proto__") as [->|Hne].
  - rewrite bool_decide_eq_false_2; [|congruence].
    destruct (setter_in_reach acc); cbn [own]; [reflexivity|].
    rewrite lookup_insert_ne; [reflexivity|congruence].
  - cbn [own]. destruct (decide (key = k)) as [->|Hkk].
    + rewrite bool_decide_eq_true_2; [|reflexivity]. apply lookup_insert_eq.
    + rewrite bool_decide_eq_false_2; [|exact Hkk]. now apply lookup_insert_ne.
Qed.

Lemma reduce_from_app {V : Type} (keeps_setter : V -> bool)
    (keyFunc : V -> nat -> string) (l1 l2 : list V)
    (index : nat) (acc : Accumulator V) :
  reduce_from keeps_setter keyFunc index (l1 ++ l2) acc =
  reduce_from keeps_setter keyFunc (index + length l1) l2
    (reduce_from keeps_setter keyFunc index l1 acc).
Proof.
  revert index acc. induction l1 as [|x l1 IH]; intros index acc; simpl.
  - now rewrite Nat.add_0_r.
  - rewrite IH. f_equal. lia.
Qed.

Lemma reduce_from_other {V : Type} (keeps_setter : V -> bool)
    (keyFunc : V -> nat -> string) (l : list V)
    (index : nat) (acc : Accumulator V) (k : string) :
  k <> "__proto__" ->
  (forall j y, l !! j = Some y -> keyFunc y (index + j) <> k) ->
  own (reduce_from keeps_setter keyFunc index l acc) !! k = own acc !! k.
Proof.
  intros Hk. revert index acc.
  induction l as [|x l IH]; intros index acc Hno; simpl.
  - reflexivity.
  - rewrite IH.
    + rewrite assign_property_lookup; [|exact Hk].
      rewrite bool_decide_eq_false_2; [reflexivity|].
      intros E. apply (Hno 0 x); [reflexivity|]. now rewrite Nat.add_0_r.
    + intros j y Hj. replace (S index + j) with (index + S j) by lia.
      now apply Hno.
Qed.

Lemma assign_property_sound {V : Type} (keeps_setter : V -> bool)
    (key k : string) (item x : V) (acc : Accumulator V) :
  own (assign_property keeps_setter key item acc) !! k = Some x ->
  own acc !! k = Some x \/ (key = k /\ item = x).
Proof.
  unfold assign_property.
  destruct (String.eqb_spec key "__proto__") as [->|Hne].
  - destruct (setter_in_reach acc); cbn [own]; [now left|].
    destruct (decide ("__proto__" = k)) as [<-|Hk].
    + rewrite lookup_insert_eq. intros [= <-]. now right.
    + rewrite lookup_insert_ne; [|exact Hk]. now left.
  - cbn [own]. destruct (decide (key = k)) as [<-|Hk].
    + rewrite lookup_insert_eq. intros [= <-]. now right.
    + rewrite lookup_insert_ne; [|exact Hk]. now left.
Qed.

Lemma reduce_from_sound {V : Type} (keeps_setter : V -> bool)
    (keyFunc : V -> nat -> string) (l : list V)
    (index : nat) (acc : Accumulator V) (k : string) (x : V) :
  own (reduce_from keeps_setter keyFunc index l acc) !! k = Some x ->
  own acc !! k = Some x \/
  (exists j, l !! j = Some x /\ keyFunc x (index + j) = k).
Proof.
  revert index acc. induction l as [|y l IH]; intros index acc H; simpl in H.
  - now left.
  - apply IH in H as [H|(j & Hj & Hk)].
    + apply assign_property_sound in H as [H|[Hk ->]]; [now left|].
      right. exists 0. rewrite Nat.add_0_r. easy.
    + right. exists (S j). replace (index + S j) with (S index + j) by lia. easy.
Qed.

Lemma reduce_from_no_proto {V : Type} (keeps_setter : V -> bool)
    (keyFunc : V -> nat -> string) (l : list V)
    (index : nat) (acc : Accumulator V) :
  setter_in_reach acc = true -> own acc !! "__proto__" = None ->
  (forall j y, l !! j = Some y -> keyFunc y (index + j) = "__proto__" ->
               keeps_setter y = true) ->
  own (reduce_from keeps_setter keyFunc index l acc) !! "__proto__" = None.
Proof.
  revert index acc. induction l as [|x l IH]; intros index acc Hr Hn Hk; simpl.
  - exact Hn.
  - apply IH.
    + unfold assign_property.
      destruct (String.eqb_spec (keyFunc x index) "__proto__") as [E|E].
      * rewrite Hr. cbn [setter_in_reach]. apply (Hk 0 x); [reflexivity|].
        now rewrite Nat.add_0_r.
      * exact Hr.
    + unfold assign_property.
      destruct (String.eqb_spec (keyFunc x index) "__proto__") as [E|E].
      * now rewrite Hr.
      * cbn [own]. rewrite lookup_insert_ne; [exact Hn|exact E].
    + intros j y Hj. replace (S index + j) with (index + S j) by lia.
      now apply Hk.
Qed.

(** X12. Every property of the object returned by [reduceToObject] holds an
    item of the list, stored under the key computed for it; and as long as
    no item stored under ["__proto__"] takes the inherited setter out of
    reach (as [null] does), no property is created for that key. *)
Theorem reduceToObject_sound {V : Type} (keeps_setter : V -> bool)
    (list_ : list V) (keyFunc : V -> nat -> string) :
  (forall k x, reduceToObject keeps_setter list_ keyFunc !! k = Some x ->
     exists index, list_ !! index = Some x /\ keyFunc x index = k) /\
  ((forall index item, list_ !! index = Some item ->
      keyFunc item index = "__proto__" -> keeps_setter item = true) ->
   reduceToObject keeps_setter list_ keyFunc !! "__proto__" = None).
Proof.
  unfold reduceToObject. split.
  - intros k x H. apply reduce_from_sound in H as [H|(j & Hj & Hk)].
    + cbn [own] in H. now rewrite lookup_empty in H.
    + exists j. easy.
  - intros Hk. apply reduce_from_no_proto; [reflexivity|apply lookup_empty|].
    intros j y Hj. now apply Hk.
Qed.

(** The accumulator after a [null] has been stored under ["__proto__"]:
    the second item given that key becomes a property. *)
Example reduceToObject_proto_after_null :
  reduceToObject (fun item : option Z => bool_decide (item <> None))
    [None; Some 5%Z] (fun _ _ => "__proto__") !! "__proto__" = Some (Some 5%Z).
Proof. reflexivity. Qed.

(** X13. When several items get the same key, the last of them is the one
    stored: an item whose key is not ["__proto__"] and is not computed again
    for a later item is found under its key. *)
Theorem reduceToObject_last_wins {V : Type} (keeps_setter : V -> bool)
    (before after : list V) (item : V) (keyFunc : V -> nat -> string) :
  keyFunc item (length before) <> "__proto__" ->
  (forall j y, after !! j = Some y ->
     keyFunc y (S (length before) + j) <> keyFunc item (length before)) ->
  reduceToObject keeps_setter (before ++ item :: after) keyFunc
    !! keyFunc item (length before) = Some item.
Proof.
  intros Hp Hlater. unfold reduceToObject.
  rewrite reduce_from_app. simpl.
  rewrite reduce_from_other; [|exact Hp|exact Hlater].
  rewrite assign_property_lookup; [|exact Hp]. now rewrite bool_decide_eq_true_2.
Qed.

Lemma reduceToObject_last_wins_witness :
  reduceToObject (fun _ => true) (["ab"; "cd"] ++ "ae" :: ["cf"])
                 (fun item _ => String.substring 0 1 item)
    !! "a" = Some "ae".
Proof.
  apply (reduceToObject_last_wins (fun _ => true) ["ab"; "cd"] ["cf"] "ae"
           (fun item _ => String.substring 0 1 item)).
  - discriminate.
  - intros [|[|j]] y Hj; try discriminate. inversion Hj. discriminate.
Defined.

Lemma keys_of_lookup {V : Type} (keyFunc : V -> nat -> string) (l : list V)
    (i : nat) (x : V) :
  l !! i = Some x -> keys_of keyFunc l !! i = Some (keyFunc x i).
Proof.
  intros H. unfold keys_of. rewrite list_lookup_imap, H. reflexivity.
Qed.

Lemma reduce_from_size {V : Type} (keeps_setter : V -> bool)
    (keyFunc : V -> nat -> string) (l : list V)
    (index : nat) (acc : Accumulator V) :
  NoDup (imap (fun j item => keyFunc item (index + j)) l) ->
  (forall j y, l !! j = Some y ->
     keyFunc y (index + j) <> "__proto__" /\
     own acc !! keyFunc y (index + j) = None) ->
  size (own (reduce_from keeps_setter keyFunc index l acc))
    = size (own acc) + length l.
Proof.
  revert index acc. induction l as [|x l IH]; intros index acc Hnd Hfresh; simpl.
  - lia.
  - simpl in Hnd. apply NoDup_cons in Hnd as [Hx Hnd].
    destruct (Hfresh 0 x eq_refl) as [Hp Hnone].
    rewrite Nat.add_0_r in Hp, Hnone.
    rewrite IH.
    + unfold assign_property. destruct (String.eqb_spec (keyFunc x index) "__proto__");
        [contradiction|].
      cbn [own]. rewrite map_size_insert_None; [lia|]. exact Hnone.
    + erewrite imap_ext; [exact Hnd|]. intros j y _. simpl. f_equal. lia.
    + intros j y Hj. replace (S index + j) with (index + S j) by lia.
      destruct (Hfresh (S j) y Hj) as [Hp' Hnone']. split; [exact Hp'|].
      rewrite assign_property_lookup; [|exact Hp'].
      rewrite bool_decide_eq_false_2; [exact Hnone'|].
      intros Hk. apply Hx. rewrite Nat.add_0_r. rewrite Hk.
      apply elem_of_lookup_imap. exists j, y. split; [|exact Hj].
      simpl. first [reflexivity | f_equal; lia].
Qed.

(** X14. When the keys computed for the items are pairwise distinct and none
    of them is ["__proto__"], the object returned indexes the whole list:
    every item is found under its key, and there are as many properties as
    items. *)
Theorem reduceToObject_distinct_keys {V : Type} (keeps_setter : V -> bool)
    (list_ : list V) (keyFunc : V -> nat -> string) :
  NoDup (keys_of keyFunc list_) ->
  "__proto__" ∉ keys_of keyFunc list_ ->
  (forall index item, list_ !! index = Some item ->
     reduceToObject keeps_setter list_ keyFunc !! keyFunc item index = Some item) /\
  size (reduceToObject keeps_setter list_ keyFunc) = length list_.
Proof.
  intros Hnd Hp. split.
  - intros index item Hi.
    pose proof (take_drop_middle _ _ _ Hi) as Hsplit.
    pose proof (lookup_lt_Some _ _ _ Hi) as Hlt.
    assert (Hlen : length (take index list_) = index)
      by (rewrite length_take; lia).
    assert (Hkey : keyFunc item index <> "__proto__").
    { intros E. apply Hp. rewrite <- E.
      apply list_elem_of_lookup. exists index. now apply keys_of_lookup. }
    rewrite <- Hsplit.
    unfold reduceToObject. rewrite reduce_from_app. simpl. rewrite Hlen.
    rewrite reduce_from_other; [|exact Hkey|].
    + rewrite assign_property_lookup; [|exact Hkey].
      now rewrite bool_decide_eq_true_2.
    + intros j y Hj E. rewrite lookup_drop in Hj.
      pose proof (keys_of_lookup keyFunc _ _ _ Hj) as H1.
      pose proof (keys_of_lookup keyFunc _ _ _ Hi) as H2.
      replace (0 + S index + j) with (S index + j) in E by lia.
      rewrite E in H1.
      pose proof (NoDup_lookup _ _ _ _ Hnd H1 H2). lia.
  - unfold reduceToObject. rewrite reduce_from_size.
    + cbn [own]. rewrite map_size_empty. lia.
    + exact Hnd.
    + intros j y Hj. split; [|apply lookup_empty].
      intros E. apply Hp. rewrite <- E. apply list_elem_of_lookup. exists j.
      now apply keys_of_lookup.
Qed.

Lemma reduceToObject_distinct_keys_witness :
  (forall index item, ["ab"; "cd"; "ef"] !! index = Some item ->
     reduceToObject (fun _ => true) ["ab"; "cd"; "ef"]
       (fun item _ => String.substring 0 1 item)
       !! (String.substring 0 1 item) = Some item) /\
  size (reduceToObject (fun _ => true) ["ab"; "cd"; "ef"]
          (fun item _ => String.substring 0 1 item)) = 3.
Proof.
  apply (reduceToObject_distinct_keys (fun _ => true) ["ab"; "cd"; "ef"]
           (fun item _ => String.substring 0 1 item)).
  - compute_done.
  - compute_done.
Defined.

(** ** Directions *)

Ltac by_direction d :=
  destruct (String.eqb_spec d "left") as [->|?];
  [|destruct (String.eqb_spec d "right") as [->|?];
    [|destruct (String.eqb_spec d "up") as [->|?];
      [|destruct (String.eqb_spec d "down") as [->|?]]]].

Lemma oppositeDir_cases (d : string) :
  (d = "left" /\ oppositeDir d = Some "right") \/
  (d = "right" /\ oppositeDir d = Some "left") \/
  (d = "up" /\ oppositeDir d = Some "down") \/
  (d = "down" /\ oppositeDir d = Some "up") \/
  ((d ∉ directions) /\ oppositeDir d = None).
Proof.
  unfold oppositeDir. by_direction d; simpl; auto 6.
  right. right. right. right. split; [|reflexivity].
  unfold directions. rewrite !elem_of_cons, elem_of_nil. tauto.
Qed.

Lemma own_member_eq (table : list (string * string)) (k key v : string) :
  own_member ((k, v) :: table) key =
  if String.eqb k key then Some v else own_member table key.
Proof. reflexivity. Qed.

Lemma clockwise_cases (d : string) :
  (d = "left" /\ clockwiseDirection d = MemberString "up") \/
  (d = "up" /\ clockwiseDirection d = MemberString "right") \/
  (d = "right" /\ clockwiseDirection d = MemberString "down") \/
  (d = "down" /\ clockwiseDirection d = MemberString "left") \/
  ((d ∉ directions) /\ own_member CLOCKWISE d = None).
Proof.
  unfold clockwiseDirection, member, CLOCKWISE.
  by_direction d; auto 6.
  right. right. right. right. split.
  - unfold directions. rewrite !elem_of_cons, elem_of_nil. tauto.
  - rewrite !own_member_eq.
    repeat match goal with
           | H : ?d <> ?k |- context [String.eqb ?k ?d] =>
               let E := fresh in
               destruct (String.eqb_spec k d) as [E|E];
               [now symmetry in E|clear E]
           end.
    reflexivity.
Qed.

Lemma counterClockwise_cases (d : string) :
  (d = "left" /\ counterClockwiseDirection d = MemberString "down") \/
  (d = "up" /\ counterClockwiseDirection d = MemberString "left") \/
  (d = "right" /\ counterClockwiseDirection d = MemberString "up") \/
  (d = "down" /\ counterClockwiseDirection d = MemberString "right") \/
  ((d ∉ directions) /\ own_member COUNTER_CLOCKWISE d = None).
Proof.
  unfold counterClockwiseDirection, member, COUNTER_CLOCKWISE.
  by_direction d; auto 6.
  right. right. right. right. split.
  - unfold directions. rewrite !elem_of_cons, elem_of_nil. tauto.
  - rewrite !own_member_eq.
    repeat match goal with
           | H : ?d <> ?k |- context [String.eqb ?k ?d] =>
               let E := fresh in
               destruct (String.eqb_spec k d) as [E|E];
               [now symmetry in E|clear E]
           end.
    reflexivity.
Qed.

Ltac direction_cases H :=
  destruct H as [[-> H]|[[-> H]|[[-> H]|[[-> H]|[? H]]]]].

(** X15. [oppositeDir] pairs the four directions: when it returns a
    direction, that direction is a different one and its own opposite is
    the argument; moving towards the opposite direction negates the signed
    speed of [towardsDir]. *)
Theorem oppositeDir_involution (direction opposite : string) (speed : Z) :
  oppositeDir direction = Some opposite ->
  oppositeDir opposite = Some direction /\
  opposite <> direction /\
  towardsDir speed opposite = (- towardsDir speed direction)%Z.
Proof.
  intros H. pose proof (oppositeDir_cases direction) as C.
  direction_cases C; rewrite C in H; inversion H; subst;
    (split; [reflexivity|split; [discriminate|]]); unfold towardsDir; simpl; lia.
Qed.

Lemma oppositeDir_involution_witness :
  oppositeDir "down" = Some "up" /\
  "down" <> "up" /\
  towardsDir 3 "down" = (- towardsDir 3 "up")%Z.
Proof. apply (oppositeDir_involution "up" "down" 3). reflexivity. Defined.

(** X16. The two turning tables agree: turning clockwise from [a] gives [b]
    exactly when turning counter-clockwise from [b] gives [a]; and two
    clockwise turns give the opposite direction. *)
Theorem clockwise_counterClockwise_inverse (a b : string) :
  (clockwiseDirection a = MemberString b <->
   counterClockwiseDirection b = MemberString a) /\
  (clockwiseDirection a = MemberString b ->
   forall c, clockwiseDirection b = MemberString c -> oppositeDir a = Some c).
Proof.
  pose proof (clockwise_cases a) as Ca.
  pose proof (counterClockwise_cases b) as Cb.
  split; [split|].
  - intros H. direction_cases Ca; try rewrite Ca in H.
    1-4: inversion H; subst; reflexivity.
    unfold clockwiseDirection, member in H. rewrite Ca in H.
    destruct (bool_decide _); discriminate.
  - intros H. direction_cases Cb; try rewrite Cb in H.
    1-4: inversion H; subst; reflexivity.
    unfold counterClockwiseDirection, member in H. rewrite Cb in H.
    destruct (bool_decide _); discriminate.
  - intros H c Hc. direction_cases Ca; try rewrite Ca in H.
    1-4: inversion H; subst; vm_compute in Hc; inversion Hc; reflexivity.
    unfold clockwiseDirection, member in H. rewrite Ca in H.
    destruct (bool_decide _); discriminate.
Qed.

(** X17. [oppositeDir] returns [undefined] for every value that is not one
    of the four directions, but the turning tables are object literals:
    for such a value they yield [undefined] only if it is not the name of a
    member inherited from [Object.prototype], and the inherited member
    otherwise. *)
Theorem direction_lookup_outside_the_table (direction : string) :
  direction ∉ directions ->
  oppositeDir direction = None /\
  (direction ∈ object_prototype_keys ->
     clockwiseDirection direction = MemberInherited /\
     counterClockwiseDirection direction = MemberInherited) /\
  (direction ∉ object_prototype_keys ->
     clockwiseDirection direction = MemberUndefined /\
     counterClockwiseDirection direction = MemberUndefined).
Proof.
  intros Hd.
  pose proof (oppositeDir_cases direction) as Co.
  pose proof (clockwise_cases direction) as Cc.
  pose proof (counterClockwise_cases direction) as Cw.
  direction_cases Co; try (exfalso; apply Hd; compute_done).
  direction_cases Cc; try (exfalso; apply Hd; compute_done).
  direction_cases Cw; try (exfalso; apply Hd; compute_done).
  split; [exact Co|].
  unfold clockwiseDirection, counterClockwiseDirection, member.
  rewrite Cc, Cw. split; intros Hk.
  - now rewrite bool_decide_eq_true_2.
  - now rewrite bool_decide_eq_false_2.
Qed.

Lemma direction_lookup_outside_the_table_witness :
  oppositeDir "constructor" = None /\
  ("constructor" ∈ object_prototype_keys ->
     clockwiseDirection "constructor" = MemberInherited /\
     counterClockwiseDirection "constructor" = MemberInherited) /\
  ("constructor" ∉ object_prototype_keys ->
     clockwiseDirection "constructor" = MemberUndefined /\
     counterClockwiseDirection "constructor" = MemberUndefined).
Proof.
  apply (direction_lookup_outside_the_table "constructor").
  compute_done.
Defined.

(** ** Tiles of an object *)

Lemma scan_tilesets_app (gid : Z) (l1 l2 : list Tileset) (acc : option Tileset) :
  scan_tilesets gid (l1 ++ l2) acc = scan_tilesets gid l2 (scan_tilesets gid l1 acc).
Proof. apply fold_left_app. Qed.

Lemma scan_tilesets_none (gid : Z) (l : list Tileset) (acc : option Tileset) :
  Forall (fun ts => gid < firstgid ts)%Z l -> scan_tilesets gid l acc = acc.
Proof.
  revert acc. induction l as [|ts l IH]; intros acc H; [reflexivity|].
  apply Forall_cons in H as [Hts H]. simpl.
  destruct (Z.leb_spec (firstgid ts) gid); [lia|]. now apply IH.
Qed.

Lemma scan_tilesets_some (gid : Z) (l : list Tileset) (acc ts : Tileset) :
  elem_of ts (acc :: l) ->
  exists ts', scan_tilesets gid l (Some acc) = Some ts' /\ elem_of ts' (acc :: l) /\
              (firstgid ts <= gid -> firstgid acc <= gid ->
               StronglySorted (fun a b => firstgid a <= firstgid b)%Z (acc :: l) ->
               firstgid ts <= firstgid ts' <= gid)%Z.
Proof.
  revert acc ts. induction l as [|t l IH]; intros acc ts Hin.
  - exists acc. simpl. split; [reflexivity|]. split; [left|].
    apply list_elem_of_singleton in Hin as ->. lia.
  - simpl. destruct (Z.leb_spec (firstgid t) gid) as [Hle|Hgt].
    + apply elem_of_cons in Hin as [->|Hin].
      * destruct (IH t t) as (ts' & E & Hin' & Hb); [left|].
        exists ts'. split; [exact E|]. split; [now right|].
        intros _ Hacc Hs. apply StronglySorted_inv in Hs as [Hs Hall].
        apply Forall_cons in Hall as [Hat _].
        specialize (Hb Hle Hle Hs). lia.
      * destruct (IH t ts Hin) as (ts' & E & Hin' & Hb).
        exists ts'. split; [exact E|]. split; [now right|].
        intros Hts Hacc Hs. apply StronglySorted_inv in Hs as [Hs _].
        now apply Hb.
    + assert (Hin' : elem_of ts (acc :: l) \/ ts = t).
      { rewrite !elem_of_cons in Hin. rewrite elem_of_cons. tauto. }
      destruct Hin' as [Hin'| ->].
      * destruct (IH acc ts Hin') as (ts' & E & Hin'' & Hb).
        exists ts'. split; [exact E|]. split.
        { rewrite !elem_of_cons in Hin''. rewrite !elem_of_cons. tauto. }
        intros Hts Hacc Hs. apply Hb; [exact Hts|exact Hacc|].
        apply StronglySorted_inv in Hs as [Hs Hall].
        apply StronglySorted_inv in Hs as [Hs Hall'].
        apply Forall_cons in Hall as [_ Hall].
        now constructor.
      * destruct (IH acc acc) as (ts' & E & Hin'' & Hb); [left|].
        exists ts'. split; [exact E|]. split.
        { rewrite !elem_of_cons in Hin''. rewrite !elem_of_cons. tauto. }
        intros Hts. lia.
Qed.

Lemma scan_tilesets_found (gid : Z) (l : list Tileset) (ts : Tileset) :
  scan_tilesets gid l None = Some ts -> elem_of ts l /\ (firstgid ts <= gid)%Z.
Proof.
  induction l as [|t l IH] using rev_ind; [discriminate|].
  rewrite scan_tilesets_app. simpl.
  destruct (Z.leb_spec (firstgid t) gid) as [Hle|Hgt].
  - intros H. inversion H; subst. split; [|exact Hle].
    apply elem_of_app. right. left.
  - intros H. destruct (IH H) as [Hin Hle]. split; [|exact Hle].
    apply elem_of_app. now left.
Qed.

(** X18. [getObjectTileIndex] throws a [TypeError] exactly when every
    tileset starts after the object's gid (in particular when there is no
    tileset); when it returns, the index is the non-negative offset of the
    gid in one of the tilesets. *)
Theorem getObjectTileIndex_result (gid : Z) (tilesets : list Tileset) :
  (getObjectTileIndex gid tilesets = Abrupt TypeError <->
   Forall (fun ts => gid < firstgid ts)%Z tilesets) /\
  (forall index, getObjectTileIndex gid tilesets = Normal index ->
     (0 <= index)%Z /\
     exists ts, elem_of ts tilesets /\ index = (gid - firstgid ts)%Z).
Proof.
  unfold getObjectTileIndex. split; [split|].
  - destruct (scan_tilesets gid tilesets None) as [ts|] eqn: E; [discriminate|].
    intros _. apply Forall_forall. intros ts Hin.
    destruct (Z.lt_ge_cases gid (firstgid ts)) as [|Hle]; [assumption|].
    exfalso. clear -E Hin Hle.
    apply list_elem_of_split in Hin as (l1 & l2 & ->).
    rewrite scan_tilesets_app in E. simpl in E.
    destruct (Z.leb_spec (firstgid ts) gid); [|lia].
    destruct (scan_tilesets_some gid l2 ts ts) as (ts' & E' & _); [left|].
    unfold scan_tilesets in E, E'. rewrite E' in E. discriminate.
  - intros H. now rewrite scan_tilesets_none.
  - intros index H.
    destruct (scan_tilesets gid tilesets None) as [ts|] eqn: E; [|discriminate].
    inversion H; subst. apply scan_tilesets_found in E as [Hin Hle].
    split; [lia|]. now exists ts.
Qed.

(** X19. The tileset used is the last one, in the order of the list, that
    starts at or before the gid: when no later tileset does, that tileset's
    name and the offset of the gid in it are returned, whatever comes
    before it. *)
Theorem getObjectTileFrame_last_tileset_wins (gid : Z)
    (before after : list Tileset) (tileset : Tileset) :
  (firstgid tileset <= gid)%Z ->
  Forall (fun ts => gid < firstgid ts)%Z after ->
  getObjectTileFrame gid (before ++ tileset :: after)
    = Normal (ts_name tileset, (gid - firstgid tileset)%Z) /\
  getObjectTileIndex gid (before ++ tileset :: after)
    = Normal (gid - firstgid tileset)%Z.
Proof.
  intros Hle Hafter. unfold getObjectTileFrame, getObjectTileIndex.
  rewrite scan_tilesets_app. simpl.
  destruct (Z.leb_spec (firstgid tileset) gid); [|lia].
  rewrite scan_tilesets_none; [|exact Hafter]. easy.
Qed.

Lemma getObjectTileFrame_last_tileset_wins_witness :
  getObjectTileFrame 12
    ([{| ts_name := "a"; firstgid := 10 |}] ++
     {| ts_name := "b"; firstgid := 1 |} :: [{| ts_name := "c"; firstgid := 20 |}])
    = Normal ("b", 11%Z) /\
  getObjectTileIndex 12
    ([{| ts_name := "a"; firstgid := 10 |}] ++
     {| ts_name := "b"; firstgid := 1 |} :: [{| ts_name := "c"; firstgid := 20 |}])
    = Normal 11%Z.
Proof.
  apply (getObjectTileFrame_last_tileset_wins 12
           [{| ts_name := "a"; firstgid := 10 |}]
           [{| ts_name := "c"; firstgid := 20 |}]
           {| ts_name := "b"; firstgid := 1 |}).
  - simpl. lia.
  - repeat constructor.
Defined.

(** X20. With the tilesets listed by ascending [firstgid], as a tilemap
    lists them, an object whose gid is covered by some tileset gets the
    offset in the nearest one: the call returns, and no tileset that starts
    at or before the gid gives a smaller offset. *)
Theorem getObjectTileIndex_sorted_tilesets (gid : Z) (tilesets : list Tileset)
    (tileset : Tileset) :
  StronglySorted (fun a b => firstgid a <= firstgid b)%Z tilesets ->
  elem_of tileset tilesets ->
  (firstgid tileset <= gid)%Z ->
  exists index,
    getObjectTileIndex gid tilesets = Normal index /\
    (0 <= index <= gid - firstgid tileset)%Z.
Proof.
  intros Hs Hin Hle. unfold getObjectTileIndex.
  assert (Hgoal : exists ts', scan_tilesets gid tilesets None = Some ts' /\
                              (firstgid tileset <= firstgid ts' <= gid)%Z).
  { clear -Hs Hin Hle. induction tilesets as [|t l IH]; [now apply elem_of_nil in Hin|].
    simpl. destruct (Z.leb_spec (firstgid t) gid) as [Ht|Ht].
    - destruct (scan_tilesets_some gid l t tileset Hin) as (ts' & E & _ & Hb).
      exists ts'. split; [exact E|]. now apply Hb.
    - apply elem_of_cons in Hin as [->|Hin]; [lia|].
      apply StronglySorted_inv in Hs as [Hs _]. now apply IH. }
  destruct Hgoal as (ts' & -> & Hb). eexists. split; [reflexivity|]. lia.
Qed.

Lemma getObjectTileIndex_sorted_tilesets_witness :
  exists index,
    getObjectTileIndex 12
      [{| ts_name := "a"; firstgid := 1 |}; {| ts_name := "b"; firstgid := 10 |};
       {| ts_name := "c"; firstgid := 20 |}] = Normal index /\
    (0 <= index <= 12 - firstgid {| ts_name := "a"; firstgid := 1 |})%Z.
Proof.
  apply (getObjectTileIndex_sorted_tilesets 12
           [{| ts_name := "a"; firstgid := 1 |}; {| ts_name := "b"; firstgid := 10 |};
            {| ts_name := "c"; firstgid := 20 |}]
           {| ts_name := "a"; firstgid := 1 |}).
  - repeat constructor; simpl; lia.
  - left.
  - simpl. lia.
Defined.

(** ** getTiledProperty *)

(** X21. [getTiledProperty] returns the value of the first property with
    the given name, whatever follows it in the array. *)
Theorem getTiledProperty_first_match {V : Type}
    (before after : list (TiledProperty V)) (property : TiledProperty V) :
  Forall (fun p => prop_name p <> prop_name property) before ->
  getTiledProperty (PropertyArray (before ++ property :: after))
                   (prop_name property)
    = Some (prop_value property).
Proof.
  intros Hb. unfold getTiledProperty.
  induction before as [|q before IH]; simpl.
  - now rewrite String.eqb_refl.
  - apply Forall_cons in Hb as [Hq Hb].
    destruct (String.eqb_spec (prop_name q) (prop_name property)); [contradiction|].
    now apply IH.
Qed.

Lemma getTiledProperty_first_match_witness :
  getTiledProperty
    (PropertyArray ([{| prop_name := "roomType"; prop_value := 1%Z |}] ++
                    {| prop_name := "roomWidth"; prop_value := 10%Z |}
                    :: [{| prop_name := "roomWidth"; prop_value := 20%Z |}]))
    (prop_name {| prop_name := "roomWidth"; prop_value := 10%Z |})
    = Some (prop_value {| prop_name := "roomWidth"; prop_value := 10%Z |}).
Proof.
  apply (getTiledProperty_first_match
           [{| prop_name := "roomType"; prop_value := 1%Z |}]
           [{| prop_name := "roomWidth"; prop_value := 20%Z |}]
           {| prop_name := "roomWidth"; prop_value := 10%Z |}).
  repeat constructor. discriminate.
Defined.

(** X22. [getTiledProperty] yields [undefined] exactly when the object has
    no [properties], when [properties] is not an array, or when no property
    of the array has the given name; it never throws. *)
Theorem getTiledProperty_undefined {V : Type} (properties : TiledProperties V)
    (name : string) :
  getTiledProperty properties name = None <->
  match properties with
  | PropertyArray l => Forall (fun p => prop_name p <> name) l
  | NoProperties | NotAnArray => True
  end.
Proof.
  destruct properties as [|l|]; simpl; [easy| |easy].
  induction l as [|p l IH]; simpl.
  - split; [constructor|reflexivity].
  - destruct (String.eqb_spec (prop_name p) name) as [E|E]; simpl.
    + split; [discriminate|]. intros H. apply Forall_cons in H as [H _]. contradiction.
    + rewrite IH. split; [now constructor|]. intros H. now apply Forall_cons in H as [_ H].
Qed.

(** ** padCenter *)







(** ** randomChoices *)

Lemma splice_one_spec {A : Type} (index : nat) (l removed rest : list A) :
  splice_one index l = (removed, rest) ->
  removed ++ rest ≡ₚ l /\
  length removed <= 1 /\
  (index < length l -> length removed = 1).
Proof.
  unfold splice_one. destruct (l !! index) as [x|] eqn: E; intros H; inversion H; subst.
  - split; [|split; [simpl; lia|reflexivity]].
    simpl. symmetry. now apply delete_Permutation.
  - split; [reflexivity|]. split; [simpl; lia|].
    intros Hlt. apply lookup_ge_None in E. lia.
Qed.

Lemma randomChoices_from_spec {A : Type} (random_index : nat -> nat -> nat)
    (todo k : nat) (listCopy choices : list A) :
  exists chosen left_,
    randomChoices_from random_index k todo listCopy choices = choices ++ chosen /\
    chosen ++ left_ ≡ₚ listCopy /\
    length chosen <= todo /\
    ((forall j n, 0 < n -> random_index j n < n) ->
     length chosen = Nat.min todo (length listCopy)).
Proof.
  revert k listCopy choices. induction todo as [|todo IH]; intros k listCopy choices.
  - exists [], listCopy. simpl. rewrite app_nil_r. easy.
  - cbn [randomChoices_from].
    destruct (Nat.ltb_spec 0 (length listCopy)) as [Hpos|Hzero].
    + destruct (splice_one (random_index k (length listCopy)) listCopy)
        as [removed rest] eqn: E.
      apply splice_one_spec in E as (Hperm & Hle & Hone).
      destruct (IH (S k) rest (choices ++ removed)) as (chosen & left_ & -> & Hp & Hl & Hr).
      exists (removed ++ chosen), left_. rewrite <- app_assoc.
      split; [reflexivity|]. split.
      * rewrite <- Hperm, <- Hp. now rewrite app_assoc.
      * rewrite length_app. split; [lia|].
        intros Hrange. specialize (Hr Hrange).
        specialize (Hone (Hrange k _ Hpos)).
        apply Permutation_length in Hperm. rewrite length_app in Hperm. lia.
    + exists [], listCopy. rewrite app_nil_r. split; [reflexivity|].
      split; [reflexivity|]. change (length (@nil A)) with 0.
      split; [lia|]. intros _. lia.
Qed.

(** X25. Whatever indices are drawn, [randomChoices] returns at most
    [count] items, and they are items of the list taken without
    replacement: no position of the list is used twice, so a list without
    duplicates gives choices without duplicates. *)
Theorem randomChoices_without_replacement {A : Type}
    (random_index : nat -> nat -> nat) (list_ : list A) (count : nat) :
  randomChoices random_index list_ count ⊆+ list_ /\
  length (randomChoices random_index list_ count) <= count /\
  (NoDup list_ -> NoDup (randomChoices random_index list_ count)).
Proof.
  unfold randomChoices.
  destruct (randomChoices_from_spec random_index count 0 list_ [])
    as (chosen & left_ & -> & Hperm & Hlen & _).
  simpl. assert (Hsub : chosen ⊆+ list_).
  { rewrite <- Hperm. apply submseteq_inserts_r. reflexivity. }
  split; [exact Hsub|]. split; [exact Hlen|].
  intros Hnd. rewrite <- Hperm in Hnd. now apply NoDup_app in Hnd as [Hnd _].
Qed.

(** X26. When every index drawn is within the list it is drawn for (as
    [Math.floor(Math.random() * n)] is), [randomChoices] returns exactly
    [count] items, or all of them when the list has fewer; asked for at
    least as many items as the list has, it returns a permutation of the
    list. *)
Theorem randomChoices_count {A : Type} (random_index : nat -> nat -> nat)
    (list_ : list A) (count : nat) :
  (forall k n, 0 < n -> random_index k n < n) ->
  length (randomChoices random_index list_ count) = Nat.min count (length list_) /\
  (length list_ <= count -> randomChoices random_index list_ count ≡ₚ list_).
Proof.
  intros Hrange. unfold randomChoices.
  destruct (randomChoices_from_spec random_index count 0 list_ [])
    as (chosen & left_ & -> & Hperm & Hlen & Hmin).
  simpl. specialize (Hmin Hrange). split; [exact Hmin|].
  intros Hall. pose proof (Permutation_length Hperm) as Hl.
  rewrite length_app in Hl.
  assert (left_ = []) as -> by (apply length_zero_iff_nil; lia).
  now rewrite app_nil_r in Hperm.
Qed.

Lemma randomChoices_count_witness :
  length (randomChoices (fun k n => (k + 1) mod n) ["a"; "b"; "c"] 5)
    = Nat.min 5 (length ["a"; "b"; "c"]) /\
  (length ["a"; "b"; "c"] <= 5 ->
   randomChoices (fun k n => (k + 1) mod n) ["a"; "b"; "c"] 5 ≡ₚ ["a"; "b"; "c"]).
Proof.
  apply (randomChoices_count (fun k n => (k + 1) mod n) ["a"; "b"; "c"] 5).
  intros k n Hn. apply Nat.mod_upper_bound. lia.
Defined.

(** * Properties of the player *)

(** ** The player with opposite keys held *)

Lemma keys_cancel_execute (keys : Keys) :
  keys_cancel keys ->
  IdleState_execute keys = Some "walk" /\
  WalkingState_execute keys = (None, Some "idle").
Proof.
  destruct keys as [[] [] [] []]; unfold keys_cancel; cbn;
    intros (H1 & H2 & [H3|H3]); try discriminate; split; reflexivity.
Qed.

Lemma frame_at_rest (keys : Keys) (fuel : nat) (cur : string) (m : Machine)
    (t : Z * Z) :
  keys_cancel keys -> cur = "idle" \/ cur = "walk" ->
  at_rest keys cur m ->
  exists m', frame (S (S fuel)) m t = Some m' /\
             at_rest keys (other_state cur) m'.
Proof.
  intros Hk Hcur (Hs & Ht & Hj & (sI & HsI & HeI) & (sW & HsW & HeW)).
  destruct (keys_cancel_execute keys Hk) as [HxI HxW].
  assert (Hstep : exists sA sB,
             possibleStates m !! cur = Some sA /\
             possibleStates m !! other_state cur = Some sB /\
             execute sA (step_args m [fst t; snd t]) = ([], Some (other_state cur))).
  { destruct Hcur as [-> | ->]; cbn.
    - exists sI, sW. rewrite HeI. cbn. now rewrite HxI.
    - exists sW, sI. rewrite HeW. cbn. now rewrite HxW. }
  destruct Hstep as (sA & sB & HA & HB & Hex).
  destruct (step_starts_transition_and_returns m cur (other_state cur) sA sB
              [fst t; snd t] [])
    as (m1 & Hm1 & _ & (_ & Hs2 & Ht2 & Hj2) & _);
    try assumption.
  { destruct Hcur as [-> | ->]; discriminate. }
  { destruct Hcur as [-> | ->]; discriminate. }
  exists (settle m1). unfold frame, Player_update. rewrite (Hm1 fuel).
  split; [reflexivity|]. cbn [machine_of].
  assert (Hkeep : keeps_init "idle" m (settle m1)).
  { eapply keeps_init_trans.
    - apply (step_keeps_init "idle" (S (S fuel)) [fst t; snd t] m (Returned m1));
        [right; congruence|apply Hm1].
    - apply run_jobs_keeps_init. }
  split; [exact Hs2|]. split; [exact Ht2|]. split; [exact Hj2|]. split.
  - destruct (keeps_init_methods _ _ _ _ _ Hkeep HsI) as (s' & Hs' & _ & _ & _ & He & _).
    exists s'. split; [exact Hs'|congruence].
  - destruct (keeps_init_methods _ _ _ _ _ Hkeep HsW) as (s' & Hs' & _ & _ & _ & He & _).
    exists s'. split; [exact Hs'|congruence].
Qed.

Lemma frames_at_rest (keys : Keys) (fuel : nat) (ts : list (Z * Z)) (cur : string)
    (m : Machine) :
  keys_cancel keys -> cur = "idle" \/ cur = "walk" ->
  at_rest keys cur m ->
  exists m', frames (S (S fuel)) ts m = Some m' /\
             at_rest keys (if Nat.even (length ts) then cur else other_state cur) m'.
Proof.
  intros Hk. revert cur m. induction ts as [|t ts IH]; intros cur m Hcur Hrest.
  - exists m. easy.
  - destruct (frame_at_rest keys fuel cur m t Hk Hcur Hrest) as (m1 & E1 & H1).
    assert (Hcur' : other_state cur = "idle" \/ other_state cur = "walk")
      by (destruct Hcur as [-> | ->]; cbn; auto).
    destruct (IH (other_state cur) m1 Hcur' H1) as (m' & E & H').
    exists m'. cbn [frames]. rewrite E1. split; [exact E|].
    cbn [length]. rewrite Nat.even_succ, <- Nat.negb_even.
    destruct (Nat.even (length ts)); cbn [negb]; [exact H'|].
    destruct Hcur as [-> | ->]; exact H'.
Qed.

(** X27. With opposite cursor keys held down (left with right, or up with
    down, and no key that is not cancelled), the player never comes to
    rest: [IdleState.execute] asks for ['walk'] because a key is down,
    [WalkingState.execute] asks for ['idle'] because the movement is zero,
    so the player's machine changes state on every frame, for as long as
    the keys are held: after an odd number of frames it is in ['walk'],
    after an even number in ['idle'], each time with the transition
    complete. *)
Theorem player_alternates_on_opposite_keys (keys : Keys) (scene player : nat)
    (fuel : nat) (t : Z * Z) (ts : list (Z * Z)) :
  keys_cancel keys ->
  exists m',
    frames (S (S fuel)) (t :: ts) (Player_stateMachine keys scene player) = Some m' /\
    state m' = Some (if Nat.even (length ts) then "walk" else "idle") /\
    transitioning m' = false /\ jobs m' = [].
Proof.
  intros Hk.
  assert (H1 : exists m1,
             frame (S (S fuel)) (Player_stateMachine keys scene player) t = Some m1 /\
             at_rest keys "walk" m1).
  { destruct keys as [[] [] [] []]; destruct Hk as (Hk1 & Hk2 & [Hk3|Hk3]);
      try discriminate;
      (eexists; split; [vm_compute; reflexivity|]);
      (split; [reflexivity|]); (split; [reflexivity|]); (split; [reflexivity|]);
      (split; eexists; (split; [vm_compute; reflexivity|reflexivity])). }
  destruct H1 as (m1 & E1 & Hrest).
  destruct (frames_at_rest keys fuel ts "walk" m1 Hk (or_intror eq_refl) Hrest)
    as (m' & E & (Hs & Ht & Hj & _)).
  exists m'. cbn [frames]. rewrite E1. split; [exact E|].
  split; [|split; [exact Ht|exact Hj]].
  rewrite Hs. now destruct (Nat.even (length ts)).
Qed.

Lemma player_alternates_on_opposite_keys_witness :
  exists m',
    frames 2 ((16, 16)%Z :: [(32, 16)%Z; (48, 16)%Z])
      (Player_stateMachine
         {| right_isDown := true; left_isDown := true;
            up_isDown := false; down_isDown := false |} 0 1) = Some m' /\
    state m' = Some (if Nat.even (length [(32, 16)%Z; (48, 16)%Z])
                     then "walk" else "idle") /\
    transitioning m' = false /\ jobs m' = [].
Proof.
  apply (player_alternates_on_opposite_keys
           {| right_isDown := true; left_isDown := true;
              up_isDown := false; down_isDown := false |} 0 1 0
           (16, 16)%Z [(32, 16)%Z; (48, 16)%Z]).
  split; [reflexivity|]. split; [reflexivity|]. left. reflexivity.
Defined.

Lemma frame_stays (keys : Keys) (fuel : nat) (cur : string) (m : Machine)
    (t : Z * Z) :
  (cur = "idle" /\ IdleState_execute keys = None) \/
  (cur = "walk" /\ snd (WalkingState_execute keys) = None) ->
  at_rest keys cur m ->
  exists m', frame (S fuel) m t = Some m' /\ at_rest keys cur m'.
Proof.
  intros Hcur (Hs & Ht & Hj & (sI & HsI & HeI) & (sW & HsW & HeW)).
  set (md := drain_callbacks [fst t; snd t] m).
  destruct (drain_callbacks_frame [fst t; snd t] m)
    as (_ & Hp & _ & Hsd & _ & Htd & _ & Hjd & _).
  fold md in Hp, Hsd, Htd, Hjd.
  assert (Hex : exists s, possibleStates md !! prop_key (state md) = Some s /\
                          execute s (step_args md [fst t; snd t]) = ([], None)).
  { rewrite Hsd, Hs, Hp. cbn [prop_key].
    destruct Hcur as [[-> Hx] | [-> Hx]].
    - exists sI. split; [exact HsI|]. rewrite HeI. cbn. now rewrite Hx.
    - exists sW. split; [exact HsW|]. rewrite HeW. cbn. now rewrite Hx. }
  destruct Hex as (s & Hlook & Hx).
  unfold frame, Player_update. rewrite step_after_bootstrap; [|congruence].
  fold md.
  rewrite (execute_loop_stays fuel [fst t; snd t] md s [] None);
    [|congruence|exact Hlook|exact Hx|reflexivity].
  eexists. split; [reflexivity|]. cbn [machine_of].
  match goal with |- at_rest _ _ (settle ?x) =>
    destruct (call_user_frame (EvExecute (prop_key (state md))
                                 (step_args md [fst t; snd t])) [] md)
      as (_ & Hp2 & _ & Hs2 & _ & Ht2 & _ & Hj2 & _);
    assert (Hset : settle x = x)
      by (unfold settle; apply run_jobs_idle; congruence)
  end.
  rewrite Hset. unfold at_rest. rewrite Hp2, Hs2, Ht2, Hj2, Hp, Hsd, Htd, Hjd.
  split; [exact Hs|]. split; [exact Ht|]. split; [exact Hj|].
  split; [now exists sI|now exists sW].
Qed.

Lemma frames_stay (keys : Keys) (fuel : nat) (ts : list (Z * Z)) (cur : string)
    (m : Machine) :
  (cur = "idle" /\ IdleState_execute keys = None) \/
  (cur = "walk" /\ snd (WalkingState_execute keys) = None) ->
  at_rest keys cur m ->
  exists m', frames (S fuel) ts m = Some m' /\ at_rest keys cur m'.
Proof.
  intros Hcur. revert m. induction ts as [|t ts IH]; intros m Hrest.
  - exists m. easy.
  - destruct (frame_stays keys fuel cur m t Hcur Hrest) as (m1 & E1 & H1).
    destruct (IH m1 H1) as (m' & E & H').
    exists m'. cbn [frames]. now rewrite E1.
Qed.

(** X28. With any other keys the player comes to rest in its first frame
    and stays there for as long as the keys are held: in ['idle'] when no
    key is down, in ['walk'] when the keys give a movement, every
    transition being complete between two frames. *)
Theorem player_rests_otherwise (keys : Keys) (scene player : nat)
    (fuel : nat) (t : Z * Z) (ts : list (Z * Z)) :
  ~ keys_cancel keys ->
  exists m',
    frames (S (S fuel)) (t :: ts) (Player_stateMachine keys scene player) = Some m' /\
    state m' = Some (if any_key_down keys then "walk" else "idle") /\
    transitioning m' = false /\ jobs m' = [].
Proof.
  intros Hk.
  assert (H1 : exists m1 cur,
             frame (S (S fuel)) (Player_stateMachine keys scene player) t = Some m1 /\
             at_rest keys cur m1 /\
             cur = (if any_key_down keys then "walk" else "idle") /\
             ((cur = "idle" /\ IdleState_execute keys = None) \/
              (cur = "walk" /\ snd (WalkingState_execute keys) = None))).
  { destruct keys as [[] [] [] []];
      try (exfalso; apply Hk; unfold keys_cancel; cbn; tauto);
      (eexists; eexists; split; [vm_compute; reflexivity|]);
      (split;
       [(split; [reflexivity|]); (split; [reflexivity|]); (split; [reflexivity|]);
        (split; eexists; (split; [vm_compute; reflexivity|reflexivity]))|]);
      (split; [reflexivity|]);
      first [left; split; reflexivity | right; split; reflexivity]. }
  destruct H1 as (m1 & cur & E1 & Hrest & Hcur & Hstay).
  destruct (frames_stay keys (S fuel) ts cur m1 Hstay Hrest)
    as (m' & E & (Hs & Ht & Hj & _)).
  exists m'. cbn [frames]. rewrite E1. split; [exact E|].
  split; [congruence|]. split; [exact Ht|exact Hj].
Qed.

Lemma player_rests_otherwise_witness :
  exists m',
    frames 2 ((16, 16)%Z :: [(32, 16)%Z; (48, 16)%Z])
      (Player_stateMachine
         {| right_isDown := true; left_isDown := false;
            up_isDown := true; down_isDown := false |} 0 1) = Some m' /\
    state m' = Some (if any_key_down
                          {| right_isDown := true; left_isDown := false;
                             up_isDown := true; down_isDown := false |}
                     then "walk" else "idle") /\
    transitioning m' = false /\ jobs m' = [].
Proof.
  apply (player_rests_otherwise
           {| right_isDown := true; left_isDown := false;
              up_isDown := true; down_isDown := false |} 0 1 0
           (16, 16)%Z [(32, 16)%Z; (48, 16)%Z]).
  intros (H & _). discriminate H.
Defined.

(** X29. [WalkingState.execute] either returns ['idle'] without touching
    the velocity, which it does exactly when the keys of each axis are both
    down or both up, or returns nothing and sets a velocity that is not
    zero, points where the uncancelled keys point, and is never faster than
    [PLAYER_VELOCITY], along an axis or diagonally. *)
Theorem WalkingState_velocity (keys : Keys) :
  match WalkingState_execute keys with
  | (None, next) =>
      next = Some "idle" /\
      right_isDown keys = left_isDown keys /\ up_isDown keys = down_isDown keys
  | (Some (dx, dy), next) =>
      next = None /\ (dx, dy) <> (0, 0)%Z /\
      (dx * dx + dy * dy <= PLAYER_VELOCITY * PLAYER_VELOCITY)%Z /\
      ((0 < dx)%Z <-> right_isDown keys = true /\ left_isDown keys = false) /\
      ((dx < 0)%Z <-> left_isDown keys = true /\ right_isDown keys = false) /\
      ((0 < dy)%Z <-> down_isDown keys = true /\ up_isDown keys = false) /\
      ((dy < 0)%Z <-> up_isDown keys = true /\ down_isDown keys = false)
  end.
Proof.
  destruct keys as [[] [] [] []]; vm_compute;
    repeat split; try discriminate; try reflexivity;
    try (intros [H1 H2]; discriminate); try (intros H; discriminate H).
Qed.
